(** * Mountie: volume mount monitor and folder deletion watcher

    A shallow embedding of [src/Mountie.ts], [src/FolderDeletionWatcher.ts]
    and [src/Functions.ts], with the properties of the specification stated
    and settled against it.

    Conventions.
    - A JavaScript object used as a dictionary is an insertion-ordered
      association list ([JsObject]): insertion order is what [Object.values]
      enumerates and what the (stable) sort of [sortFilesystems] starts from.
      No key is a canonical array index.  A device name is looked up with
      the members that every object inherits from [Object.prototype]
      accounted for ([JsObject.member]); mount paths and uuids, the keys of
      the state map, of the uuid index and of the registry, are taken not
      to be names of such members.
    - An exception is a [Throw] in the [result] type.
    - Built-ins that only the host decides (locale collation, case mapping,
      the uuid library, [process.platform]) are the fields of the class
      [Host]; the state of the disk is the oracle [isDirectory].
    - Asynchrony is made explicit: what an [await] waits for arrives as an
      input (the answer of a directory check, a native notification, the
      order in which concurrent checks complete), and the code between two
      suspension points runs as one step.  A turn of the polling loop is
      one step ([monitorCycle]) when nothing interrupts it; the end of a
      turn that [stop] interrupts is a step of its own ([cycleFinish]).
    - [World] holds one monitor instance and the module-level registry it
      uses. *)

From Stdlib Require Import ZArith Ascii String DecimalString List Bool Lia.
From Stdlib Require Import Permutation Sorted.
From stdpp Require Import base list strings gmap.
Import ListNotations.

Local Open Scope Z_scope.

#[local] Set Warnings "-clear-no-such-hyp".

(** ** JavaScript values used by the program *)

Module Js.

Inductive Error : Type :=
| TypeError
| ErrorMsg (message : string).

Inductive result (A : Type) : Type :=
| Ok (a : A)
| Throw (e : Error).
Arguments Ok {A} a.
Arguments Throw {A} e.

(** Sequencing, with stdpp's notation [x ← r; k]. *)
#[global] Instance result_ret : MRet result := fun A a => Ok a.
#[global] Instance result_bind : MBind result := fun A B k r =>
  match r with
  | Ok a => k a
  | Throw e => Throw e
  end.
#[global] Instance result_fmap : FMap result := fun A B f r =>
  match r with
  | Ok a => Ok (f a)
  | Throw e => Throw e
  end.

(** Property-key coercion: [o[undefined]] reads the key ["undefined"]. *)
Definition propKey (k : option string) : string :=
  match k with
  | Some s => s
  | None => "undefined"
  end.

(** [String.prototype.startsWith]: the search string is coerced with
    [ToString], so [undefined] searches for ["undefined"]. *)
Definition startsWith (s : string) (search : option string) : bool :=
  String.prefix (propKey search) s.

(** A value that is a number or a string.  [fsSize()] declares the size of
    a filesystem as a number, and the filter at line 240 of [Mountie.ts]
    compares its string form with the empty string, which no number has:
    the size is taken to be a number or a string. *)
Inductive NumberOrString : Type :=
| Number (n : Z)
| Str (s : string).

#[global] Instance NumberOrString_eq_dec : EqDecision NumberOrString.
Proof. solve_decision. Defined.

(** [x.length] for [x : string | undefined]. *)
Definition length (x : option string) : result Z :=
  match x with
  | Some s => Ok (Z.of_nat (String.length s))
  | None => Throw TypeError
  end.

End Js.

(** Objects as dictionaries, in insertion order. *)
Module JsObject.

Definition t (V : Type) : Type := list (string * V).

Definition empty {V} : t V := [].

(** [o[k]] *)
Fixpoint get {V} (o : t V) (k : string) : option V :=
  match o with
  | [] => None
  | (k', v) :: o' => if decide (k' = k) then Some v else get o' k
  end.

(** [o[k] = v]: an existing key keeps its place, a new one goes last. *)
Fixpoint set {V} (o : t V) (k : string) (v : V) : t V :=
  match o with
  | [] => [(k, v)]
  | (k', v') :: o' =>
      if decide (k' = k) then (k', v) :: o' else (k', v') :: set o' k v
  end.

(** [delete o[k]] *)
Fixpoint delete {V} (o : t V) (k : string) : t V :=
  match o with
  | [] => []
  | (k', v') :: o' =>
      if decide (k' = k) then delete o' k else (k', v') :: delete o' k
  end.

(** The names that an object created by an object literal inherits from
    [Object.prototype]. *)
Definition objectPrototypeNames : list string :=
  [ "constructor"; "__defineGetter__"; "__defineSetter__"; "hasOwnProperty";
    "__lookupGetter__"; "__lookupSetter__"; "isPrototypeOf";
    "propertyIsEnumerable"; "toString"; "valueOf"; "__proto__";
    "toLocaleString" ].

(** What [o[k]] evaluates to: the value of an own property, else a member
    inherited from [Object.prototype] (a function, or the prototype object
    itself for [__proto__]; truthy, and without any of the properties the
    program reads), else [undefined]. *)
Inductive Member (V : Type) : Type :=
| Own (v : V)
| Inherited
| Undefined.
Arguments Own {V} v.
Arguments Inherited {V}.
Arguments Undefined {V}.

Definition member {V} (o : t V) (k : string) : Member V :=
  match get o k with
  | Some v => Own v
  | None =>
      if bool_decide (k ∈ objectPrototypeNames) then Inherited else Undefined
  end.

Definition keys {V} (o : t V) : list string := map fst o.
Definition values {V} (o : t V) : list V := map snd o.

(** The key set, for statements that compare two dictionaries. *)
Definition keySet {V} (o : t V) : gset string := list_to_set (keys o).

End JsObject.

(** ** Data model ([src/Mountie.ts], lines 31-53) *)

Record Size : Type := mkSize {
  available : Z;
  total : Js.NumberOrString;
  used : Z;
}.

Record FileSystem : Type := mkFileSystem {
  device : string;
  label : string;
  filesystem : string;
  model : option string;
  mountpoint : option string;
  mounted : bool;
  protocol : string;
  serial : option string;
  size : Size;
  uuid : string;
}.

Inductive FileSystemEvent : Type :=
| Mount (filesystem : FileSystem)
| Rename (filesystem oldFilesystem : FileSystem)
| Unmount (filesystem : FileSystem).

#[global] Instance Size_eq_dec : EqDecision Size.
Proof. solve_decision. Defined.
#[global] Instance FileSystem_eq_dec : EqDecision FileSystem.
Proof. solve_decision. Defined.
#[global] Instance FileSystemEvent_eq_dec : EqDecision FileSystemEvent.
Proof. solve_decision. Defined.

(** ** The host *)

Inductive Platform : Type := darwin | linux | win32 | otherPlatform.

Class Host : Type := {
  platform : Platform;
  (** [String.prototype.toLowerCase] and [toUpperCase] *)
  toLowerCase : string -> string;
  toUpperCase : string -> string;
  (** [a.localeCompare(b)]: negative, zero or positive *)
  localeCompare : string -> string -> Z;
  (** [UUID.v5(name, namespace)] *)
  v5 : string -> string -> string;
}.

(** [isDirectory] of [Functions.ts]: [stat] rejects on a path that is not a
    string or does not exist, and every rejection becomes [false]. *)
Definition isDirectory (disk : string -> bool) (path : option string) : bool :=
  match path with
  | Some p => disk p
  | None => false
  end.

(** ** Sorting ([Array.prototype.sort] with a comparator that may throw)

    The sort is stable: an element goes before the first element of the
    sorted rest that it does not follow.  With fewer than two elements the
    comparator is never called; otherwise every element takes part in at
    least one comparison, so a comparator that throws on an element makes
    the whole sort throw.  (For a comparator that is not a consistent order
    the language leaves the resulting order to the implementation; nothing
    below depends on the order beyond its being a permutation.) *)

Fixpoint insertSorted {A} (cmp : A -> A -> Js.result Z) (x : A) (l : list A)
  : Js.result (list A) :=
  match l with
  | [] => mret [x]
  | y :: l' =>
      c ← cmp x y;
      if c <=? 0 then mret (x :: y :: l')
      else l'' ← insertSorted cmp x l'; mret (y :: l'')
  end.

Fixpoint sortWith {A} (cmp : A -> A -> Js.result Z) (l : list A)
  : Js.result (list A) :=
  match l with
  | [] => mret []
  | x :: l' => s ← sortWith cmp l'; insertSorted cmp x s
  end.

(** ** The snapshot provider's data ([systeminformation]) *)

Module SystemInformation.

Record BlockDevicesData : Type := mkBlockDevice {
  name : string;
  label : string;
  protocol : string;
  serial : string;
  uuid : string;
}.

Record FsSizeData : Type := mkFsSize {
  fs : string;
  type : string;
  size : Js.NumberOrString;
  used : Z;
  available : Z;
  mount : string;
}.

End SystemInformation.

(** ** Constants ([src/Mountie.ts], lines 14-28) *)

Definition UUID_NAMESPACE : string := "6ba7b815-9dad-11d1-80b4-00c04fd430c8".
Definition INTERVAL_LENGTH : Z := 10000.
Definition SORT : bool := true.

(** A regular expression is used only through [test]. *)
Definition RegExp : Type := string -> bool.

(** [IGNORED_MOUNT_POINTS_REGEX]: [/^$/], [/^\/private\//],
    [/^\/Volumes\/Recovery$/], [/^\/System\//] on darwin, none on linux and
    win32, and no entry at all for any other platform. *)
Definition IGNORED_MOUNT_POINTS_REGEX (p : Platform) : option (list RegExp) :=
  match p with
  | darwin =>
      Some [ (fun s => bool_decide (s = EmptyString));
             String.prefix "/private/";
             (fun s => bool_decide (s = "/Volumes/Recovery"));
             String.prefix "/System/" ]
  | linux => Some []
  | win32 => Some []
  | otherPlatform => None
  end.

(** [Path.sep]: the backslash (code 92) on win32, the slash elsewhere. *)
Definition Path_sep (p : Platform) : ascii :=
  match p with
  | win32 => ascii_of_nat 92
  | _ => "/"%char
  end.

(** [s.split(sep)] for a one-character separator. *)
Fixpoint split (sep : ascii) (s : string) : list string :=
  match s with
  | EmptyString => [EmptyString]
  | String c s' =>
      if decide (c = sep) then EmptyString :: split sep s'
      else match split sep s' with
           | [] => [String c EmptyString]
           | h :: t => String c h :: t
           end
  end.

(** [a.pop()!] *)
Definition pop (a : list string) : string := List.last a EmptyString.

(** [String(x)]: the decimal digits of a number, never empty, and a string
    itself. *)
Definition String_ (x : Js.NumberOrString) : string :=
  match x with
  | Js.Number n => DecimalString.NilZero.string_of_int (Z.to_int n)
  | Js.Str s => s
  end.

(** [a.map(f)] for a callback that may throw. *)
Fixpoint mapM {A B} (f : A -> Js.result B) (l : list A)
  : Js.result (list B) :=
  match l with
  | [] => mret []
  | x :: l' => y ← f x; r ← mapM f l'; mret (y :: r)
  end.

(** [a.filter(p)] for a callback that may throw. *)
Fixpoint filterM {A} (p : A -> Js.result bool) (l : list A)
  : Js.result (list A) :=
  match l with
  | [] => mret []
  | x :: l' =>
      b ← p x;
      r ← filterM p l';
      mret (if b : bool then x :: r else r)
  end.

(** [s.toUpperCase()] for [s : string | undefined]. *)
Definition toUpperCase_ `{Host} (s : option string) : Js.result string :=
  match s with
  | Some x => Js.Ok (toUpperCase x)
  | None => Js.Throw Js.TypeError
  end.

(** ** [sortFilesystems] ([src/Mountie.ts], lines 265-286) *)

Definition compareFilesystems `{Host} (a b : FileSystem) : Js.result Z :=
  match platform with
  | darwin =>
      let aLabel :=
        if decide (label a = EmptyString) then "Untitled" else label a in
      let bLabel :=
        if decide (label b = EmptyString) then "Untitled" else label b in
      mret (localeCompare (toUpperCase aLabel) (toUpperCase bLabel))
  | _ =>
      let aStr := if mounted a then mountpoint a else Some (device a) in
      let bStr := if mounted b then mountpoint b else Some (device b) in
      aUp ← toUpperCase_ aStr;
      bUp ← toUpperCase_ bStr;
      mret (localeCompare aUp bUp)
  end.

Definition sortFilesystems `{Host} (filesystems : list FileSystem)
  : Js.result (list FileSystem) :=
  if negb SORT then mret filesystems
  else sortWith compareFilesystems filesystems.

(** ** [getNewState] ([src/Mountie.ts], lines 230-263)

    [devices] and [filesystems] are what [SystemInformation.blockDevices()]
    and [SystemInformation.fsSize()] resolved to. *)

Definition deviceMapOf (devices : list SystemInformation.BlockDevicesData)
  : JsObject.t SystemInformation.BlockDevicesData :=
  fold_left (fun R dev => JsObject.set R (SystemInformation.name dev) dev)
            devices JsObject.empty.

(** The first filter: no ignored-mountpoint expression of the platform
    matches.  The table has no entry for a platform other than the three
    listed, and [undefined.every] throws. *)
Definition notIgnored `{Host} (fs : SystemInformation.FsSizeData)
  : Js.result bool :=
  match IGNORED_MOUNT_POINTS_REGEX platform with
  | Some regExs =>
      mret (forallb (fun regEx : RegExp =>
                       Bool.eqb (regEx (SystemInformation.mount fs)) false)
                    regExs)
  | None => Js.Throw Js.TypeError
  end.

(** The second filter: [String(fs.size)] is not the empty string
    (line 240). *)
Definition hasSize (fs : SystemInformation.FsSizeData) : bool :=
  negb (bool_decide (String_ (SystemInformation.size fs) = EmptyString)).

(** The third filter.  A device name that [deviceMap] only inherits is
    not [undefined], and the member it names has no [protocol]. *)
Definition notDiskImage
  (deviceMap : JsObject.t SystemInformation.BlockDevicesData)
  (fs : SystemInformation.FsSizeData) : bool :=
  match JsObject.member deviceMap (SystemInformation.fs fs) with
  | JsObject.Undefined => true
  | JsObject.Own dev =>
      negb (bool_decide (SystemInformation.protocol dev = "Disk Image"))
  | JsObject.Inherited => true
  end.

(** The callback of the [map] at lines 244-259.  A listed device is an
    object, hence truthy.  A device name that [deviceMap] only inherits is
    truthy too, and the member it names has no [uuid]:
    [deviceMap[filesystem.fs].uuid.toLowerCase()] throws. *)
Definition toFileSystem `{Host}
  (deviceMap : JsObject.t SystemInformation.BlockDevicesData)
  (filesystem : SystemInformation.FsSizeData) : Js.result FileSystem :=
  match JsObject.member deviceMap (SystemInformation.fs filesystem) with
  | JsObject.Own d =>
      mret {| device := SystemInformation.fs filesystem;
              label := SystemInformation.label d;
              filesystem := SystemInformation.type filesystem;
              model := None;
              mountpoint := Some (SystemInformation.mount filesystem);
              mounted := true;
              protocol := SystemInformation.protocol d;
              serial := if decide (SystemInformation.serial d = EmptyString)
                        then None
                        else Some (SystemInformation.serial d);
              size := {| available := SystemInformation.available filesystem;
                         total := SystemInformation.size filesystem;
                         used := SystemInformation.used filesystem |};
              uuid := toLowerCase (SystemInformation.uuid d) |}
  | JsObject.Undefined =>
      mret {| device := SystemInformation.fs filesystem;
              label := pop (split (Path_sep platform)
                                  (SystemInformation.fs filesystem));
              filesystem := "SMB";
              model := None;
              mountpoint := Some (SystemInformation.mount filesystem);
              mounted := true;
              protocol := "SMB";
              serial := None;
              size := {| available := SystemInformation.available filesystem;
                         total := SystemInformation.size filesystem;
                         used := SystemInformation.used filesystem |};
              uuid := v5 (SystemInformation.fs filesystem) UUID_NAMESPACE |}
  | JsObject.Inherited => Js.Throw Js.TypeError
  end.

Definition filteredFileSystems `{Host}
  (devices : list SystemInformation.BlockDevicesData)
  (filesystems : list SystemInformation.FsSizeData)
  : Js.result (list SystemInformation.FsSizeData) :=
  let deviceMap := deviceMapOf devices in
  kept ← filterM notIgnored filesystems;
  mret (List.filter (notDiskImage deviceMap) (List.filter hasSize kept)).

Definition unsortedState `{Host}
  (devices : list SystemInformation.BlockDevicesData)
  (filesystems : list SystemInformation.FsSizeData)
  : Js.result (list FileSystem) :=
  kept ← filteredFileSystems devices filesystems;
  mapM (toFileSystem (deviceMapOf devices)) kept.

Definition getNewState `{Host}
  (devices : list SystemInformation.BlockDevicesData)
  (filesystems : list SystemInformation.FsSizeData)
  : Js.result (list FileSystem) :=
  unsorted ← unsortedState devices filesystems;
  sortFilesystems unsorted.

(** What the three filters are there for, said of the data: no
    ignored-mountpoint expression [regExs] of the platform matches the
    mountpoint, the size is not the empty string, and [blockDevices()] does
    not list the device as a disk image. *)
Definition passesFilters (regExs : list RegExp)
  (devices : list SystemInformation.BlockDevicesData)
  (fs : SystemInformation.FsSizeData) : bool :=
  forallb (fun regEx : RegExp => negb (regEx (SystemInformation.mount fs)))
          regExs
  && negb (bool_decide (SystemInformation.size fs = Js.Str EmptyString))
  && match last (List.filter
                   (fun dev => bool_decide (SystemInformation.name dev
                                            = SystemInformation.fs fs))
                   devices) with
     | Some dev =>
         negb (bool_decide (SystemInformation.protocol dev = "Disk Image"))
     | None => true
     end.

(** [blockDevices()] does not list the device of the filesystem, and the
    name of the device is one that every object inherits. *)
Definition inheritsDevice (devices : list SystemInformation.BlockDevicesData)
  (fs : SystemInformation.FsSizeData) : bool :=
  bool_decide (SystemInformation.fs fs ∈ JsObject.objectPrototypeNames)
  && negb (existsb (fun dev => bool_decide (SystemInformation.name dev
                                            = SystemInformation.fs fs))
                   devices).

(** The entry is the one of the filesystem: its device, its mountpoint
    and its size, mounted. *)
Definition entryFor (raw : SystemInformation.FsSizeData)
  (entry : FileSystem) : Prop :=
  device entry = SystemInformation.fs raw
  /\ mountpoint entry = Some (SystemInformation.mount raw)
  /\ mounted entry = true
  /\ size entry = {| available := SystemInformation.available raw;
                     total := SystemInformation.size raw;
                     used := SystemInformation.used raw |}.

(** ** Paths ([Path.dirname], [Path.basename])

    A path is an absolute POSIX path, held as the list of its segments
    below the root: [/a/b] is [["a"; "b"]] and the root, whose parent is
    itself, is [[]]. *)

Module Path.

Definition t : Type := list string.

Definition dirname (p : t) : t := removelast p.

Definition basename (p : t) : string := List.last p EmptyString.

Definition parse (s : string) : t :=
  List.filter (fun seg => negb (bool_decide (seg = EmptyString)))
              (split "/"%char s).

End Path.

(** ** [FolderDeletionWatcher] ([src/FolderDeletionWatcher.ts])

    [METHOD] is the constant [METHODS.PARENT], so [start] always takes the
    [#startParent] branch.  The state below is the life of one watcher from
    its construction: the constructor calls [start], which creates the abort
    controller and suspends at [await isDirectory]; the answer arrives as the
    input [DirChecked]. *)

Module FolderDeletionWatcher.

(** One [FS.watch] handle: the directory watched, the child name its
    listener compares with, whether its [cleanup] was registered on an abort
    signal (the signal is [undefined] when the watcher was stopped before the
    chain was built), and whether it has been closed. *)
Record FSWatcher : Type := mkFSWatcher {
  dir : Path.t;
  filename : string;
  signal : bool;
  closed : bool;
}.

Record t : Type := mk {
  path : option string;
  (** [#abortController !== undefined] *)
  abortController : bool;
  (** [start] is suspended at [await isDirectory] *)
  checking : bool;
  watchers : list FSWatcher;
  (** the shared context: [None] before it is created, then whether its
      promise is settled *)
  sharedContext : option bool;
  (** how many times [#callback] has been invoked *)
  callbackCalls : nat;
}.

(** A native notification: [onEvent(event, affectedFile)] on the watch of
    directory [at_]. *)
Record Notification : Type := mkNotification {
  at_ : Path.t;
  event : string;
  affectedFile : string;
}.

Inductive Input : Type :=
| DirChecked (isDir : bool)
| Notify (n : Notification)
| Stop.

(** The constructor, up to the first suspension of [start]. *)
Definition new (path : option string) : t :=
  {| path := path; abortController := true; checking := true;
     watchers := []; sharedContext := None; callbackCalls := 0%nat |}.

Definition close (x : FSWatcher) : FSWatcher :=
  {| dir := dir x; filename := filename x; signal := false; closed := true |}.

(** [stop]: [abort] runs every registered [cleanup]. *)
Definition stop (w : t) : t :=
  if abortController w then
    {| path := path w; abortController := false; checking := checking w;
       watchers := map (fun x => if signal x then close x else x) (watchers w);
       sharedContext := sharedContext w; callbackCalls := callbackCalls w |}
  else w.

(** The watches that [#startParent(path, ...)] sets up, the outermost level
    first (the recursive call comes before [FS.watch]).  The recursion ends
    at the root; [fuel] bounds it. *)
Fixpoint startParentFrom (fuel : nat) (path : Path.t) (signal : bool)
  : list FSWatcher :=
  match fuel with
  | O => []
  | S fuel' =>
      let parentPath := Path.dirname path in
      let filename := Path.basename path in
      if decide (path = parentPath) then []
      else startParentFrom fuel' parentPath signal
             ++ [mkFSWatcher parentPath filename signal false]
  end.

Definition chain (path : Path.t) (signal : bool) : list FSWatcher :=
  startParentFrom (S (List.length path)) path signal.

(** The top-level call [#startParent(this.#path, this.#callback)]. *)
Definition startParent (p : Path.t) (w : t) : t :=
  if decide (p = Path.dirname p) then w
  else
    {| path := path w; abortController := abortController w;
       checking := checking w;
       watchers := watchers w ++ chain p (abortController w);
       sharedContext := Some false; callbackCalls := callbackCalls w |}.

(** [start], resumed with the answer of [isDirectory]. *)
Definition dirChecked (isDir : bool) (w : t) : t :=
  if checking w then
    let w' := {| path := path w; abortController := abortController w;
                 checking := false; watchers := watchers w;
                 sharedContext := sharedContext w;
                 callbackCalls := callbackCalls w |} in
    match isDir, path w with
    | true, Some p => startParent (Path.parse p) w'
    | _, _ => stop w'
    end
  else w.

(** The listener of one watch fires [sharedContext.resolve()]. *)
Definition listenerResolves (n : Notification) (x : FSWatcher) : bool :=
  negb (closed x) && bool_decide (dir x = at_ n)
  && bool_decide (event n = "rename")
  && bool_decide (affectedFile n = filename x).

(** [sharedContext.resolve()] followed by the reaction registered with
    [then], which runs before any other notification is delivered:
    [this.stop(); callback()].  Resolving a settled promise does nothing. *)
Definition resolve (w : t) : t :=
  match sharedContext w with
  | Some false =>
      let w' := stop {| path := path w; abortController := abortController w;
                        checking := checking w; watchers := watchers w;
                        sharedContext := Some true;
                        callbackCalls := callbackCalls w |} in
      {| path := path w'; abortController := abortController w';
         checking := checking w'; watchers := watchers w';
         sharedContext := sharedContext w';
         callbackCalls := S (callbackCalls w') |}
  | _ => w
  end.

Definition notify (n : Notification) (w : t) : t :=
  if existsb (listenerResolves n) (watchers w) then resolve w else w.

Definition step (w : t) (i : Input) : t :=
  match i with
  | DirChecked isDir => dirChecked isDir w
  | Notify n => notify n w
  | Stop => stop w
  end.

Definition run (w : t) (inputs : list Input) : t := fold_left step inputs w.

(** A watcher whose [start] found the directory. *)
Definition started (p : string) : t := step (new (Some p)) (DirChecked true).

(** Some ancestor level of [p] reports a rename of the child it watches. *)
Definition reports (p : string) (n : Notification) : bool :=
  existsb (listenerResolves n) (chain (Path.parse p) true).

End FolderDeletionWatcher.

(** In the words of the specification, and without reference to the watches
    that the code sets up: the notification is a rename (or removal)
    reported by an ancestor directory of the path [p], the directory made
    of the first [i] segments of [p], for the child name that leads on to
    [p], its segment [i]; the immediate parent of [p] is the last such
    level. *)
Definition ancestorReports (p : Path.t)
  (n : FolderDeletionWatcher.Notification) : bool :=
  bool_decide (FolderDeletionWatcher.event n = "rename")
  && existsb (fun i => bool_decide (FolderDeletionWatcher.at_ n = take i p)
                       && bool_decide
                            (p !! i
                             = Some (FolderDeletionWatcher.affectedFile n)))
             (seq 0 (List.length p)).

(** The state a watcher is left in when [start] finds no directory. *)
Definition neverStarted (p : option string) : FolderDeletionWatcher.t :=
  {| FolderDeletionWatcher.path := p;
     FolderDeletionWatcher.abortController := false;
     FolderDeletionWatcher.checking := false;
     FolderDeletionWatcher.watchers := [];
     FolderDeletionWatcher.sharedContext := None;
     FolderDeletionWatcher.callbackCalls := 0%nat |}.

(** A watcher on which [stop] was called while its [start] was still
    waiting for the directory check, which then answered that the directory
    exists. *)
Definition stoppedEarly (p : string) : FolderDeletionWatcher.t :=
  FolderDeletionWatcher.run (FolderDeletionWatcher.new (Some p))
    [FolderDeletionWatcher.Stop; FolderDeletionWatcher.DirChecked true].

(** ** [sleep] ([src/Functions.ts])

    The promise of one [sleep(ms, signal)] call: the timer armed with
    [setTimeout(resolve, ms)], the [abort] listener when a signal was given,
    and whether the promise is resolved. *)

Module Functions.

Record Sleep : Type := mkSleep {
  ms : Z;
  (** time since the call *)
  waited : Z;
  (** the timeout is armed *)
  timeout : bool;
  (** [onAbort] is registered on the signal *)
  listening : bool;
  resolved : bool;
}.

Inductive Input : Type :=
| Elapse (dt : Z)
| Abort.

Definition sleep (ms : Z) (signal : bool) : Sleep :=
  {| ms := ms; waited := 0; timeout := true; listening := signal;
     resolved := false |}.

(** The delay that [setTimeout(callback, ms)] arms the timer with: Node
    sets a delay below 1 or above 2147483647 to 1. *)
Definition timerDelay (ms : Z) : Z :=
  if (ms <? 1) || (2147483647 <? ms) then 1 else ms.

(** The timer fires once its delay has passed: [resolve()], and the
    reaction registered with [then] removes the [abort] listener. *)
Definition elapse (dt : Z) (s : Sleep) : Sleep :=
  let waited' := waited s + dt in
  if timeout s && (timerDelay (ms s) <=? waited') then
    {| ms := ms s; waited := waited'; timeout := false; listening := false;
       resolved := true |}
  else
    {| ms := ms s; waited := waited'; timeout := timeout s;
       listening := listening s; resolved := resolved s |}.

(** [onAbort]: [clearTimeout(timeout); resolve()]. *)
Definition onAbort (s : Sleep) : Sleep :=
  if listening s then
    {| ms := ms s; waited := waited s; timeout := false; listening := false;
       resolved := true |}
  else s.

Definition step (s : Sleep) (i : Input) : Sleep :=
  match i with
  | Elapse dt => elapse dt s
  | Abort => onAbort s
  end.

End Functions.

(** The promise of a [sleep] call after a series of inputs. *)
Definition sleepRun (s : Functions.Sleep) (inputs : list Functions.Input)
  : Functions.Sleep :=
  fold_left Functions.step inputs s.

Definition isAbort (i : Functions.Input) : bool :=
  match i with Functions.Abort => true | Functions.Elapse _ => false end.

(** The time that passes during the inputs. *)
Definition elapsed (inputs : list Functions.Input) : Z :=
  fold_right (fun i acc => match i with
                           | Functions.Elapse dt => dt + acc
                           | Functions.Abort => acc
                           end) 0 inputs.

(** ** The state differ (the body of [#monitor], lines 96-117)

    The mount pass starts one asynchronous callback per entry of the new
    snapshot.  Each callback reads [#filesystemMap] at once and pushes its
    event when its own [isDirectory] answer arrives, so the mount events are
    in the order in which the answers arrive: [completion] lists the entries
    of the snapshot in that order.  The loop over [this.state] runs when all
    answers are in; no watcher callback is taken to run in between, so both
    passes see the same map. *)

(** [newState.reduce((R, fs) => ({...R, [fs.uuid]: fs}), {})] *)
Definition uuidFilesystemMapOf (newState : list FileSystem)
  : JsObject.t FileSystem :=
  fold_left (fun R fs => JsObject.set R (uuid fs) fs) newState JsObject.empty.

(** One callback of the mount pass. *)
Definition mountCallback (disk : string -> bool)
  (filesystemMap : JsObject.t FileSystem) (filesystem : FileSystem)
  : list FileSystemEvent :=
  let path := mountpoint filesystem in
  let oldFilesystem := JsObject.get filesystemMap (Js.propKey path) in
  if isDirectory disk path && bool_decide (oldFilesystem = None)
  then [Mount filesystem] else [].

Definition mountPass (disk : string -> bool)
  (filesystemMap : JsObject.t FileSystem) (completion : list FileSystem)
  : list FileSystemEvent :=
  flat_map (mountCallback disk filesystemMap) completion.

(** One turn of the loop over [this.state]. *)
Definition unmountRenameStep (uuidFilesystemMap : JsObject.t FileSystem)
  (oldFilesystem : FileSystem) : list FileSystemEvent :=
  match JsObject.get uuidFilesystemMap (uuid oldFilesystem) with
  | None => [Unmount oldFilesystem]
  | Some filesystem =>
      if decide (label filesystem = label oldFilesystem) then []
      else [Rename filesystem oldFilesystem]
  end.

Definition unmountRenamePass (newState state : list FileSystem)
  : list FileSystemEvent :=
  flat_map (unmountRenameStep (uuidFilesystemMapOf newState)) state.

(** [get state()] *)
Definition stateOf `{Host} (filesystemMap : JsObject.t FileSystem)
  : Js.result (list FileSystem) :=
  sortFilesystems (JsObject.values filesystemMap).

(** The events of one cycle. *)
Definition diff `{Host} (disk : string -> bool)
  (filesystemMap : JsObject.t FileSystem)
  (newState completion : list FileSystem)
  : Js.result (list FileSystemEvent) :=
  let mounts := mountPass disk filesystemMap completion in
  state ← stateOf filesystemMap;
  mret (mounts ++ unmountRenamePass newState state).

(** The entries of a snapshot that carry the uuid [u]. *)
Definition withUuid (u : string) (newState : list FileSystem)
  : list FileSystem :=
  List.filter (fun fs => bool_decide (uuid fs = u)) newState.

(** The mount directory of the entry exists. *)
Definition directoryExists (disk : string -> bool) (fs : FileSystem) : bool :=
  isDirectory disk (mountpoint fs).

(** ** The delay between two cycles (lines 127-132)

    [sleepDuration] is computed and not used: the loop sleeps
    [INTERVAL_LENGTH]. *)

Definition sleepDuration (startTime endTime : Z) : Z :=
  Z.max (INTERVAL_LENGTH / 2) (INTERVAL_LENGTH - (endTime - startTime)).

Definition monitorSleep (running : bool) (startTime endTime : Z)
  : option Functions.Sleep :=
  if running then
    let sleepDuration := sleepDuration startTime endTime in
    Some (Functions.sleep INTERVAL_LENGTH true)
  else None.

(** ** [filesystem(path)] (lines 169-183) *)

Definition filesystemStep (path : string) (R : option FileSystem)
  (fs : FileSystem) : Js.result (option FileSystem) :=
  if mounted fs then
    longer ← match R with
             | None => mret true
             | Some r =>
                 n ← Js.length (mountpoint fs);
                 m ← Js.length (mountpoint r);
                 mret (m <? n)
             end;
    if (longer : bool) && Js.startsWith path (mountpoint fs)
    then mret (Some fs) else mret R
  else mret R.

Fixpoint reduce {A B} (f : B -> A -> Js.result B) (l : list A) (init : B)
  : Js.result B :=
  match l with
  | [] => mret init
  | x :: l' => R ← f init x; reduce f l' R
  end.

Definition filesystemIn (state : list FileSystem) (path : string)
  : Js.result (option FileSystem) :=
  reduce (filesystemStep path) state None.

(** ** The monitor ([class Mountie]) and the module-level registry

    One [Mountie] instance together with what it shares with the rest of the
    module and of the process: the registry [deletionWatchers], the watcher
    objects the registry refers to (a heap: replacing a registry entry does
    not stop the watcher it referred to), the promises handed out by
    [nextRefresh] and the buffers of the event iterables.

    The event iterable of the [event-iterable] package is taken to buffer
    every event of its type emitted after its construction and to yield
    them in emission order. *)

Inductive Listener : Type :=
| OnMount
| OnRename
| OnUnmount
| OnceResolve (promise : nat)
| EventIterable (queue : nat).

#[global] Instance Listener_eq_dec : EqDecision Listener.
Proof. solve_decision. Defined.

Record World : Type := mkWorld {
  (** [#abortController] *)
  abortController : option unit;
  (** [#filesystemMap] *)
  filesystemMap : JsObject.t FileSystem;
  (** the listeners of the emitter, by event name, in registration order *)
  listeners : list (string * Listener);
  (** [deletionWatchers]: path to a reference into [heap] *)
  deletionWatchers : JsObject.t nat;
  heap : list FolderDeletionWatcher.t;
  (** the promises returned by [nextRefresh]: resolved or not *)
  promises : list bool;
  (** the buffers of the event iterables *)
  queues : list (list FileSystemEvent);
}.

Definition initial : World :=
  {| abortController := None; filesystemMap := JsObject.empty;
     listeners := []; deletionWatchers := JsObject.empty; heap := [];
     promises := []; queues := [] |}.

(** [get running()] *)
Definition running (w : World) : bool :=
  match abortController w with Some _ => true | None => false end.

(** [get state()] *)
Definition state `{Host} (w : World) : Js.result (list FileSystem) :=
  stateOf (filesystemMap w).

(** [filesystem(path)] *)
Definition filesystemAt `{Host} (w : World) (path : string)
  : Js.result (option FileSystem) :=
  st ← state w; filesystemIn st path.

(** [isMounted(path)] *)
Definition isMounted `{Host} (w : World) (path : string) : Js.result bool :=
  st ← state w;
  mret (existsb (fun drive => bool_decide (mountpoint drive = Some path)) st).

Definition eventFilesystem (e : FileSystemEvent) : FileSystem :=
  match e with
  | Mount fs => fs
  | Rename fs _ => fs
  | Unmount fs => fs
  end.

Definition typeName (e : FileSystemEvent) : string :=
  match e with
  | Mount _ => "mount"
  | Rename _ _ => "rename"
  | Unmount _ => "unmount"
  end.

(** [#onMount] (lines 136-148) *)
Definition onMount (event : FileSystemEvent) (w : World) : World :=
  let path := Js.propKey (mountpoint (eventFilesystem event)) in
  {| abortController := abortController w;
     filesystemMap :=
       JsObject.set (filesystemMap w) path (eventFilesystem event);
     listeners := listeners w;
     deletionWatchers :=
       JsObject.set (deletionWatchers w) path (List.length (heap w));
     heap := heap w
             ++ [FolderDeletionWatcher.new
                   (mountpoint (eventFilesystem event))];
     promises := promises w;
     queues := queues w |}.

(** [#onUnmount] (lines 159-164): [deletionWatchers[path].stop()] throws when
    the registry has no entry for the path. *)
Definition onUnmount (event : FileSystemEvent) (w : World) : Js.result World :=
  let path := Js.propKey (mountpoint (eventFilesystem event)) in
  match JsObject.get (deletionWatchers w) path with
  | None => Js.Throw Js.TypeError
  | Some ref =>
      mret {| abortController := abortController w;
              filesystemMap := JsObject.delete (filesystemMap w) path;
              listeners := listeners w;
              deletionWatchers := JsObject.delete (deletionWatchers w) path;
              heap := alter FolderDeletionWatcher.stop ref (heap w);
              promises := promises w;
              queues := queues w |}
  end.

(** [#onRename] (lines 150-157) *)
Definition onRename (event : FileSystemEvent) (w : World) : Js.result World :=
  match event with
  | Rename filesystem oldFilesystem =>
      w1 ← (if mounted oldFilesystem then onUnmount (Unmount oldFilesystem) w
            else mret w);
      mret (if mounted filesystem then onMount (Mount filesystem) w1 else w1)
  | _ => Js.Throw Js.TypeError
  end.

(** [removeListener(name, l)]: the most recently added instance goes. *)
Fixpoint removeLast (name : string) (l : Listener)
  (ls : list (string * Listener)) : list (string * Listener) :=
  match ls with
  | [] => []
  | x :: ls' =>
      if bool_decide ((name, l) ∈ ls') then x :: removeLast name l ls'
      else if decide (x = (name, l)) then ls'
      else x :: ls'
  end.

(** One listener called by [emit]. *)
Definition callListener (name : string) (l : Listener)
  (arg : option FileSystemEvent) (w : World) : Js.result World :=
  match l, arg with
  | OnMount, Some e => mret (onMount e w)
  | OnRename, Some e => onRename e w
  | OnUnmount, Some e => onUnmount e w
  | OnceResolve p, _ =>
      mret {| abortController := abortController w;
              filesystemMap := filesystemMap w;
              listeners := removeLast name (OnceResolve p) (listeners w);
              deletionWatchers := deletionWatchers w;
              heap := heap w;
              promises := <[p := true]> (promises w);
              queues := queues w |}
  | EventIterable q, Some e =>
      mret {| abortController := abortController w;
              filesystemMap := filesystemMap w;
              listeners := listeners w;
              deletionWatchers := deletionWatchers w;
              heap := heap w;
              promises := promises w;
              queues := alter (fun buf => buf ++ [e]) q (queues w) |}
  | _, None => Js.Throw Js.TypeError
  end.

(** [emit(name, arg)]: the listeners registered for [name] when [emit] is
    called, in registration order; a listener that throws ends the call. *)
Fixpoint callAll (name : string) (ls : list Listener)
  (arg : option FileSystemEvent) (w : World) : Js.result World :=
  match ls with
  | [] => mret w
  | l :: ls' => w' ← callListener name l arg w; callAll name ls' arg w'
  end.

Definition listenersIn (name : string) (ls : list (string * Listener))
  : list Listener :=
  map snd (List.filter (fun x => bool_decide (fst x = name)) ls).

Definition listenersOf (name : string) (w : World) : list Listener :=
  listenersIn name (listeners w).

Definition emit (name : string) (arg : option FileSystemEvent) (w : World)
  : Js.result World :=
  callAll name (listenersOf name w) arg w.

(** [on(name, l)] *)
Definition on (name : string) (l : Listener) (w : World) : World :=
  {| abortController := abortController w;
     filesystemMap := filesystemMap w;
     listeners := listeners w ++ [(name, l)];
     deletionWatchers := deletionWatchers w;
     heap := heap w; promises := promises w; queues := queues w |}.

Definition removeListener (name : string) (l : Listener) (w : World) : World :=
  {| abortController := abortController w;
     filesystemMap := filesystemMap w;
     listeners := removeLast name l (listeners w);
     deletionWatchers := deletionWatchers w;
     heap := heap w; promises := promises w; queues := queues w |}.

(** What an [async] method hands back to its caller. *)
Inductive PromiseState : Type :=
| Pending (promise : nat)
| Fulfilled
| Rejected (e : Js.Error).

(** [nextRefresh] (lines 189-195) *)
Definition nextRefresh (w : World) : World * PromiseState :=
  if running w then
    let p := List.length (promises w) in
    ({| abortController := abortController w;
        filesystemMap := filesystemMap w;
        listeners := listeners w ++ [("refresh", OnceResolve p)];
        deletionWatchers := deletionWatchers w;
        heap := heap w;
        promises := promises w ++ [false];
        queues := queues w |},
     Pending p)
  else (w, Rejected (Js.ErrorMsg "Mountie is not running")).

(** [start] (lines 197-208).  [#monitor()] runs up to its first
    [await getNewState()]; its cycles are the later [monitorCycle]s. *)
Definition start (w : World) : World * PromiseState :=
  if running w then (w, Fulfilled)
  else
    let w1 := on "unmount" OnUnmount
                (on "rename" OnRename (on "mount" OnMount w)) in
    nextRefresh
      {| abortController := Some tt;
         filesystemMap := JsObject.empty;
         listeners := listeners w1;
         deletionWatchers := deletionWatchers w1;
         heap := heap w1; promises := promises w1; queues := queues w1 |}.

(** [stop] (lines 210-218) *)
Definition stop (w : World) : World :=
  if running w then
    let w1 := removeListener "unmount" OnUnmount
                (removeListener "rename" OnRename
                   (removeListener "mount" OnMount w)) in
    {| abortController := None;
       filesystemMap := filesystemMap w1;
       listeners := listeners w1;
       deletionWatchers := deletionWatchers w1;
       heap := heap w1; promises := promises w1; queues := queues w1 |}
  else w.

(** The body of [events.forEach] (lines 119-122). *)
Definition emitEvent (w : World) (event : FileSystemEvent) : Js.result World :=
  w1 ← emit (typeName event) (Some event) w;
  emit "all" (Some event) w1.

(** One turn of the loop of [#monitor] after [getNewState] has answered
    [newState] (lines 95-125), when nothing else happens to the monitor
    while the turn waits for its directory answers: the turn then runs as
    one step.  A turn that is interrupted there is [cycleFinish] below. *)
Definition monitorCycle `{Host} (disk : string -> bool)
  (newState completion : list FileSystem) (w : World) : Js.result World :=
  if running w then
    events ← diff disk (filesystemMap w) newState completion;
    w1 ← reduce emitEvent events w;
    w2 ← emit "changed" None w1;
    emit "refresh" None w2
  else mret w.

(** The end of a turn whose [await Promise.all] was interrupted.  The test
    of [this.running] (line 95) and the reads of [#filesystemMap] by the
    callbacks of the mount pass (line 102) come before the await: [seen] is
    the map that the callbacks read.  What follows the await runs once the
    directory answers are in, on the monitor as it is by then and without
    another test of [this.running]: the loop over [this.state], then the
    emission of the events, of ["changed"] and of ["refresh"]
    (lines 110-124). *)
Definition cycleFinish `{Host} (disk : string -> bool)
  (seen : JsObject.t FileSystem) (newState completion : list FileSystem)
  (w : World) : Js.result World :=
  st ← state w;
  w1 ← reduce emitEvent
         (mountPass disk seen completion ++ unmountRenamePass newState st) w;
  w2 ← emit "changed" None w1;
  emit "refresh" None w2.

(** The callback given to the watcher of [path] in [#onMount]
    (lines 139-147). *)
Definition watcherCallback (path : string) (w : World) : Js.result World :=
  match JsObject.get (filesystemMap w) path with
  | Some filesystem =>
      let event := Unmount filesystem in
      w1 ← emit "unmount" (Some event) w;
      w2 ← emit "all" (Some event) w1;
      emit "changed" None w2
  | None => mret w
  end.

(** An input to the watcher object at [ref]; when it makes the watcher
    invoke its callback, the callback runs. *)
Definition watcherInput (ref : nat) (i : FolderDeletionWatcher.Input)
  (w : World) : Js.result World :=
  match heap w !! ref with
  | None => mret w
  | Some fdw =>
      let fdw' := FolderDeletionWatcher.step fdw i in
      let w' := {| abortController := abortController w;
                   filesystemMap := filesystemMap w;
                   listeners := listeners w;
                   deletionWatchers := deletionWatchers w;
                   heap := <[ref := fdw']> (heap w);
                   promises := promises w; queues := queues w |} in
      if (FolderDeletionWatcher.callbackCalls fdw
          <? FolderDeletionWatcher.callbackCalls fdw')%nat
      then watcherCallback (Js.propKey (FolderDeletionWatcher.path fdw)) w'
      else mret w'
  end.

(** What can happen to the monitor. *)
Inductive Action : Type :=
| Start
| StopMonitor
| NextRefresh
| Cycle (disk : string -> bool) (newState completion : list FileSystem)
| Watcher (ref : nat) (i : FolderDeletionWatcher.Input).

Definition act `{Host} (w : World) (a : Action) : Js.result World :=
  match a with
  | Start => mret (fst (start w))
  | StopMonitor => mret (stop w)
  | NextRefresh => mret (fst (nextRefresh w))
  | Cycle disk newState completion => monitorCycle disk newState completion w
  | Watcher ref i => watcherInput ref i w
  end.

Definition runActions `{Host} (w : World) (actions : list Action)
  : Js.result World :=
  reduce act actions w.

(** What can happen to a monitor between [stop] and the next [start]: an
    action, and the end of a turn of the loop that was waiting for its
    directory answers when [stop] was called.  (A turn that was waiting for
    [getNewState] then is a [Cycle]: it finds the monitor stopped at
    line 95.) *)
Inductive StoppedInput : Type :=
| Plain (a : Action)
| InFlight (disk : string -> bool) (seen : JsObject.t FileSystem)
           (newState completion : list FileSystem).

Definition actStopped `{Host} (w : World) (i : StoppedInput)
  : Js.result World :=
  match i with
  | Plain a => act w a
  | InFlight disk seen newState completion =>
      cycleFinish disk seen newState completion w
  end.

(** ** The asynchronous event stream (lines 76-87)

    The generator is [Fresh] until its first [next]; it then replays the
    array that [this.state] returned at that moment, and once the replay is
    exhausted it attaches an event iterable to ["all"] and yields from its
    buffer. *)

Inductive AsyncIterator : Type :=
| Fresh
| Replaying (rest : list FileSystem)
| Live (queue : nat).

(** The outcome of one [next()]: the event yielded, or nothing yet. *)
Definition attachIterable (w : World) : World * nat :=
  let q := List.length (queues w) in
  ({| abortController := abortController w;
      filesystemMap := filesystemMap w;
      listeners := listeners w ++ [("all", EventIterable q)];
      deletionWatchers := deletionWatchers w;
      heap := heap w; promises := promises w;
      queues := queues w ++ [[]] |}, q).

Definition takeLive (q : nat) (w : World)
  : World * AsyncIterator * option FileSystemEvent :=
  match queues w !! q with
  | Some (e :: buf) =>
      ({| abortController := abortController w;
          filesystemMap := filesystemMap w;
          listeners := listeners w;
          deletionWatchers := deletionWatchers w;
          heap := heap w; promises := promises w;
          queues := <[q := buf]> (queues w) |}, Live q, Some e)
  | _ => (w, Live q, None)
  end.

Definition replay (rest : list FileSystem) (w : World)
  : World * AsyncIterator * option FileSystemEvent :=
  match rest with
  | filesystem :: rest' => (w, Replaying rest', Some (Mount filesystem))
  | [] => let '(w', q) := attachIterable w in takeLive q w'
  end.

Definition next `{Host} (it : AsyncIterator) (w : World)
  : Js.result (World * AsyncIterator * option FileSystemEvent) :=
  match it with
  | Fresh => st ← state w; mret (replay st w)
  | Replaying rest => mret (replay rest w)
  | Live q => mret (takeLive q w)
  end.

(** ** [waitForSetup] (lines 220-224)

    One turn of the loop: with an empty state the method suspends at
    [await this.nextRefresh()] (a rejection of that promise rejects
    [waitForSetup]), and when the promise resolves the loop is entered
    again; with an entry in the state the method returns. *)
Definition waitForSetup `{Host} (w : World)
  : Js.result (World * PromiseState) :=
  st ← state w;
  if (List.length st =? 0)%nat then mret (nextRefresh w)
  else mret (w, Fulfilled).

(** ** A concrete host and concrete volumes, for the examples

    [exampleHost] maps case on the ASCII letters, collates by code unit, and
    stands in for the uuid generator with a deterministic function of the
    name and the namespace. *)

Definition asciiUpper (c : ascii) : ascii :=
  let n := nat_of_ascii c in
  if ((97 <=? n) && (n <=? 122))%nat then ascii_of_nat (n - 32) else c.

Definition asciiLower (c : ascii) : ascii :=
  let n := nat_of_ascii c in
  if ((65 <=? n) && (n <=? 90))%nat then ascii_of_nat (n + 32) else c.

Fixpoint mapString (f : ascii -> ascii) (s : string) : string :=
  match s with
  | EmptyString => EmptyString
  | String c s' => String (f c) (mapString f s')
  end.

Definition exampleHost : Host :=
  {| platform := linux;
     toLowerCase := mapString asciiLower;
     toUpperCase := mapString asciiUpper;
     localeCompare := fun a b =>
       match String.compare a b with Lt => -1 | Eq => 0 | Gt => 1 end;
     v5 := fun name namespace =>
       "v5(" +:+ name +:+ "," +:+ namespace +:+ ")" |}.

(** A mounted volume with the given uuid, label and mountpoint. *)
Definition volume (u l m : string) : FileSystem :=
  {| device := "/dev/" +:+ u; label := l; filesystem := "ext4";
     model := None; mountpoint := Some m; mounted := true;
     protocol := "USB"; serial := None;
     size := {| available := 1; total := Js.Number 2; used := 1 |};
     uuid := u |}.

(** Every directory exists. *)
Definition allDirectories : string -> bool := fun _ => true.

(** The map the monitor holds after mounting the listed volumes in turn. *)
Definition mountedMap (l : list FileSystem) : JsObject.t FileSystem :=
  fold_left (fun R fs => JsObject.set R (Js.propKey (mountpoint fs)) fs)
            l JsObject.empty.

Definition volA : FileSystem := volume "u-a" "A" "/mnt/a".
(** another volume at the mountpoint of [volA] *)
Definition volB_at_a : FileSystem := volume "u-b" "B" "/mnt/a".
(** [volA] attached elsewhere, nothing else changed *)
Definition volA_moved : FileSystem := volume "u-a" "A" "/mnt/b".
(** [volA] with another label *)
Definition volA_renamed : FileSystem := volume "u-a" "A2" "/mnt/a".
Definition volB : FileSystem := volume "u-b" "B" "/mnt/b".
Definition volC : FileSystem := volume "u-c" "C" "/mnt/c".

Definition volRoot : FileSystem := volume "u-r" "R" "/a".
Definition volNested : FileSystem := volume "u-n" "N" "/a/b".

(** The events yielded by [n] successive calls of [next()] (a call that
    has nothing to yield yet contributes nothing). *)
Fixpoint nexts `{Host} (n : nat) (it : AsyncIterator) (w : World)
  : Js.result (World * AsyncIterator * list FileSystemEvent) :=
  match n with
  | O => mret (w, it, [])
  | S n' =>
      r ← next it w;
      let '(w1, it1, e) := r in
      r' ← nexts n' it1 w1;
      let '(w2, it2, es) := r' in
      mret (w2, it2, match e with Some x => x :: es | None => es end)
  end.

(** A run with a restart: [volA] is mounted, the monitor is stopped and
    started again, and [volB] is mounted in place of [volA]. *)
Definition restartRun : list Action :=
  [ Start; Cycle allDirectories [volA] [volA]; StopMonitor;
    Start; Cycle allDirectories [volB] [volB] ].

(** A run with one start: two volumes are mounted, the mount directory of
    [volA] is removed, [volA] comes back with another label. *)
Definition singleRun : list Action :=
  [ Start;
    Cycle allDirectories [volA; volB] [volB; volA];
    Watcher 1 (FolderDeletionWatcher.DirChecked true);
    Watcher 1 (FolderDeletionWatcher.Notify
                 (FolderDeletionWatcher.mkNotification ["mnt"] "rename" "a"));
    Cycle allDirectories [volB] [volB];
    NextRefresh;
    Cycle allDirectories [volA_renamed; volB] [volA_renamed; volB];
    StopMonitor ].

(** A listed device that reports an empty uuid (a mapped network drive),
    and the filesystem on it. *)
Definition driveDevice : SystemInformation.BlockDevicesData :=
  {| SystemInformation.name := "Z:";
     SystemInformation.label := "share";
     SystemInformation.protocol := EmptyString;
     SystemInformation.serial := EmptyString;
     SystemInformation.uuid := EmptyString |}.

Definition driveFilesystem : SystemInformation.FsSizeData :=
  {| SystemInformation.fs := "Z:";
     SystemInformation.type := "NTFS";
     SystemInformation.size := Js.Number 1000;
     SystemInformation.used := 400;
     SystemInformation.available := 600;
     SystemInformation.mount := "Z:" |}.

(** The state a run on [exampleHost] ends in. *)
Definition worldAfter (actions : list Action) : World :=
  match runActions (H := exampleHost) initial actions with
  | Js.Ok w => w
  | Js.Throw _ => initial
  end.

(** A run that mounts a volume at [/a] and one at [/a/b]. *)
Definition nestedRun : list Action :=
  [ Start; Cycle allDirectories [volRoot; volNested] [volRoot; volNested] ].

(** A host like [exampleHost] on a platform the tables do not list. *)
Definition unlistedHost : Host :=
  {| platform := otherPlatform;
     toLowerCase := toLowerCase (Host := exampleHost);
     toUpperCase := toUpperCase (Host := exampleHost);
     localeCompare := localeCompare (Host := exampleHost);
     v5 := v5 (Host := exampleHost) |}.

(** The ignored-mountpoint expressions of darwin. *)
Definition darwinIgnored : list RegExp :=
  [ (fun s => bool_decide (s = EmptyString));
    String.prefix "/private/";
    (fun s => bool_decide (s = "/Volumes/Recovery"));
    String.prefix "/System/" ].

(** [exampleHost] on darwin. *)
Definition darwinHost : Host :=
  {| platform := darwin;
     toLowerCase := toLowerCase (Host := exampleHost);
     toUpperCase := toUpperCase (Host := exampleHost);
     localeCompare := localeCompare (Host := exampleHost);
     v5 := v5 (Host := exampleHost) |}.

(** A host that collates by length, and otherwise is [exampleHost]. *)
Definition lengthHost : Host :=
  {| platform := linux;
     toLowerCase := toLowerCase (Host := exampleHost);
     toUpperCase := toUpperCase (Host := exampleHost);
     localeCompare := fun a b =>
       Z.of_nat (String.length a) - Z.of_nat (String.length b);
     v5 := v5 (Host := exampleHost) |}.

(** A mounted disk image and the filesystem on it, the system volume, and a
    network share that [blockDevices()] does not list. *)
Definition imageDevice : SystemInformation.BlockDevicesData :=
  {| SystemInformation.name := "/dev/disk4s1";
     SystemInformation.label := "Installer";
     SystemInformation.protocol := "Disk Image";
     SystemInformation.serial := EmptyString;
     SystemInformation.uuid := "AAAA-01" |}.

Definition imageFilesystem : SystemInformation.FsSizeData :=
  {| SystemInformation.fs := "/dev/disk4s1";
     SystemInformation.type := "HFS";
     SystemInformation.size := Js.Number 500;
     SystemInformation.used := 400;
     SystemInformation.available := 100;
     SystemInformation.mount := "/Volumes/Installer" |}.

Definition systemFilesystem : SystemInformation.FsSizeData :=
  {| SystemInformation.fs := "/dev/disk1s1";
     SystemInformation.type := "APFS";
     SystemInformation.size := Js.Number 9000;
     SystemInformation.used := 4000;
     SystemInformation.available := 5000;
     SystemInformation.mount := "/System/Volumes/Data" |}.

Definition shareFilesystem : SystemInformation.FsSizeData :=
  {| SystemInformation.fs := "//nas/media";
     SystemInformation.type := "smbfs";
     SystemInformation.size := Js.Number 7000;
     SystemInformation.used := 1000;
     SystemInformation.available := 6000;
     SystemInformation.mount := "/Volumes/media" |}.

(** A filesystem whose size is not known, and a filesystem on a device
    that is not listed and is named like a member of every object. *)
Definition unsizedFilesystem : SystemInformation.FsSizeData :=
  {| SystemInformation.fs := "/dev/sdz1";
     SystemInformation.type := "ext4";
     SystemInformation.size := Js.Str EmptyString;
     SystemInformation.used := 0;
     SystemInformation.available := 0;
     SystemInformation.mount := "/mnt/z" |}.

Definition constructorFilesystem : SystemInformation.FsSizeData :=
  {| SystemInformation.fs := "constructor";
     SystemInformation.type := "smbfs";
     SystemInformation.size := Js.Number 7000;
     SystemInformation.used := 1000;
     SystemInformation.available := 6000;
     SystemInformation.mount := "/Volumes/constructor" |}.

(** The entry of [shareFilesystem] on [darwinHost]. *)
Definition shareEntry : FileSystem :=
  {| device := "//nas/media"; label := "media"; filesystem := "SMB";
     model := None; mountpoint := Some "/Volumes/media"; mounted := true;
     protocol := "SMB"; serial := None;
     size := {| available := 6000; total := Js.Number 7000; used := 1000 |};
     uuid := v5 (Host := darwinHost) "//nas/media" UUID_NAMESPACE |}.

(** The state after [singleRun] up to the directory answer of the watcher
    of [/mnt/a]: [volA] and [volB] are mounted and the watcher is armed. *)
Definition twoMounted : World := worldAfter (firstn 3 singleRun).

(** ** Predicates used in the statements *)

(** An entry on which the comparator of [sortFilesystems] and the
    [mountpoint!] of [filesystem(path)] do not throw: a mounted entry has a
    mountpoint.  Every entry built by [getNewState] is such. *)
Definition sortable (fs : FileSystem) : Prop :=
  mounted fs = true -> mountpoint fs <> None.

(** The entry an event of the differ was produced for: the new entry of a
    mount, the old entry of an unmount or a rename. *)
Definition subject (e : FileSystemEvent) : FileSystem :=
  match e with
  | Mount fs => fs
  | Rename _ old => old
  | Unmount old => old
  end.

Definition isMount (e : FileSystemEvent) : bool :=
  match e with Mount _ => true | _ => false end.

(** [fs] is mounted at [s] and [s] is a prefix of [path]. *)
Definition mountedPrefix (path : string) (fs : FileSystem) (s : string)
  : Prop :=
  mounted fs = true /\ mountpoint fs = Some s /\ String.prefix s path = true.

(** [r] is a longest-prefix answer for [path] among the entries [st]. *)
Definition longestPrefixMatch (st : list FileSystem) (path : string)
  (r : option FileSystem) : Prop :=
  match r with
  | Some fs =>
      fs ∈ st
      /\ exists s, mountedPrefix path fs s
                   /\ forall fs' s', fs' ∈ st -> mountedPrefix path fs' s' ->
                                     (String.length s' <= String.length s)%nat
  | None => forall fs' s', fs' ∈ st -> ~ mountedPrefix path fs' s'
  end.

(** The state of a watcher whose chain is up and whose signal is pending. *)
Definition armed (P : Path.t) (w : FolderDeletionWatcher.t) : Prop :=
  FolderDeletionWatcher.abortController w = true
  /\ FolderDeletionWatcher.watchers w = FolderDeletionWatcher.chain P true
  /\ FolderDeletionWatcher.sharedContext w = Some false.

(** The listeners the program itself registers: the three handlers exactly
    while the monitor runs, event iterables on ["all"], the resolvers of
    [nextRefresh] on ["refresh"], nothing on ["changed"]. *)
Definition handlersAttached (w : World) : Prop :=
  listenersOf "mount" w = (if running w then [OnMount] else [])
  /\ listenersOf "rename" w = (if running w then [OnRename] else [])
  /\ listenersOf "unmount" w = (if running w then [OnUnmount] else [])
  /\ listenersOf "changed" w = []
  /\ Forall (fun l => exists q, l = EventIterable q) (listenersOf "all" w)
  /\ Forall (fun l => exists p, l = OnceResolve p) (listenersOf "refresh" w).

(** Every entry of the state map is stored under its own mountpoint. *)
Definition keyed (m : JsObject.t FileSystem) : Prop :=
  forall k v, (k, v) ∈ m -> Js.propKey (mountpoint v) = k.

(** The registry has a watcher for every mountpoint of the state map. *)
Definition registryCovers (w : World) : Prop :=
  NoDup (JsObject.keys (filesystemMap w))
  /\ keyed (filesystemMap w)
  /\ Forall sortable (JsObject.values (filesystemMap w))
  /\ JsObject.keySet (filesystemMap w) ⊆ JsObject.keySet (deletionWatchers w).

Definition consistent (w : World) : Prop :=
  handlersAttached w /\ registryCovers w.

(** The snapshot of a cycle as [getNewState] builds it, and a completion
    order of its directory checks. *)
Definition wellFormedAction (a : Action) : Prop :=
  match a with
  | Cycle _ newState completion =>
      completion ≡ₚ newState /\ Forall sortable newState
  | _ => True
  end.

Definition isStart (a : Action) : bool :=
  match a with Start => true | _ => false end.

(** An input of the time between [stop] and the next [start]: no [start],
    and any end of a turn in flight, whatever map it read and whatever
    snapshot it holds. *)
Definition wellFormedStopped (i : StoppedInput) : Prop :=
  match i with
  | Plain a => wellFormedAction a /\ isStart a = false
  | InFlight _ _ _ _ => True
  end.

(** How many times [start] is called in a run. *)
Definition startsIn (actions : list Action) : nat :=
  List.length (List.filter isStart actions).

(** The registry key an event makes [#onUnmount] look up. *)
Definition eventKey (e : FileSystemEvent) : string :=
  Js.propKey (mountpoint (subject e)).

(** The events still to be applied in a cycle can be applied: the unmounts
    and renames concern distinct mountpoints, each with a watcher in the
    registry, and what gets mounted is sortable. *)
Definition applicable (events : list FileSystemEvent) (w : World) : Prop :=
  NoDup (map eventKey (List.filter (fun e => negb (isMount e)) events))
  /\ (forall e, e ∈ events -> isMount e = false ->
        eventKey e ∈ JsObject.keySet (deletionWatchers w))
  /\ Forall (fun e => sortable (eventFilesystem e)) events.

(** [w'] has the monitor and the registry of [w]: only listeners, heap,
    promises and buffers may differ. *)
Definition sameStore (w w' : World) : Prop :=
  abortController w' = abortController w
  /\ filesystemMap w' = filesystemMap w
  /\ deletionWatchers w' = deletionWatchers w.

(** The state map and the registry have the same keys. *)
Definition sameKeys (w : World) : Prop :=
  JsObject.keySet (filesystemMap w) = JsObject.keySet (deletionWatchers w).

(** A monitor that is stopped while the registry is empty, as before its
    first [start]. *)
Definition unstarted (w : World) : Prop :=
  running w = false /\ deletionWatchers w = JsObject.empty.

(** What may happen between a call of [nextRefresh] and the next poll
    cycle without stopping the monitor: inputs to the watchers and further
    calls of [nextRefresh]. *)
Definition quiet (a : Action) : Prop :=
  match a with
  | NextRefresh | Watcher _ _ => True
  | _ => False
  end.

(** The key under which the state map and the registry hold an entry. *)
Definition mountKey (fs : FileSystem) : string := Js.propKey (mountpoint fs).

(** A state of the monitor and the registry that some run of a single
    instance ends in. *)
Definition reachable `{Host} (w : World) : Prop :=
  exists actions,
    Forall wellFormedAction actions /\ runActions initial actions = Js.Ok w.

(** Every promise that is still pending has its resolver registered on
    ["refresh"]. *)
Definition resolversRegistered (w : World) : Prop :=
  forall p, promises w !! p = Some false ->
            OnceResolve p ∈ listenersOf "refresh" w.

(** The character occurs in the string. *)
Fixpoint occurs (c : ascii) (s : string) : bool :=
  match s with
  | EmptyString => false
  | String d s' => bool_decide (d = c) || occurs c s'
  end.

(** The string that the comparator of [sortFilesystems] compares an entry
    by: the upper-cased label on darwin (an empty label counts as
    [Untitled]), the upper-cased mountpoint of a mounted entry and the
    upper-cased device of another one elsewhere. *)
Definition sortKey `{Host} (fs : FileSystem) : option string :=
  match platform with
  | darwin =>
      Some (toUpperCase (if decide (label fs = EmptyString) then "Untitled"
                         else label fs))
  | _ => toUpperCase <$> (if mounted fs then mountpoint fs
                          else Some (device fs))
  end.

(** [a] may stand before [b] in a sorted state. *)
Definition inOrder `{Host} (a b : FileSystem) : Prop :=
  exists ka kb,
    sortKey a = Some ka /\ sortKey b = Some kb /\ localeCompare ka kb <= 0.

(** Time does not run backwards. *)
Definition forward (i : Functions.Input) : Prop :=
  match i with Functions.Elapse dt => 0 <= dt | Functions.Abort => True end.

(** * Properties *)

(** ** Lemmas on dictionaries *)

Section JsObjectFacts.
Context {V : Type}.
Implicit Types (o : JsObject.t V) (k : string) (v : V).

Lemma get_set_eq o k v : JsObject.get (JsObject.set o k v) k = Some v.
Proof.
  induction o as [|[k' v'] o IH]; simpl.
  - by rewrite decide_True.
  - destruct (decide (k' = k)) as [->|Hne]; simpl.
    + by rewrite decide_True.
    + by rewrite decide_False.
Qed.

Lemma get_set_ne o k k' v :
  k ≠ k' -> JsObject.get (JsObject.set o k v) k' = JsObject.get o k'.
Proof.
  intros Hne. induction o as [|[k0 v0] o IH]; simpl.
  - by rewrite decide_False.
  - destruct (decide (k0 = k)) as [->|Hne0]; simpl.
    + by rewrite !decide_False.
    + destruct (decide (k0 = k')); [done | exact IH].
Qed.

Lemma get_delete_eq o k : JsObject.get (JsObject.delete o k) k = None.
Proof.
  induction o as [|[k' v'] o IH]; simpl; [done|].
  destruct (decide (k' = k)) as [->|Hne]; simpl; [done|].
  by rewrite decide_False.
Qed.

Lemma get_delete_ne o k k' :
  k ≠ k' -> JsObject.get (JsObject.delete o k) k' = JsObject.get o k'.
Proof.
  intros Hne. induction o as [|[k0 v0] o IH]; simpl; [done|].
  destruct (decide (k0 = k)) as [->|Hne0]; simpl.
  - by rewrite decide_False.
  - destruct (decide (k0 = k')); [done | exact IH].
Qed.

Lemma get_Some_elem o k v : JsObject.get o k = Some v -> (k, v) ∈ o.
Proof.
  induction o as [|[k' v'] o IH]; simpl; [done|].
  destruct (decide (k' = k)) as [->|Hne].
  - intros [= ->]. left.
  - intros Hg. right. by apply IH.
Qed.

Lemma get_None_keys o k : JsObject.get o k = None <-> k ∉ JsObject.keys o.
Proof.
  induction o as [|[k' v'] o IH]; simpl.
  - split; [intros _; apply not_elem_of_nil | done].
  - destruct (decide (k' = k)) as [->|Hne].
    + split; [done|]. intros Hn. exfalso. apply Hn. left.
    + rewrite IH. rewrite not_elem_of_cons. naive_solver.
Qed.

Lemma get_is_Some_keySet o k :
  is_Some (JsObject.get o k) <-> k ∈ JsObject.keySet o.
Proof.
  unfold JsObject.keySet. rewrite elem_of_list_to_set.
  destruct (JsObject.get o k) eqn:Hg.
  - split; [intros _ | by eauto].
    destruct (decide (k ∈ JsObject.keys o)) as [|Hn]; [done|].
    apply get_None_keys in Hn. congruence.
  - split; [by intros [? ?] | intros Hin].
    apply get_None_keys in Hg. done.
Qed.

Lemma keySet_set o k v :
  JsObject.keySet (JsObject.set o k v) = {[k]} ∪ JsObject.keySet o.
Proof.
  apply set_eq. intros x. rewrite elem_of_union, elem_of_singleton.
  rewrite <- !get_is_Some_keySet.
  destruct (decide (k = x)) as [->|Hne].
  - rewrite get_set_eq. naive_solver.
  - rewrite get_set_ne by done. naive_solver.
Qed.

Lemma keySet_delete o k :
  JsObject.keySet (JsObject.delete o k) = JsObject.keySet o ∖ {[k]}.
Proof.
  apply set_eq. intros x. rewrite elem_of_difference, elem_of_singleton.
  rewrite <- !get_is_Some_keySet.
  destruct (decide (k = x)) as [->|Hne].
  - rewrite get_delete_eq. split; [by intros [? ?] | naive_solver].
  - rewrite get_delete_ne by done. naive_solver.
Qed.

Lemma elem_get_first o k v :
  (k, v) ∈ o -> is_Some (JsObject.get o k).
Proof.
  intros Hin. apply get_is_Some_keySet. unfold JsObject.keySet.
  rewrite elem_of_list_to_set. unfold JsObject.keys.
  apply list_elem_of_fmap. exists (k, v). done.
Qed.

Lemma keys_set_NoDup o k v :
  NoDup (JsObject.keys o) -> NoDup (JsObject.keys (JsObject.set o k v)).
Proof.
  induction o as [|[k' v'] o IH]; simpl; intros Hnd.
  - apply NoDup_singleton.
  - apply NoDup_cons in Hnd as [Hnotin Hnd].
    destruct (decide (k' = k)) as [->|Hne]; simpl.
    + apply NoDup_cons. done.
    + apply NoDup_cons. split; [|by apply IH].
      apply get_None_keys. rewrite get_set_ne by done.
      by apply get_None_keys.
Qed.

Lemma keys_delete_NoDup o k :
  NoDup (JsObject.keys o) -> NoDup (JsObject.keys (JsObject.delete o k)).
Proof.
  induction o as [|[k' v'] o IH]; simpl; intros Hnd; [done|].
  apply NoDup_cons in Hnd as [Hnotin Hnd].
  destruct (decide (k' = k)) as [->|Hne]; simpl; [by apply IH|].
  apply NoDup_cons. split; [|by apply IH].
  apply get_None_keys. rewrite get_delete_ne by done.
  by apply get_None_keys.
Qed.

Lemma get_NoDup_elem o k v :
  NoDup (JsObject.keys o) -> (k, v) ∈ o -> JsObject.get o k = Some v.
Proof.
  induction o as [|[k' v'] o IH]; simpl; intros Hnd Hin.
  - by apply elem_of_nil in Hin.
  - apply NoDup_cons in Hnd as [Hnotin Hnd].
    apply elem_of_cons in Hin as [[= -> ->]|Hin].
    + by rewrite decide_True.
    + destruct (decide (k' = k)) as [->|Hne]; [|by apply IH].
      exfalso. apply Hnotin. unfold JsObject.keys.
      apply list_elem_of_fmap. by exists (k, v).
Qed.

End JsObjectFacts.

(** ** The delay between two poll cycles *)

Lemma sleep_pending (ms : Z) (signal : bool) :
  Functions.resolved (Functions.sleep ms signal) = false.
Proof. reflexivity. Qed.

(** [stop] aborts the signal, and a sleep that listens to it resolves at
    once, whatever remains of its delay. *)
Lemma sleep_abort_resolves (ms dt : Z) :
  Functions.resolved
    (Functions.step (Functions.step (Functions.sleep ms true)
                                    (Functions.Elapse dt))
                    Functions.Abort) = true.
Proof.
  unfold Functions.step, Functions.elapse, Functions.onAbort,
    Functions.sleep; simpl.
  destruct (Functions.timerDelay ms <=? 0 + dt); reflexivity.
Qed.

(** Without an abort the sleep resolves exactly when the delay of its
    timer has passed. *)
Lemma sleep_resolves_after (ms dt : Z) (signal : bool) :
  Functions.resolved
    (Functions.step (Functions.sleep ms signal) (Functions.Elapse dt))
  = (Functions.timerDelay ms <=? dt).
Proof.
  unfold Functions.step, Functions.elapse, Functions.sleep; simpl.
  rewrite Z.add_0_l. destruct (Functions.timerDelay ms <=? dt); reflexivity.
Qed.

Lemma sleepDuration_spec (startTime endTime : Z) :
  sleepDuration startTime endTime
  = Z.max 5000 (10000 - (endTime - startTime)).
Proof. reflexivity. Qed.

(** The running loop always sleeps the whole interval, on a cancellable
    sleep. *)
Lemma monitorSleep_running (startTime endTime : Z) :
  monitorSleep true startTime endTime
  = Some (Functions.sleep INTERVAL_LENGTH true).
Proof. reflexivity. Qed.

(** Whenever the cycle took any time at all, the delay computed is shorter
    than the sleep started. *)
Lemma sleepDuration_shorter (startTime endTime : Z) :
  startTime < endTime ->
  sleepDuration startTime endTime < INTERVAL_LENGTH.
Proof.
  intros Hlt. rewrite sleepDuration_spec. unfold INTERVAL_LENGTH. lia.
Qed.

(** C5.  The specification has a running loop wait
    [max(interval/2, interval - elapsed)] before its next iteration, on a
    delay that [stop] cancels.  The code computes that value and does not
    use it: after a cycle of 6000 ms the computed delay is 5000 ms, but the
    sleep the loop starts lasts the whole interval of 10000 ms and is still
    pending after 5000 ms.  The sleep is cancellable: an abort resolves it
    at once. *)
Theorem monitor_sleeps_whole_interval :
  sleepDuration 0 6000 = 5000
  /\ (Functions.ms <$> monitorSleep true 0 6000) = Some 10000
  /\ (Functions.resolved
        <$> (flip Functions.step (Functions.Elapse (sleepDuration 0 6000))
               <$> monitorSleep true 0 6000)) = Some false
  /\ (Functions.resolved
        <$> (flip Functions.step Functions.Abort
               <$> monitorSleep true 0 6000)) = Some true.
Proof. repeat split; reflexivity. Qed.

(** ** The identity key of a snapshot entry *)

Section Uuid.
Context `{Host}.

Lemma member_own {V} (o : JsObject.t V) (k : string) (v : V) :
  JsObject.get o k = Some v -> JsObject.member o k = JsObject.Own v.
Proof. unfold JsObject.member. by intros ->. Qed.

(** What line 258 computes. *)
Lemma toFileSystem_uuid deviceMap raw :
  uuid <$> toFileSystem deviceMap raw
  = match JsObject.member deviceMap (SystemInformation.fs raw) with
    | JsObject.Own d => Js.Ok (toLowerCase (SystemInformation.uuid d))
    | JsObject.Undefined =>
        Js.Ok (v5 (SystemInformation.fs raw) UUID_NAMESPACE)
    | JsObject.Inherited => Js.Throw Js.TypeError
    end.
Proof.
  unfold toFileSystem.
  by destruct (JsObject.member deviceMap (SystemInformation.fs raw)).
Qed.

(** No device reports this filesystem: the name-based uuid of the device
    identifier. *)
Lemma toFileSystem_uuid_unreported deviceMap raw :
  JsObject.member deviceMap (SystemInformation.fs raw) = JsObject.Undefined ->
  uuid <$> toFileSystem deviceMap raw
  = Js.Ok (v5 (SystemInformation.fs raw) UUID_NAMESPACE).
Proof. intros Hg. rewrite toFileSystem_uuid, Hg. reflexivity. Qed.

End Uuid.

(** ** Sorting *)

Section SortFacts.
Context {A : Type} (cmp : A -> A -> Js.result Z).

Lemma insertSorted_perm x l l' :
  insertSorted cmp x l = Js.Ok l' -> l' ≡ₚ x :: l.
Proof.
  revert l'. induction l as [|y l IH]; simpl; intros l'.
  - intros [= <-]. done.
  - destruct (cmp x y) as [c|e]; simpl; [|done].
    destruct (c <=? 0); simpl.
    + intros [= <-]. done.
    + destruct (insertSorted cmp x l) as [l''|e]; simpl; [|done].
      intros [= <-]. rewrite (IH l'' eq_refl). apply Permutation_swap.
Qed.

Lemma sortWith_perm l l' : sortWith cmp l = Js.Ok l' -> l' ≡ₚ l.
Proof.
  revert l'. induction l as [|x l IH]; simpl; intros l'.
  - intros [= <-]. done.
  - destruct (sortWith cmp l) as [s|e]; simpl; [|done].
    intros Hins. apply insertSorted_perm in Hins.
    rewrite Hins. by rewrite (IH s eq_refl).
Qed.

Lemma insertSorted_ok x l :
  (forall y, y ∈ l -> is_Some (match cmp x y with
                               | Js.Ok c => Some c | Js.Throw _ => None
                               end)) ->
  exists l', insertSorted cmp x l = Js.Ok l'.
Proof.
  induction l as [|y l IH]; simpl; intros Hcmp; [by eexists|].
  destruct (Hcmp y) as [c Hc]; [left|].
  destruct (cmp x y) as [c'|e]; simpl; [|done].
  destruct (c' <=? 0); simpl; [by eexists|].
  destruct IH as [l' ->]; [|by eexists].
  intros z Hz. apply Hcmp. by right.
Qed.

Lemma sortWith_ok (P : A -> Prop) l :
  (forall x y, P x -> P y -> exists c, cmp x y = Js.Ok c) ->
  Forall P l -> exists l', sortWith cmp l = Js.Ok l'.
Proof.
  intros Hcmp. induction 1 as [|x l Hx Hl [s Hs]]; simpl; [by eexists|].
  rewrite Hs. simpl. apply insertSorted_ok.
  intros y Hy. rewrite Forall_forall in Hl.
  assert (P y) as Hpy.
  { apply Hl. by rewrite <- (sortWith_perm _ _ Hs). }
  destruct (Hcmp x y Hx Hpy) as [c ->]. by eexists.
Qed.

End SortFacts.

Section StateFacts.
Context `{Host}.

Lemma compareFilesystems_ok a b :
  sortable a -> sortable b -> exists c, compareFilesystems a b = Js.Ok c.
Proof.
  unfold sortable, compareFilesystems. intros Ha Hb.
  destruct platform; [by eexists|..];
    (destruct (mounted a);
     [destruct (mountpoint a); [|by destruct Ha]|];
     (destruct (mounted b);
      [destruct (mountpoint b); [|by destruct Hb]|]);
     by eexists).
Qed.

Lemma sortFilesystems_perm l l' : sortFilesystems l = Js.Ok l' -> l' ≡ₚ l.
Proof. unfold sortFilesystems. simpl. apply sortWith_perm. Qed.

Lemma sortFilesystems_ok l :
  Forall sortable l -> exists l', sortFilesystems l = Js.Ok l'.
Proof.
  unfold sortFilesystems. simpl.
  apply sortWith_ok. apply compareFilesystems_ok.
Qed.

Lemma stateOf_perm m st :
  stateOf m = Js.Ok st -> st ≡ₚ JsObject.values m.
Proof. apply sortFilesystems_perm. Qed.

Lemma stateOf_ok m :
  Forall sortable (JsObject.values m) -> exists st, stateOf m = Js.Ok st.
Proof. apply sortFilesystems_ok. Qed.

Lemma stateOf_empty : stateOf JsObject.empty = Js.Ok [].
Proof. reflexivity. Qed.

End StateFacts.

(** ** The folder deletion watcher fires once *)

Section WatcherFacts.
Import FolderDeletionWatcher.

(** One more segment, one more level: the chain of [p ++ [x]] is the chain
    of [p] followed by the watch of directory [p] for the name [x].  In
    particular the bound on the recursion is never reached. *)
Lemma chain_snoc (p : Path.t) (x : string) (s : bool) :
  chain (p ++ [x]) s = chain p s ++ [mkFSWatcher p x s false].
Proof.
  unfold chain. rewrite length_app. simpl.
  replace (List.length p + 1)%nat with (S (List.length p)) by lia.
  change (startParentFrom (S (S (List.length p))) (p ++ [x]) s)
    with (if decide (p ++ [x] = Path.dirname (p ++ [x])) then []
          else startParentFrom (S (List.length p))
                 (Path.dirname (p ++ [x])) s
               ++ [mkFSWatcher (Path.dirname (p ++ [x]))
                     (Path.basename (p ++ [x])) s false]).
  unfold Path.dirname, Path.basename.
  rewrite removelast_last, last_last.
  rewrite decide_False; [done|].
  intros Heq. apply (f_equal List.length) in Heq.
  rewrite length_app in Heq. simpl in Heq. lia.
Qed.

Lemma chain_root (s : bool) : chain [] s = [].
Proof. reflexivity. Qed.

Lemma chain_fresh (p : Path.t) (s : bool) (x : FSWatcher) :
  x ∈ chain p s -> signal x = s /\ closed x = false.
Proof.
  induction p as [|seg p IH] using rev_ind.
  - rewrite chain_root. intros Hx. by apply elem_of_nil in Hx.
  - rewrite chain_snoc. intros Hx.
    apply elem_of_app in Hx as [Hx|Hx]; [by apply IH|].
    apply list_elem_of_singleton in Hx. by subst x.
Qed.

Lemma chain_length (p : Path.t) (s : bool) :
  List.length (chain p s) = List.length p.
Proof.
  induction p as [|seg p IH] using rev_ind; [done|].
  rewrite chain_snoc, !length_app, IH. done.
Qed.

Lemma notify_all_closed (n : Notification) (w : t) :
  Forall (fun x => closed x = true) (watchers w) -> notify n w = w.
Proof.
  intros Hall. unfold notify.
  replace (existsb (listenerResolves n) (watchers w)) with false; [done|].
  symmetry. apply not_true_is_false. intros Hex.
  apply existsb_exists in Hex as (x & Hx & Hres).
  rewrite Forall_forall in Hall. apply list_elem_of_In in Hx.
  unfold listenerResolves in Hres. rewrite (Hall x Hx) in Hres. done.
Qed.

Lemma run_all_closed (ns : list Notification) (w : t) :
  Forall (fun x => closed x = true) (watchers w) ->
  run w (map Notify ns) = w.
Proof.
  intros Hall. induction ns as [|n ns IH]; simpl; [done|].
  unfold run in *. simpl. by rewrite notify_all_closed.
Qed.

Lemma resolve_armed (P : Path.t) (w : t) :
  armed P w ->
  callbackCalls (resolve w) = S (callbackCalls w)
  /\ Forall (fun x => closed x = true) (watchers (resolve w))
  /\ sharedContext (resolve w) = Some true.
Proof.
  intros (Hab & Hws & Hctx). unfold resolve. rewrite Hctx.
  unfold stop. simpl. rewrite Hab. simpl. split; [done|]. split; [|done].
  rewrite Hws. apply Forall_forall. intros x Hx.
  apply list_elem_of_fmap in Hx as (y & -> & Hy).
  apply chain_fresh in Hy as [-> _]. done.
Qed.

Lemma run_armed (P : Path.t) (ns : list Notification) (w : t) :
  armed P w ->
  callbackCalls (run w (map Notify ns))
  = (callbackCalls w
     + if existsb (fun n => existsb (listenerResolves n) (chain P true)) ns
       then 1 else 0)%nat.
Proof.
  revert w. induction ns as [|n ns IH]; intros w Harmed; simpl.
  - unfold run. simpl. lia.
  - unfold run in *. simpl. unfold notify at 1.
    destruct Harmed as (Hab & Hws & Hctx). rewrite Hws.
    destruct (existsb (listenerResolves n) (chain P true)) eqn:Hn; simpl.
    + destruct (resolve_armed P w) as (Hcalls & Hclosed & _); [done|].
      fold (run (resolve w) (map Notify ns)).
      rewrite run_all_closed by done. lia.
    + by apply IH.
Qed.

Lemma started_root (p : string) :
  Path.parse p = [] -> watchers (started p) = [].
Proof.
  intros Hp. unfold started, step, dirChecked, new. simpl.
  rewrite Hp. reflexivity.
Qed.

Lemma started_armed (p : string) :
  Path.parse p <> [] -> armed (Path.parse p) (started p).
Proof.
  intros Hp. unfold started, step, dirChecked, new, startParent. simpl.
  rewrite decide_False; [done|].
  intros Heq. apply (f_equal List.length) in Heq.
  unfold Path.dirname in Heq.
  destruct (Path.parse p) as [|a l] using rev_ind; [done|].
  rewrite removelast_last, length_app in Heq. simpl in Heq. lia.
Qed.

Lemma started_calls (p : string) : callbackCalls (started p) = 0%nat.
Proof.
  unfold started, step, dirChecked, new, startParent. simpl.
  case_decide; reflexivity.
Qed.

(** A started watcher invokes its callback once if one of the watches of
    its chain resolves the shared promise, and not at all otherwise. *)
Lemma started_fires_on_chain (p : string) (ns : list Notification) :
  callbackCalls (run (started p) (map Notify ns))
  = if existsb (reports p) ns then 1%nat else 0%nat.
Proof.
  destruct (decide (Path.parse p = [])) as [Hroot|Hp].
  - rewrite run_all_closed.
    + replace (existsb (reports p) ns) with false; [apply started_calls|].
      symmetry. apply not_true_is_false. intros Hex.
      apply existsb_exists in Hex as (n & _ & Hn).
      unfold reports in Hn. rewrite Hroot, chain_root in Hn. done.
    + rewrite started_root by done. constructor.
  - rewrite (run_armed (Path.parse p)) by (by apply started_armed).
    rewrite started_calls. unfold reports. reflexivity.
Qed.

(** The watches of the chain, one by one. *)
Lemma chain_elem (p : Path.t) (s : bool) (x : FSWatcher) :
  x ∈ chain p s
  <-> exists i y, p !! i = Some y /\ x = mkFSWatcher (take i p) y s false.
Proof.
  revert x. induction p as [|z p IH] using rev_ind; intros x.
  - rewrite chain_root. split.
    + by intros Hx%elem_of_nil.
    + by intros (i & y & Hi & _).
  - rewrite chain_snoc, elem_of_app, IH, list_elem_of_singleton. split.
    + intros [(i & y & Hi & ->) | ->].
      * exists i, y. pose proof (lookup_lt_Some _ _ _ Hi) as Hlt.
        split; [by apply lookup_app_l_Some|].
        f_equal. symmetry. apply take_app_le. lia.
      * exists (List.length p), z.
        split; [by apply list_lookup_middle|].
        f_equal. symmetry. apply take_app_length.
    + intros (i & y & Hi & ->).
      apply lookup_app_Some in Hi as [Hi|[Hge Hi]].
      * left. exists i, y. split; [exact Hi|].
        f_equal. apply take_app_le. apply lookup_lt_Some in Hi. lia.
      * right. apply list_lookup_singleton_Some in Hi as [Hz <-].
        assert (i = List.length p) as -> by lia.
        f_equal. apply take_app_length.
Qed.

(** The watches that the code sets up make the watcher react to exactly
    the notifications that the specification names. *)
Lemma reports_ancestor (p : string) (n : Notification) :
  reports p n = ancestorReports (Path.parse p) n.
Proof.
  unfold reports, ancestorReports. generalize (Path.parse p). clear p.
  intros p. apply eq_true_iff_eq.
  rewrite existsb_exists, andb_true_iff, bool_decide_eq_true, existsb_exists.
  split.
  - intros (x & Hx & Hres). apply list_elem_of_In, chain_elem in Hx
      as (i & y & Hi & ->).
    unfold listenerResolves in Hres. simpl in Hres.
    rewrite !andb_true_iff, !bool_decide_eq_true in Hres.
    destruct Hres as ((Hdir & Hev) & Hfile). split; [exact Hev|].
    exists i. split.
    + apply in_seq. apply lookup_lt_Some in Hi. lia.
    + rewrite andb_true_iff, !bool_decide_eq_true. by subst.
  - intros (Hev & i & Hseq & Hi).
    rewrite andb_true_iff, !bool_decide_eq_true in Hi.
    destruct Hi as [Hat Hi].
    exists (mkFSWatcher (take i p) (affectedFile n) true false). split.
    + apply list_elem_of_In, chain_elem. by exists i, (affectedFile n).
    + unfold listenerResolves. simpl.
      rewrite !andb_true_iff, !bool_decide_eq_true. done.
Qed.

Lemma existsb_pointwise {A} (f g : A -> bool) (l : list A) :
  (forall x, f x = g x) -> existsb f l = existsb g l.
Proof.
  intros Hfg. induction l as [|x l IH]; [reflexivity|].
  simpl. by rewrite Hfg, IH.
Qed.

(** C4: a started watcher invokes its callback exactly once if some
    ancestor directory of its path (its immediate parent included) reports
    a rename of the child name that leads on to the path at that level, and
    not at all otherwise, whatever the notifications, their number and
    their order. *)
Theorem watcher_fires_exactly_once (p : string) (ns : list Notification) :
  callbackCalls (run (started p) (map Notify ns))
  = if existsb (ancestorReports (Path.parse p)) ns then 1%nat else 0%nat.
Proof.
  rewrite started_fires_on_chain.
  rewrite (existsb_pointwise (reports p) (ancestorReports (Path.parse p)));
    [reflexivity|].
  intros n. apply reports_ancestor.
Qed.

(** Three ancestor levels of [/a/b/c] report in quick succession, the
    outermost first: one invocation. *)
Example watcher_three_levels :
  callbackCalls
    (run (started "/a/b/c")
         [ Notify (mkNotification [] "rename" "a");
           Notify (mkNotification ["a"] "rename" "b");
           Notify (mkNotification ["a"; "b"] "rename" "c") ]) = 1%nat
  /\ callbackCalls
       (run (started "/a/b/c")
            [ Notify (mkNotification ["a"; "b"] "change" "c");
              Notify (mkNotification ["a"; "b"] "rename" "d") ]) = 0%nat
  /\ map (fun x => (dir x, filename x)) (watchers (started "/a/b/c"))
     = [([], "a"); (["a"], "b"); (["a"; "b"], "c")].
Proof. repeat split; reflexivity. Qed.

(** X7. Whatever happens to a watcher from its construction on (the
    directory check, notifications, [stop]), its callback is invoked at most
    once. *)
Lemma watcher_fires_at_most_once (p : option string) (inputs : list Input) :
  (callbackCalls (run (new p) inputs) <= 1)%nat.
Proof.
  set (inv := fun w : t =>
    (checking w = true -> sharedContext w = None)
    /\ (sharedContext w <> Some true -> callbackCalls w = 0%nat)
    /\ (sharedContext w = Some true -> callbackCalls w = 1%nat)).
  assert (forall w i, inv w -> inv (step w i)) as Hstep.
  { intros w i Hw. pose proof Hw as (Hchk & Hzero & Hone).
    destruct i as [b|n|]; simpl.
    - unfold dirChecked. destruct (checking w) eqn:Hc; [|exact Hw].
      specialize (Hchk eq_refl).
      assert (callbackCalls w = 0%nat) as Hz by (apply Hzero; congruence).
      destruct b, (path w); unfold startParent, stop; simpl;
        repeat case_decide; destruct (abortController w); simpl;
        unfold inv; simpl; rewrite ?Hchk; naive_solver.
    - unfold notify. destruct (existsb _ _); [|exact Hw].
      unfold resolve.
      destruct (sharedContext w) as [[]|] eqn:Hctx; [exact Hw| |exact Hw].
      assert (callbackCalls w = 0%nat) as Hz by (apply Hzero; congruence).
      unfold stop; simpl. destruct (abortController w); simpl;
        unfold inv; simpl; rewrite ?Hz; naive_solver.
    - unfold stop. destruct (abortController w); [|exact Hw].
      unfold inv; simpl. done. }
  assert (forall l w, inv w -> inv (run w l)) as Hrun.
  { induction l as [|i l IH]; intros w Hw; [done|].
    unfold run in *. simpl. apply IH, Hstep, Hw. }
  destruct (Hrun inputs (new p)) as (_ & Hzero & Hone).
  { unfold inv, new; simpl. naive_solver. }
  destruct (decide (sharedContext (run (new p) inputs) = Some true)) as [Ht|Hf].
  - rewrite (Hone Ht). lia.
  - rewrite (Hzero Hf). lia.
Qed.

End WatcherFacts.

(** ** The state differ *)

Section DifferFacts.
Context `{Host}.
Implicit Types (m : JsObject.t FileSystem) (fs old : FileSystem).

Lemma mountCallback_elem disk m fs e :
  e ∈ mountCallback disk m fs <->
  e = Mount fs /\ isDirectory disk (mountpoint fs) = true
  /\ JsObject.get m (Js.propKey (mountpoint fs)) = None.
Proof.
  unfold mountCallback.
  destruct (isDirectory disk (mountpoint fs)); simpl.
  - case_bool_decide as Hg.
    + rewrite list_elem_of_singleton. naive_solver.
    + split; [by intros ?%elem_of_nil | naive_solver].
  - split; [by intros ?%elem_of_nil | naive_solver].
Qed.

Lemma mountPass_elem disk m completion e :
  e ∈ mountPass disk m completion <->
  exists fs, fs ∈ completion /\ e = Mount fs
             /\ isDirectory disk (mountpoint fs) = true
             /\ JsObject.get m (Js.propKey (mountpoint fs)) = None.
Proof.
  unfold mountPass. rewrite list_elem_of_In, in_flat_map.
  split.
  - intros (fs & Hin & He). exists fs.
    apply list_elem_of_In in Hin, He.
    apply mountCallback_elem in He. naive_solver.
  - intros (fs & Hin & He). exists fs.
    rewrite <- !list_elem_of_In. split; [done|].
    apply mountCallback_elem. naive_solver.
Qed.

Lemma unmountRenameStep_elem uuidMap old e :
  e ∈ unmountRenameStep uuidMap old <->
  (JsObject.get uuidMap (uuid old) = None /\ e = Unmount old)
  \/ (exists fs, JsObject.get uuidMap (uuid old) = Some fs
                 /\ label fs <> label old /\ e = Rename fs old).
Proof.
  unfold unmountRenameStep.
  destruct (JsObject.get uuidMap (uuid old)) as [fs|].
  - case_decide as Hl.
    + split; [by intros ?%elem_of_nil | naive_solver].
    + rewrite list_elem_of_singleton. naive_solver.
  - rewrite list_elem_of_singleton. naive_solver.
Qed.

Lemma unmountRenamePass_elem newState st e :
  e ∈ unmountRenamePass newState st <->
  exists old, old ∈ st
              /\ e ∈ unmountRenameStep (uuidFilesystemMapOf newState) old.
Proof.
  unfold unmountRenamePass. rewrite list_elem_of_In, in_flat_map.
  setoid_rewrite list_elem_of_In. done.
Qed.

Lemma mountPass_isMount disk m completion :
  Forall (fun e => isMount e = true) (mountPass disk m completion).
Proof.
  apply Forall_forall. intros e He.
  apply mountPass_elem in He as (fs & _ & -> & _). done.
Qed.

Lemma unmountRenamePass_not_isMount newState st :
  Forall (fun e => isMount e = false) (unmountRenamePass newState st).
Proof.
  apply Forall_forall. intros e He.
  apply unmountRenamePass_elem in He as (old & _ & He).
  apply unmountRenameStep_elem in He as [[_ ->]|(fs & _ & _ & ->)]; done.
Qed.

(** The subjects of a pass built with [flat_map] from steps that emit at
    most one event, about the element visited, follow the order of the
    list visited. *)
Lemma flat_map_subject_sublist (f : FileSystem -> list FileSystemEvent)
  (l : list FileSystem) :
  (forall x, f x = [] \/ exists e, f x = [e] /\ subject e = x) ->
  map subject (flat_map f l) `sublist_of` l.
Proof.
  intros Hf. induction l as [|x l IH]; simpl; [done|].
  destruct (Hf x) as [->|(e & -> & He)]; simpl.
  - by apply sublist_cons.
  - rewrite He. by apply sublist_skip.
Qed.

Lemma mountPass_order disk m completion :
  map subject (mountPass disk m completion) `sublist_of` completion.
Proof.
  apply flat_map_subject_sublist. intros fs. unfold mountCallback.
  destruct (_ && _); [right; by eexists | by left].
Qed.

Lemma unmountRenamePass_order newState st :
  map subject (unmountRenamePass newState st) `sublist_of` st.
Proof.
  apply flat_map_subject_sublist. intros old. unfold unmountRenameStep.
  destruct (JsObject.get _ _) as [fs|]; [|right; by eexists].
  case_decide; [by left | right; by eexists].
Qed.

(** The mount events do not depend on the order of completion as a set:
    two completion orders of one snapshot give the same mount events up to
    order. *)
Lemma mountPass_perm disk m c1 c2 :
  c1 ≡ₚ c2 -> mountPass disk m c1 ≡ₚ mountPass disk m c2.
Proof.
  unfold mountPass. induction 1 as [|x l1 l2 _ IH|x y l|l1 l2 l3 _ IH1 _ IH2];
    simpl.
  - done.
  - by rewrite IH.
  - rewrite !(assoc app). f_equiv. apply Permutation_app_comm.
  - by rewrite IH1.
Qed.

Lemma diff_ok disk m newState completion st :
  stateOf m = Js.Ok st ->
  diff disk m newState completion
  = Js.Ok (mountPass disk m completion ++ unmountRenamePass newState st).
Proof. intros Hst. unfold diff. rewrite Hst. reflexivity. Qed.

End DifferFacts.

Section MountFacts.
Context `{Host}.

(** C1, as the code has it: for an entry of the new snapshot whose mount
    directory exists, a Mount event is emitted if and only if no entry is
    recorded in the state map under its mountpoint.  The mount pass looks
    the entry up by mountpoint; uuids are compared in the unmount/rename
    pass only. *)
Theorem mount_iff_mountpoint_unrecorded (disk : string -> bool)
  (m : JsObject.t FileSystem) (newState completion : list FileSystem)
  (fs : FileSystem) :
  completion ≡ₚ newState ->
  Forall sortable (JsObject.values m) ->
  fs ∈ newState ->
  isDirectory disk (mountpoint fs) = true ->
  exists events,
    diff disk m newState completion = Js.Ok events
    /\ (Mount fs ∈ events
        <-> JsObject.get m (Js.propKey (mountpoint fs)) = None).
Proof.
  intros Hperm Hsort Hin Hdir.
  destruct (stateOf_ok m Hsort) as [st Hst].
  eexists. split; [by apply diff_ok|].
  rewrite elem_of_app, mountPass_elem. split.
  - intros [(fs' & _ & [= <-] & _ & Hg)|Hun]; [done|].
    pose proof (unmountRenamePass_not_isMount newState st) as Hno.
    rewrite Forall_forall in Hno. by specialize (Hno _ Hun).
  - intros Hg. left. exists fs. rewrite Hperm. done.
Qed.

End MountFacts.

(** The snapshot [volA; volB] against the state that holds [volA], the
    check of [volB] answering first. *)
Lemma mount_iff_mountpoint_unrecorded_witness :
  exists events,
    diff (H := exampleHost) allDirectories (mountedMap [volA])
         [volA; volB] [volB; volA] = Js.Ok events
    /\ (Mount volB ∈ events
        <-> JsObject.get (mountedMap [volA])
              (Js.propKey (mountpoint volB)) = None).
Proof.
  apply (mount_iff_mountpoint_unrecorded (H := exampleHost)).
  - apply Permutation_swap.
  - repeat constructor; done.
  - right. left.
  - reflexivity.
Defined.

(** C1 as stated fails: [volB_at_a] has a uuid that matches no entry of the
    old state and its mount directory exists, yet the cycle emits no Mount
    event for it, because the state map already holds an entry at its
    mountpoint. *)
Lemma mount_not_decided_by_uuid :
  exists st events,
    stateOf (H := exampleHost) (mountedMap [volA]) = Js.Ok st
    /\ diff (H := exampleHost) allDirectories (mountedMap [volA])
            [volB_at_a] [volB_at_a] = Js.Ok events
    /\ isDirectory allDirectories (mountpoint volB_at_a) = true
    /\ (forall old, old ∈ st -> uuid old <> uuid volB_at_a)
    /\ Mount volB_at_a ∉ events.
Proof.
  exists [volA], [Unmount volA].
  split; [reflexivity|]. split; [reflexivity|]. split; [reflexivity|].
  split.
  - intros old Hold. apply list_elem_of_singleton in Hold. by subst old.
  - intros Hin. apply list_elem_of_singleton in Hin. done.
Qed.

Section DifferOrder.
Context `{Host}.

(** C6, as the code has it: the events of a cycle are the mount events
    followed by the unmount and rename events; the unmount/rename events
    follow the order of the (sorted) old state; the mount events are those
    of the qualifying entries of the new snapshot, in the order in which
    the directory checks complete, which is the order of the snapshot when
    the checks complete in the order in which they were started. *)
Theorem cycle_event_order (disk : string -> bool)
  (m : JsObject.t FileSystem) (newState completion : list FileSystem) :
  completion ≡ₚ newState ->
  Forall sortable (JsObject.values m) ->
  exists st mounts others,
    stateOf m = Js.Ok st
    /\ diff disk m newState completion = Js.Ok (mounts ++ others)
    /\ Forall (fun e => isMount e = true) mounts
    /\ Forall (fun e => isMount e = false) others
    /\ map subject others `sublist_of` st
    /\ map subject mounts `sublist_of` completion
    /\ mounts ≡ₚ mountPass disk m newState
    /\ (completion = newState -> map subject mounts `sublist_of` newState).
Proof.
  intros Hperm Hsort. destruct (stateOf_ok m Hsort) as [st Hst].
  exists st, (mountPass disk m completion), (unmountRenamePass newState st).
  split; [done|]. split; [by apply diff_ok|].
  split; [apply mountPass_isMount|].
  split; [apply unmountRenamePass_not_isMount|].
  split; [apply unmountRenamePass_order|].
  split; [apply mountPass_order|].
  split; [by apply mountPass_perm|].
  intros <-. apply mountPass_order.
Qed.

End DifferOrder.

(** The snapshot [volB; volC] against the state that holds [volA], the
    check of [volC] answering first. *)
Lemma cycle_event_order_witness :
  exists st mounts others,
    stateOf (H := exampleHost) (mountedMap [volA]) = Js.Ok st
    /\ diff (H := exampleHost) allDirectories (mountedMap [volA])
            [volB; volC] [volC; volB] = Js.Ok (mounts ++ others)
    /\ Forall (fun e => isMount e = true) mounts
    /\ Forall (fun e => isMount e = false) others
    /\ map subject others `sublist_of` st
    /\ map subject mounts `sublist_of` [volC; volB]
    /\ mounts ≡ₚ mountPass allDirectories (mountedMap [volA]) [volB; volC]
    /\ ([volC; volB] = [volB; volC]
        -> map subject mounts `sublist_of` [volB; volC]).
Proof.
  apply (cycle_event_order (H := exampleHost)).
  - apply Permutation_swap.
  - repeat constructor; done.
Defined.

(** C6 as stated fails for the mount pass: with the snapshot [volA; volB],
    nothing mounted yet and the directory check of [volB] answering first,
    the cycle emits Mount [volB] before Mount [volA], against the order of
    the snapshot. *)
Lemma mount_events_follow_completion :
  [volB; volA] ≡ₚ [volA; volB]
  /\ diff (H := exampleHost) allDirectories JsObject.empty
          [volA; volB] [volB; volA] = Js.Ok [Mount volB; Mount volA]
  /\ ~ (map subject [Mount volB; Mount volA] `sublist_of` [volA; volB]).
Proof.
  split; [apply Permutation_swap|]. split; [reflexivity|].
  simpl. intros Hsub.
  apply sublist_cons_l in Hsub as (k1 & k2 & Heq & Hsub).
  destruct k1 as [|x [|y k1]]; simpl in Heq.
  - discriminate Heq.
  - injection Heq as _ <-. by apply sublist_nil_r in Hsub.
  - injection Heq as _ _ Heq. by destruct k1.
Qed.

Section RenameFacts.
Context `{Host}.

Lemma count_absent (l : list FileSystemEvent) (e : FileSystemEvent) :
  e ∉ l -> count_occ FileSystemEvent_eq_dec l e = 0%nat.
Proof.
  intros Hn. apply count_occ_not_In. by rewrite <- list_elem_of_In.
Qed.

Lemma count_rename_pass uuidMap (st : list FileSystem) new old :
  NoDup st -> old ∈ st ->
  JsObject.get uuidMap (uuid old) = Some new ->
  label new <> label old ->
  count_occ FileSystemEvent_eq_dec
    (flat_map (unmountRenameStep uuidMap) st) (Rename new old) = 1%nat.
Proof.
  intros Hnd Hin Hg Hl. induction st as [|x st IH]; simpl.
  - by apply elem_of_nil in Hin.
  - apply NoDup_cons in Hnd as [Hx Hnd].
    rewrite count_occ_app.
    apply elem_of_cons in Hin as [<-|Hin].
    + unfold unmountRenameStep at 1. rewrite Hg.
      rewrite decide_False by done.
      rewrite count_occ_cons_eq by done. cbn [count_occ].
      rewrite count_absent; [done|].
      intros Hin'. apply list_elem_of_In, in_flat_map in Hin'
        as (y & Hy & He).
      apply list_elem_of_In in Hy, He.
      apply unmountRenameStep_elem in He as [[_ ?]|(fs & _ & _ & [= _ ->])];
        [done|]. done.
    + rewrite IH by done.
      rewrite count_absent; [done|].
      intros He.
      apply unmountRenameStep_elem in He as [[_ ?]|(fs & _ & _ & [= _ ->])];
        [done|]. done.
Qed.

(** C7, as the code has it: for an old-state entry whose uuid is present in
    the new snapshot, the cycle emits exactly one Rename(new entry, old
    entry) and no Unmount when the labels differ; when the labels are
    equal it emits no Unmount and no Rename for the entry, whatever other
    field differs.  A Mount event for a new entry of that uuid is still
    emitted when its mountpoint exists on disk and is not recorded in the
    state map; when every new entry of that uuid has its mountpoint
    recorded (or missing on disk), equal labels give no event for the
    volume at all. *)
Theorem rename_iff_label_differs (disk : string -> bool)
  (m : JsObject.t FileSystem) (newState completion : list FileSystem)
  (old new : FileSystem) :
  completion ≡ₚ newState ->
  Forall sortable (JsObject.values m) ->
  NoDup (JsObject.values m) ->
  old ∈ JsObject.values m ->
  JsObject.get (uuidFilesystemMapOf newState) (uuid old) = Some new ->
  exists events,
    diff disk m newState completion = Js.Ok events
    /\ (label new <> label old ->
        count_occ FileSystemEvent_eq_dec events (Rename new old) = 1%nat
        /\ Unmount old ∉ events)
    /\ (label new = label old ->
        forall e, e ∈ events -> isMount e = false -> subject e <> old)
    /\ (label new = label old ->
        (forall fs, fs ∈ newState -> uuid fs = uuid old ->
           isDirectory disk (mountpoint fs) = false
           \/ JsObject.get m (Js.propKey (mountpoint fs)) <> None) ->
        forall e, e ∈ events ->
          subject e <> old
          /\ (isMount e = true -> uuid (subject e) <> uuid old)).
Proof.
  intros Hperm Hsort Hnd Hin Hg.
  destruct (stateOf_ok m Hsort) as [st Hst].
  pose proof (stateOf_perm m st Hst) as Hst_perm.
  assert (NoDup st) as Hnd' by (by rewrite Hst_perm).
  assert (old ∈ st) as Hin' by (by rewrite Hst_perm).
  assert (forall e, e ∈ unmountRenamePass newState st -> subject e = old ->
            label new <> label old /\ e = Rename new old) as Hpass.
  { intros e He Hs. apply unmountRenamePass_elem in He as (old' & _ & He).
    apply unmountRenameStep_elem in He
      as [[Hnone ->]|(fs & Hsome & Hl & ->)]; simpl in Hs; subst old'.
    - congruence.
    - rewrite Hg in Hsome. injection Hsome as <-. done. }
  eexists. split; [by apply diff_ok|]. split; [|split].
  - intros Hl. split.
    + rewrite count_occ_app, count_absent.
      * by apply count_rename_pass.
      * intros Hm. apply mountPass_elem in Hm as (fs & _ & ? & _). done.
    + intros Hu. apply elem_of_app in Hu as [Hu|Hu].
      * apply mountPass_elem in Hu as (fs & _ & ? & _). done.
      * by destruct (Hpass _ Hu eq_refl).
  - intros Hl e He Hk Hs. apply elem_of_app in He as [He|He].
    + pose proof (mountPass_isMount disk m completion) as Hall.
      rewrite Forall_forall in Hall. specialize (Hall _ He). congruence.
    + by destruct (Hpass _ He Hs).
  - intros Hl Hrec e He. apply elem_of_app in He as [He|He].
    + apply mountPass_elem in He as (fs & Hfs & -> & Hdir & Hnone). simpl.
      assert (uuid fs <> uuid old) as Hu.
      { intros Hu. rewrite Hperm in Hfs.
        destruct (Hrec fs Hfs Hu); congruence. }
      split; [congruence | done].
    + split.
      * intros Hs. by destruct (Hpass _ He Hs).
      * pose proof (unmountRenamePass_not_isMount newState st) as Hall.
        rewrite Forall_forall in Hall. specialize (Hall _ He). congruence.
Qed.

End RenameFacts.

(** [volA] comes back with another label while [volB] stays. *)
Lemma rename_iff_label_differs_witness :
  exists events,
    diff (H := exampleHost) allDirectories (mountedMap [volA; volB])
         [volA_renamed; volB] [volB; volA_renamed] = Js.Ok events
    /\ (label volA_renamed <> label volA ->
        count_occ FileSystemEvent_eq_dec events (Rename volA_renamed volA)
        = 1%nat
        /\ Unmount volA ∉ events)
    /\ (label volA_renamed = label volA ->
        forall e, e ∈ events -> isMount e = false -> subject e <> volA)
    /\ (label volA_renamed = label volA ->
        (forall fs, fs ∈ [volA_renamed; volB] -> uuid fs = uuid volA ->
           isDirectory allDirectories (mountpoint fs) = false
           \/ JsObject.get (mountedMap [volA; volB])
                (Js.propKey (mountpoint fs)) <> None) ->
        forall e, e ∈ events ->
          subject e <> volA
          /\ (isMount e = true -> uuid (subject e) <> uuid volA)).
Proof.
  apply (rename_iff_label_differs (H := exampleHost)).
  - apply Permutation_swap.
  - repeat constructor; done.
  - apply NoDup_cons. split; [|apply NoDup_singleton].
    intros Hin. apply list_elem_of_singleton in Hin. discriminate Hin.
  - left.
  - reflexivity.
Defined.

(** C7 as stated fails: [volA_moved] is [volA] with another mountpoint
    only (same uuid, same label), and the cycle does emit an event for the
    volume, the Mount of the new entry. *)
Lemma equal_labels_yet_an_event :
  exists events,
    diff (H := exampleHost) allDirectories (mountedMap [volA])
         [volA_moved] [volA_moved] = Js.Ok events
    /\ volA ∈ JsObject.values (mountedMap [volA])
    /\ JsObject.get (uuidFilesystemMapOf [volA_moved]) (uuid volA)
       = Some volA_moved
    /\ label volA_moved = label volA
    /\ events = [Mount volA_moved]
    /\ events <> []
    /\ uuid (eventFilesystem (Mount volA_moved)) = uuid volA.
Proof.
  exists [Mount volA_moved]. split; [reflexivity|].
  split; [left|]. repeat split; done.
Qed.

(** ** Longest-prefix lookup *)

Section LookupFacts.
Context `{Host}.

Lemma filesystemIn_from (path : string) (st seen : list FileSystem)
  (R : option FileSystem) :
  Forall sortable seen -> Forall sortable st ->
  longestPrefixMatch seen path R ->
  exists R', reduce (filesystemStep path) st R = Js.Ok R'
             /\ longestPrefixMatch (seen ++ st) path R'.
Proof.
  revert seen R. induction st as [|fs st IH]; intros seen R Hseen Hst HR.
  - exists R. rewrite app_nil_r. done.
  - apply Forall_cons in Hst as [Hfs Hst].
    assert (exists R1, filesystemStep path R fs = Js.Ok R1
                       /\ longestPrefixMatch (seen ++ [fs]) path R1)
      as (R1 & Hstep & HR1).
    { unfold filesystemStep. destruct (mounted fs) eqn:Hm.
      - destruct (mountpoint fs) as [s|] eqn:Hmp; [|by destruct Hfs].
        destruct R as [r|]; simpl in HR.
        + destruct HR as (Hr & sr & (Hrm & Hrmp & Hrp) & Hmax).
          rewrite Hrmp. simpl. unfold Js.startsWith. simpl.
          destruct (Z.of_nat (String.length sr) <? Z.of_nat (String.length s))
            eqn:Hlt; simpl; [destruct (String.prefix s path) eqn:Hp|];
            eexists; (split; [reflexivity|]); simpl.
          * split; [set_solver|]. exists s. split; [done|].
            intros fs' s' Hin (Hm' & Hmp' & Hp').
            apply elem_of_app in Hin as [Hin|Hin].
            -- specialize (Hmax fs' s' Hin (conj Hm' (conj Hmp' Hp'))). lia.
            -- apply list_elem_of_singleton in Hin. subst fs'.
               rewrite Hmp in Hmp'. injection Hmp' as <-. lia.
          * split; [set_solver|]. exists sr. split; [done|].
            intros fs' s' Hin (Hm' & Hmp' & Hp').
            apply elem_of_app in Hin as [Hin|Hin].
            -- by apply (Hmax fs' s' Hin).
            -- apply list_elem_of_singleton in Hin. subst fs'.
               rewrite Hmp in Hmp'. injection Hmp' as <-. congruence.
          * split; [set_solver|]. exists sr. split; [done|].
            intros fs' s' Hin (Hm' & Hmp' & Hp').
            apply elem_of_app in Hin as [Hin|Hin].
            -- by apply (Hmax fs' s' Hin).
            -- apply list_elem_of_singleton in Hin. subst fs'.
               rewrite Hmp in Hmp'. injection Hmp' as <-. lia.
        + simpl. unfold Js.startsWith. simpl.
          destruct (String.prefix s path) eqn:Hp;
            eexists; (split; [reflexivity|]); simpl.
          * split; [set_solver|]. exists s. split; [done|].
            intros fs' s' Hin (Hm' & Hmp' & Hp').
            apply elem_of_app in Hin as [Hin|Hin].
            -- by destruct (HR fs' s' Hin).
            -- apply list_elem_of_singleton in Hin. subst fs'.
               rewrite Hmp in Hmp'. injection Hmp' as <-. lia.
          * intros fs' s' Hin (Hm' & Hmp' & Hp').
            apply elem_of_app in Hin as [Hin|Hin].
            -- by destruct (HR fs' s' Hin).
            -- apply list_elem_of_singleton in Hin. subst fs'.
               rewrite Hmp in Hmp'. injection Hmp' as <-. congruence.
      - exists R. split; [reflexivity|]. destruct R as [r|]; simpl in *.
        + destruct HR as (Hr & sr & Hpre & Hmax).
          split; [set_solver|]. exists sr. split; [done|].
          intros fs' s' Hin (Hm' & Hmp' & Hp').
          apply elem_of_app in Hin as [Hin|Hin].
          * by apply (Hmax fs' s' Hin).
          * apply list_elem_of_singleton in Hin. subst fs'. congruence.
        + intros fs' s' Hin (Hm' & Hmp' & Hp').
          apply elem_of_app in Hin as [Hin|Hin].
          * by destruct (HR fs' s' Hin).
          * apply list_elem_of_singleton in Hin. subst fs'. congruence. }
    destruct (IH (seen ++ [fs]) R1) as (R' & Hred & HR'); [|done|done|].
    { apply Forall_app. split; [done|]. by apply Forall_singleton. }
    exists R'. simpl. rewrite Hstep. simpl. split; [done|].
    by rewrite <- (assoc app) in HR'.
Qed.

Lemma filesystemIn_spec (path : string) (st : list FileSystem) :
  Forall sortable st ->
  exists r, filesystemIn st path = Js.Ok r /\ longestPrefixMatch st path r.
Proof.
  intros Hst. apply (filesystemIn_from path st [] None); [done|done|].
  intros fs' s' Hin. by apply elem_of_nil in Hin.
Qed.

End LookupFacts.

(** ** The emitter *)

(** Settles the comparisons of two event names. *)
Ltac decide_names :=
  repeat match goal with
  | |- context [decide (?a = ?b)] =>
      first [ rewrite (decide_True (P := a = b)) by reflexivity
            | rewrite (decide_False (P := a = b)) by discriminate ]
  end.

Section EmitterFacts.
Implicit Types (ls : list (string * Listener)) (l : Listener).

Lemma listenersIn_app name ls1 ls2 :
  listenersIn name (ls1 ++ ls2) = listenersIn name ls1 ++ listenersIn name ls2.
Proof. unfold listenersIn. by rewrite List.filter_app, map_app. Qed.

Lemma listenersIn_elem name ls l :
  l ∈ listenersIn name ls <-> (name, l) ∈ ls.
Proof.
  unfold listenersIn. rewrite list_elem_of_fmap. split.
  - intros ([n x] & -> & Hin). apply list_elem_of_In, filter_In in Hin
      as [Hin Hn]. simpl in *. apply bool_decide_eq_true in Hn. subst n.
    by apply list_elem_of_In.
  - intros Hin. exists (name, l). split; [done|].
    apply list_elem_of_In, filter_In. split; [by apply list_elem_of_In|].
    simpl. by apply bool_decide_eq_true.
Qed.

Lemma listenersIn_singleton name name' l :
  listenersIn name [(name', l)] = if decide (name' = name) then [l] else [].
Proof.
  unfold listenersIn. simpl. case_bool_decide; by case_decide.
Qed.

Lemma removeLast_split name l ls :
  (name, l) ∈ ls ->
  exists ls1 ls2, ls = ls1 ++ (name, l) :: ls2
                  /\ removeLast name l ls = ls1 ++ ls2.
Proof.
  induction ls as [|x ls IH]; intros Hin; [by apply elem_of_nil in Hin|].
  simpl. case_bool_decide as Hrest.
  - destruct (IH Hrest) as (ls1 & ls2 & -> & ->).
    by exists (x :: ls1), ls2.
  - apply elem_of_cons in Hin as [<-|Hin]; [|done].
    rewrite decide_True by done. by exists [], ls.
Qed.

Lemma removeLast_absent name l ls :
  (name, l) ∉ ls -> removeLast name l ls = ls.
Proof.
  induction ls as [|x ls IH]; intros Hn; [done|]. simpl.
  apply not_elem_of_cons in Hn as [Hx Hn].
  rewrite bool_decide_eq_false_2 by done.
  by rewrite decide_False.
Qed.

Lemma removeLast_elem name l ls (x : string * Listener) :
  x ∈ removeLast name l ls -> x ∈ ls.
Proof.
  destruct (decide ((name, l) ∈ ls)) as [Hin|Hn].
  - destruct (removeLast_split name l ls Hin) as (ls1 & ls2 & -> & ->).
    set_solver.
  - by rewrite removeLast_absent.
Qed.

Lemma listenersIn_removeLast_ne name name' l ls :
  name <> name' ->
  listenersIn name' (removeLast name l ls) = listenersIn name' ls.
Proof.
  intros Hne. destruct (decide ((name, l) ∈ ls)) as [Hin|Hn].
  - destruct (removeLast_split name l ls Hin) as (ls1 & ls2 & -> & ->).
    rewrite !listenersIn_app.
    change ((name, l) :: ls2) with ([(name, l)] ++ ls2).
    rewrite listenersIn_app, listenersIn_singleton.
    by rewrite decide_False.
  - by rewrite removeLast_absent.
Qed.

Lemma listenersIn_removeLast_only name l ls :
  listenersIn name ls = [l] -> listenersIn name (removeLast name l ls) = [].
Proof.
  intros Honly.
  assert ((name, l) ∈ ls) as Hin.
  { apply listenersIn_elem. rewrite Honly. left. }
  destruct (removeLast_split name l ls Hin) as (ls1 & ls2 & -> & ->).
  rewrite listenersIn_app in *.
  change ((name, l) :: ls2) with ([(name, l)] ++ ls2) in Honly.
  rewrite listenersIn_app, listenersIn_singleton in Honly.
  rewrite decide_True in Honly by done.
  destruct (listenersIn name ls1) as [|y ys].
  - simpl in Honly. injection Honly as ->. done.
  - simpl in Honly. injection Honly as -> Hys.
    by destruct ys.
Qed.

Lemma listenersIn_removeLast_Forall (P : Listener -> Prop) name name' l ls :
  Forall P (listenersIn name' ls) ->
  Forall P (listenersIn name' (removeLast name l ls)).
Proof.
  rewrite !Forall_forall. intros HP x Hx. apply HP.
  apply listenersIn_elem. apply listenersIn_elem in Hx.
  by apply removeLast_elem in Hx.
Qed.

Lemma listenersIn_removeLast_nil name name' l ls :
  listenersIn name' ls = [] -> listenersIn name' (removeLast name l ls) = [].
Proof.
  intros Hnil.
  destruct (listenersIn name' (removeLast name l ls)) as [|x xs] eqn:Heq;
    [done|].
  assert (x ∈ listenersIn name' ls) as Hx.
  { apply listenersIn_elem.
    apply (removeLast_elem name l). apply listenersIn_elem.
    rewrite Heq. left. }
  rewrite Hnil in Hx. by apply elem_of_nil in Hx.
Qed.

End EmitterFacts.

(** ** The handlers *)

Section HandlerFacts.
Implicit Types (w : World) (e : FileSystemEvent).

Lemma set_elem {V} (o : JsObject.t V) k v (x : string * V) :
  x ∈ JsObject.set o k v -> x = (k, v) \/ x ∈ o.
Proof.
  induction o as [|[k' v'] o IH]; simpl.
  - intros Hx. left. by apply list_elem_of_singleton in Hx.
  - destruct (decide (k' = k)) as [->|Hne]; intros Hx;
      apply elem_of_cons in Hx as [->|Hx]; set_solver.
Qed.

Lemma delete_elem {V} (o : JsObject.t V) k (x : string * V) :
  x ∈ JsObject.delete o k -> x ∈ o.
Proof.
  induction o as [|[k' v'] o IH]; simpl; [done|].
  destruct (decide (k' = k)) as [->|Hne]; intros Hx; [set_solver|].
  apply elem_of_cons in Hx as [->|Hx]; set_solver.
Qed.

Lemma values_elem {V} (o : JsObject.t V) (v : V) :
  v ∈ JsObject.values o <-> exists k, (k, v) ∈ o.
Proof.
  unfold JsObject.values. rewrite list_elem_of_fmap. split.
  - intros ([k v'] & -> & Hin). by exists k.
  - intros (k & Hin). by exists (k, v).
Qed.

Lemma registryCovers_frame w w' :
  sameStore w w' -> registryCovers w -> registryCovers w'.
Proof.
  intros (_ & Hm & Hr). unfold registryCovers. by rewrite Hm, Hr.
Qed.

Lemma onMount_covers e w :
  sortable (eventFilesystem e) -> registryCovers w ->
  registryCovers (onMount e w).
Proof.
  intros Hs (Hnd & Hkeyed & Hsort & Hsub). unfold registryCovers, onMount.
  simpl. split; [by apply keys_set_NoDup|]. split; [|split].
  - intros k v Hin. apply set_elem in Hin as [[= -> ->]|Hin]; [done|].
    by apply Hkeyed.
  - apply Forall_forall. intros v Hv.
    apply values_elem in Hv as (k & Hin).
    apply set_elem in Hin as [[= -> ->]|Hin]; [done|].
    rewrite Forall_forall in Hsort. apply Hsort, values_elem. by exists k.
  - rewrite !keySet_set. set_solver.
Qed.

Lemma onUnmount_covers e w :
  registryCovers w ->
  eventKey (Unmount (eventFilesystem e))
    ∈ JsObject.keySet (deletionWatchers w) ->
  exists w', onUnmount e w = Js.Ok w' /\ registryCovers w'
             /\ abortController w' = abortController w
             /\ listeners w' = listeners w
             /\ deletionWatchers w'
                = JsObject.delete (deletionWatchers w)
                    (Js.propKey (mountpoint (eventFilesystem e)))
             /\ filesystemMap w'
                = JsObject.delete (filesystemMap w)
                    (Js.propKey (mountpoint (eventFilesystem e))).
Proof.
  intros (Hnd & Hkeyed & Hsort & Hsub) Hk. unfold eventKey in Hk.
  simpl in Hk. apply get_is_Some_keySet in Hk as [ref Hg].
  unfold onUnmount. rewrite Hg. eexists. split; [reflexivity|].
  simpl. split; [|done]. unfold registryCovers. simpl.
  split; [by apply keys_delete_NoDup|]. split; [|split].
  - intros k v Hin. apply delete_elem in Hin. by apply Hkeyed.
  - apply Forall_forall. intros v Hv.
    apply values_elem in Hv as (k & Hin). apply delete_elem in Hin.
    rewrite Forall_forall in Hsort. apply Hsort, values_elem. by exists k.
  - rewrite !keySet_delete. set_solver.
Qed.

Lemma keySet_onMount e w :
  JsObject.keySet (deletionWatchers (onMount e w))
  = {[Js.propKey (mountpoint (eventFilesystem e))]}
    ∪ JsObject.keySet (deletionWatchers w)
  /\ JsObject.keySet (filesystemMap (onMount e w))
     = {[Js.propKey (mountpoint (eventFilesystem e))]}
       ∪ JsObject.keySet (filesystemMap w).
Proof. unfold onMount. simpl. by rewrite !keySet_set. Qed.

Lemma callAll_iterables name (ls : list Listener) e w :
  Forall (fun l => exists q, l = EventIterable q) ls ->
  exists w', callAll name ls (Some e) w = Js.Ok w'
             /\ sameStore w w' /\ listeners w' = listeners w.
Proof.
  revert w. induction ls as [|l ls IH]; intros w Hall; simpl.
  - by exists w.
  - apply Forall_cons in Hall as [[q ->] Hall]. simpl.
    edestruct IH as (w' & -> & Hsame & Hls); [done|].
    exists w'. split; [done|]. split; [|by rewrite Hls].
    destruct Hsame as (? & ? & ?). by repeat split.
Qed.

Lemma callAll_resolvers (ls : list Listener) w :
  Forall (fun l => exists p, l = OnceResolve p) ls ->
  exists w',
    callAll "refresh" ls None w = Js.Ok w'
    /\ sameStore w w'
    /\ (forall name, "refresh" <> name ->
          listenersOf name w' = listenersOf name w)
    /\ (forall P, Forall P (listenersOf "refresh" w) ->
          Forall P (listenersOf "refresh" w'))
    /\ List.length (promises w') = List.length (promises w)
    /\ (forall p, promises w !! p = Some true -> promises w' !! p = Some true)
    /\ (forall p, OnceResolve p ∈ ls -> (p < List.length (promises w))%nat ->
          promises w' !! p = Some true).
Proof.
  revert w. induction ls as [|l ls IH]; intros w Hall; simpl.
  - exists w. repeat split; try done.
    intros p Hp. by apply elem_of_nil in Hp.
  - apply Forall_cons in Hall as [[p0 ->] Hall]. simpl.
    edestruct IH as (w' & -> & Hsame & Hother & Hrefresh & Hlen & Hkeep & Hres);
      [done|].
    exists w'. split; [done|]. simpl in *.
    split; [done|]. split; [|split; [|split; [|split]]].
    + intros name Hne. rewrite Hother by done. unfold listenersOf. simpl.
      by apply listenersIn_removeLast_ne.
    + intros P HP. apply Hrefresh. unfold listenersOf. simpl.
      by apply listenersIn_removeLast_Forall.
    + by rewrite Hlen, length_insert.
    + intros p Hp. apply Hkeep.
      destruct (decide (p0 = p)) as [->|Hne].
      * apply list_lookup_insert_eq. by apply lookup_lt_Some in Hp.
      * by rewrite list_lookup_insert_ne.
    + intros p Hp Hlt. apply elem_of_cons in Hp as [[= ->]|Hp].
      * apply Hkeep. by apply list_lookup_insert_eq.
      * apply Hres; [done|]. by rewrite length_insert.
Qed.

Lemma emit_all e w :
  handlersAttached w ->
  exists w', emit "all" (Some e) w = Js.Ok w'
             /\ sameStore w w' /\ listeners w' = listeners w.
Proof.
  intros (_ & _ & _ & _ & Hall & _). by apply callAll_iterables.
Qed.

Lemma emit_changed w : handlersAttached w -> emit "changed" None w = Js.Ok w.
Proof. intros (_ & _ & _ & Hc & _). unfold emit. by rewrite Hc. Qed.

Lemma emit_mount e w :
  handlersAttached w ->
  emit "mount" (Some e) w = Js.Ok (if running w then onMount e w else w).
Proof.
  intros (Hm & _). unfold emit. rewrite Hm. by destruct (running w).
Qed.

Lemma emit_unmount e w :
  handlersAttached w ->
  emit "unmount" (Some e) w
  = if running w then onUnmount e w else Js.Ok w.
Proof.
  intros (_ & _ & Hu & _). unfold emit. rewrite Hu.
  destruct (running w); [|done]. simpl. by destruct (onUnmount e w).
Qed.

Lemma emit_rename e w :
  handlersAttached w ->
  emit "rename" (Some e) w
  = if running w then onRename e w else Js.Ok w.
Proof.
  intros (_ & Hr & _). unfold emit. rewrite Hr.
  destruct (running w); [|done]. simpl. by destruct (onRename e w).
Qed.

Lemma handlersAttached_frame w w' :
  abortController w' = abortController w ->
  listeners w' = listeners w ->
  handlersAttached w -> handlersAttached w'.
Proof.
  intros Hab Hls. unfold handlersAttached, listenersOf, running.
  by rewrite Hab, Hls.
Qed.

End HandlerFacts.

(** ** One poll cycle keeps the monitor consistent *)

Section CycleFacts.
Context `{Host}.
Implicit Types (w : World) (e : FileSystemEvent).

Lemma applicable_tail_mount e rest w w' :
  isMount e = true ->
  JsObject.keySet (deletionWatchers w)
    ⊆ JsObject.keySet (deletionWatchers w') ->
  applicable (e :: rest) w -> applicable rest w'.
Proof.
  intros He Hsub (Hnd & Hkeys & Hsort). unfold applicable.
  simpl in Hnd. rewrite He in Hnd. simpl in Hnd.
  apply Forall_cons in Hsort as [_ Hsort].
  split; [done|]. split; [|done].
  intros e' He' Hm. apply Hsub, Hkeys; [by right | done].
Qed.

Lemma applicable_tail_other e rest w w' :
  isMount e = false ->
  JsObject.keySet (deletionWatchers w) ∖ {[eventKey e]}
    ⊆ JsObject.keySet (deletionWatchers w') ->
  applicable (e :: rest) w -> applicable rest w'.
Proof.
  intros He Hsub (Hnd & Hkeys & Hsort). unfold applicable.
  simpl in Hnd. rewrite He in Hnd. simpl in Hnd.
  apply NoDup_cons in Hnd as [Hfresh Hnd].
  apply Forall_cons in Hsort as [_ Hsort].
  split; [done|]. split; [|done].
  intros e' He' Hm. apply Hsub. apply elem_of_difference. split.
  - apply Hkeys; [by right | done].
  - rewrite elem_of_singleton. intros Heq. apply Hfresh. rewrite <- Heq.
    apply list_elem_of_fmap. exists e'. split; [done|].
    apply list_elem_of_In, filter_In. split; [by apply list_elem_of_In|].
    by rewrite Hm.
Qed.

Lemma emitEvent_applicable e rest w :
  consistent w -> running w = true -> applicable (e :: rest) w ->
  exists w',
    emitEvent w e = Js.Ok w' /\ consistent w' /\ running w' = true
    /\ applicable rest w'
    /\ (JsObject.keySet (filesystemMap w)
        = JsObject.keySet (deletionWatchers w) ->
        JsObject.keySet (filesystemMap w')
        = JsObject.keySet (deletionWatchers w')).
Proof.
  intros [Hls Hcov] Hrun Happ.
  assert (sortable (eventFilesystem e)) as Hsort.
  { destruct Happ as (_ & _ & Hs). by apply Forall_cons in Hs as [Hs _]. }
  assert (forall w1,
    abortController w1 = abortController w -> listeners w1 = listeners w ->
    registryCovers w1 ->
    (isMount e = true ->
       JsObject.keySet (deletionWatchers w)
         ⊆ JsObject.keySet (deletionWatchers w1)) ->
    (isMount e = false ->
       JsObject.keySet (deletionWatchers w) ∖ {[eventKey e]}
         ⊆ JsObject.keySet (deletionWatchers w1)) ->
    (JsObject.keySet (filesystemMap w) = JsObject.keySet (deletionWatchers w) ->
     JsObject.keySet (filesystemMap w1)
     = JsObject.keySet (deletionWatchers w1)) ->
    emit (typeName e) (Some e) w = Js.Ok w1 ->
    exists w',
      emitEvent w e = Js.Ok w' /\ consistent w' /\ running w' = true
      /\ applicable rest w'
      /\ (JsObject.keySet (filesystemMap w)
          = JsObject.keySet (deletionWatchers w) ->
          JsObject.keySet (filesystemMap w')
          = JsObject.keySet (deletionWatchers w'))) as Hfinish.
  { intros w1 Hab1 Hls1 Hcov1 Hmount Hother Heq1 Hemit.
    assert (handlersAttached w1) as Hatt1
      by (by apply (handlersAttached_frame w)).
    destruct (emit_all e w1 Hatt1) as (w' & Hall & Hsame & Hls').
    exists w'. unfold emitEvent. rewrite Hemit. simpl.
    split; [done|]. pose proof Hsame as (Hab' & Hm' & Hr').
    split; [split|split; [|split]].
    - apply (handlersAttached_frame w1); done.
    - by apply (registryCovers_frame w1).
    - unfold running in *. by rewrite Hab', Hab1.
    - destruct (isMount e) eqn:Hm.
      + apply (applicable_tail_mount e rest w); [done| |done].
        rewrite Hr'. by apply Hmount.
      + apply (applicable_tail_other e rest w); [done| |done].
        rewrite Hr'. by apply Hother.
    - intros Heq. rewrite Hm', Hr'. by apply Heq1. }
  destruct e as [fs|new old|old]; simpl in *.
  - (* mount *)
    apply (Hfinish (onMount (Mount fs) w)); try done.
    + by apply onMount_covers.
    + intros _. destruct (keySet_onMount (Mount fs) w) as [-> _]. set_solver.
    + intros Heq. destruct (keySet_onMount (Mount fs) w) as [-> ->].
      by rewrite Heq.
    + rewrite emit_mount by done. by rewrite Hrun.
  - (* rename *)
    assert (exists w1,
      (if mounted old then onUnmount (Unmount old) w else Js.Ok w) = Js.Ok w1
      /\ registryCovers w1 /\ abortController w1 = abortController w
      /\ listeners w1 = listeners w
      /\ JsObject.keySet (deletionWatchers w) ∖ {[eventKey (Unmount old)]}
           ⊆ JsObject.keySet (deletionWatchers w1)
      /\ (JsObject.keySet (filesystemMap w)
          = JsObject.keySet (deletionWatchers w) ->
          JsObject.keySet (filesystemMap w1)
          = JsObject.keySet (deletionWatchers w1))) as
      (w1 & Hw1 & Hcov1 & Hab1 & Hls1 & Hsub1 & Heq1).
    { destruct (mounted old).
      - destruct (onUnmount_covers (Unmount old) w Hcov)
          as (w1 & Hw1 & Hcov1 & Hab1 & Hls1 & Hr1 & Hm1).
        { destruct Happ as (_ & Hkeys & _). apply (Hkeys (Rename new old));
            [left | done]. }
        exists w1. repeat (split; [done|]). split.
        + rewrite Hr1, keySet_delete. done.
        + intros Heq. rewrite Hr1, Hm1, !keySet_delete. by rewrite Heq.
      - exists w. repeat (split; [done|]). split; [set_solver | done]. }
    apply (Hfinish (if mounted new then onMount (Mount new) w1 else w1)).
    + by destruct (mounted new).
    + by destruct (mounted new).
    + destruct (mounted new); [by apply onMount_covers | done].
    + done.
    + intros _. destruct (mounted new); [|done].
      destruct (keySet_onMount (Mount new) w1) as [-> _].
      unfold eventKey in *. simpl in *. set_solver.
    + intros Heq. specialize (Heq1 Heq). destruct (mounted new); [|done].
      destruct (keySet_onMount (Mount new) w1) as [-> ->]. by rewrite Heq1.
    + rewrite emit_rename by done. rewrite Hrun. unfold onRename.
      change (mret w) with (Js.Ok w). rewrite Hw1. reflexivity.
  - (* unmount *)
    destruct (onUnmount_covers (Unmount old) w Hcov)
      as (w1 & Hw1 & Hcov1 & Hab1 & Hls1 & Hr1 & Hm1).
    { destruct Happ as (_ & Hkeys & _). apply (Hkeys (Unmount old));
        [left | done]. }
    apply (Hfinish w1); try done.
    + intros _. rewrite Hr1, keySet_delete. done.
    + intros Heq. rewrite Hr1, Hm1, !keySet_delete. by rewrite Heq.
    + rewrite emit_unmount by done. by rewrite Hrun.
Qed.

Lemma emitEvents_applicable (events : list FileSystemEvent) w :
  consistent w -> running w = true -> applicable events w ->
  exists w',
    reduce emitEvent events w = Js.Ok w' /\ consistent w'
    /\ running w' = true
    /\ (JsObject.keySet (filesystemMap w)
        = JsObject.keySet (deletionWatchers w) ->
        JsObject.keySet (filesystemMap w')
        = JsObject.keySet (deletionWatchers w')).
Proof.
  revert w. induction events as [|e rest IH]; intros w Hc Hrun Happ; simpl.
  - by exists w.
  - destruct (emitEvent_applicable e rest w Hc Hrun Happ)
      as (w1 & -> & Hc1 & Hrun1 & Happ1 & Heq1). simpl.
    destruct (IH w1 Hc1 Hrun1 Happ1) as (w' & -> & Hc' & Hrun' & Heq').
    exists w'. repeat (split; [done|]). intros Heq. by apply Heq', Heq1.
Qed.

End CycleFacts.

Section MonitorFacts.
Context `{Host}.
Implicit Types (w : World) (e : FileSystemEvent).

Lemma filter_none {A} (f : A -> bool) (l : list A) :
  Forall (fun x => f x = false) l -> List.filter f l = [].
Proof.
  induction 1 as [|x l Hx _ IH]; simpl; [done|]. by rewrite Hx.
Qed.

Lemma filter_all {A} (f : A -> bool) (l : list A) :
  Forall (fun x => f x = true) l -> List.filter f l = l.
Proof.
  induction 1 as [|x l Hx _ IH]; simpl; [done|]. by rewrite Hx, IH.
Qed.

Lemma keyed_keys (m : JsObject.t FileSystem) :
  keyed m ->
  map (fun v => Js.propKey (mountpoint v)) (JsObject.values m)
  = JsObject.keys m.
Proof.
  unfold JsObject.values, JsObject.keys. intros Hk.
  induction m as [|[k v] m IH]; simpl; [done|].
  rewrite (Hk k v) by left. f_equal. apply IH.
  intros k' v' Hin. apply Hk. by right.
Qed.

Lemma uuidMap_from_snapshot (newState : list FileSystem)
  (acc : JsObject.t FileSystem) (u : string) (fs : FileSystem) :
  JsObject.get
    (fold_left (fun R x => JsObject.set R (uuid x) x) newState acc) u
  = Some fs ->
  fs ∈ newState \/ JsObject.get acc u = Some fs.
Proof.
  revert acc. induction newState as [|x l IH]; intros acc; simpl.
  - by right.
  - intros Hg. destruct (IH _ Hg) as [Hin|Hacc]; [left; by right|].
    destruct (decide (uuid x = u)) as [<-|Hne].
    + rewrite get_set_eq in Hacc. injection Hacc as <-. left. left.
    + rewrite get_set_ne in Hacc by done. by right.
Qed.

Lemma diff_applicable disk w newState completion st :
  registryCovers w -> completion ≡ₚ newState -> Forall sortable newState ->
  stateOf (filesystemMap w) = Js.Ok st ->
  applicable (mountPass disk (filesystemMap w) completion
              ++ unmountRenamePass newState st) w.
Proof.
  intros (Hnd & Hkeyed & Hsort & Hsub) Hperm Hnew Hst.
  pose proof (stateOf_perm _ _ Hst) as Hst_perm.
  pose proof (unmountRenamePass_not_isMount newState st) as Hothers.
  pose proof (mountPass_isMount disk (filesystemMap w) completion) as Hmounts.
  assert (forall e, e ∈ unmountRenamePass newState st ->
            subject e ∈ JsObject.values (filesystemMap w)) as Hsubj.
  { intros e He. rewrite <- Hst_perm.
    apply (sublist_subseteq _ _ (unmountRenamePass_order newState st)).
    apply list_elem_of_fmap. by exists e. }
  unfold applicable. split; [|split].
  - rewrite List.filter_app, filter_none, filter_all.
    + simpl.
      replace (map eventKey (unmountRenamePass newState st))
        with (map (fun v => Js.propKey (mountpoint v))
                  (map subject (unmountRenamePass newState st)))
        by (by rewrite map_map).
      apply (sublist_NoDup _
               (map (fun v => Js.propKey (mountpoint v)) st)).
      * rewrite Hst_perm, keyed_keys; done.
      * apply (fmap_sublist (fun v => Js.propKey (mountpoint v))),
          unmountRenamePass_order.
    + eapply Forall_impl; [exact Hothers|]. intros e ->. done.
    + eapply Forall_impl; [exact Hmounts|]. intros e ->. done.
  - intros e He Hm. apply elem_of_app in He as [He|He].
    + rewrite Forall_forall in Hmounts. specialize (Hmounts _ He). congruence.
    + apply Hsub. unfold JsObject.keySet. rewrite elem_of_list_to_set.
      rewrite <- keyed_keys by done. apply list_elem_of_fmap.
      exists (subject e). split; [done | by apply Hsubj].
  - apply Forall_app. split; apply Forall_forall; intros e He.
    + apply mountPass_elem in He as (fs & Hfs & -> & _). simpl.
      rewrite Forall_forall in Hnew. apply Hnew. by rewrite <- Hperm.
    + pose proof (Hsubj e He) as Hin.
      apply unmountRenamePass_elem in He as (old & _ & He).
      apply unmountRenameStep_elem in He
        as [[_ ->]|(fs & Hg & _ & ->)]; simpl in *.
      * rewrite Forall_forall in Hsort. by apply Hsort.
      * apply uuidMap_from_snapshot in Hg as [Hfs|Hg]; [|done].
        rewrite Forall_forall in Hnew. by apply Hnew.
Qed.

Lemma emit_refresh_consistent w :
  consistent w ->
  exists w', emit "refresh" None w = Js.Ok w' /\ consistent w'
             /\ sameStore w w'.
Proof.
  intros [Hatt Hcov].
  pose proof Hatt as (Hm & Hr & Hu & Hc & Hall & Href).
  destruct (callAll_resolvers (listenersOf "refresh" w) w Href)
    as (w' & Hemit & Hsame & Hother & Hrefresh & _).
  exists w'. split; [done|]. split; [|done]. split.
  - pose proof Hsame as (Hab & _ & _).
    unfold handlersAttached, running. rewrite Hab.
    rewrite !Hother by done. repeat (split; [done|]). by apply Hrefresh.
  - by apply (registryCovers_frame w).
Qed.

Lemma monitorCycle_consistent disk newState completion w :
  consistent w -> completion ≡ₚ newState -> Forall sortable newState ->
  exists w',
    monitorCycle disk newState completion w = Js.Ok w' /\ consistent w'
    /\ running w' = running w
    /\ (running w = false -> w' = w)
    /\ (sameKeys w -> sameKeys w').
Proof.
  intros Hc Hperm Hnew. unfold monitorCycle.
  destruct (running w) eqn:Hrun; [|by exists w].
  pose proof Hc as [Hatt Hcov].
  destruct (stateOf_ok (filesystemMap w)) as [st Hst]; [apply Hcov|].
  rewrite (diff_ok _ _ _ _ _ Hst). simpl.
  destruct (emitEvents_applicable _ w Hc Hrun
              (diff_applicable disk w newState completion st
                 Hcov Hperm Hnew Hst))
    as (w1 & -> & Hc1 & Hrun1 & Heq1). simpl.
  rewrite emit_changed by apply Hc1. simpl.
  destruct (emit_refresh_consistent w1 Hc1) as (w' & -> & Hc' & Hsame).
  exists w'. split; [done|]. split; [done|].
  destruct Hsame as (Hab & Hm & Hr). split; [|split; [done|]].
  - unfold running in *. by rewrite Hab.
  - unfold sameKeys. rewrite Hm, Hr. exact Heq1.
Qed.

End MonitorFacts.

(** ** Every action keeps the monitor consistent *)

Section ActionFacts.
Context `{Host}.
Implicit Types (w : World) (a : Action).

Lemma consistent_initial : consistent initial.
Proof.
  split.
  - unfold handlersAttached. simpl. repeat split; constructor.
  - unfold registryCovers. simpl. repeat split; try constructor.
    + intros k v Hin. by apply elem_of_nil in Hin.
    + done.
Qed.

Lemma nextRefresh_consistent w :
  consistent w ->
  consistent (fst (nextRefresh w)) /\ sameStore w (fst (nextRefresh w)).
Proof.
  intros [Hatt Hcov]. unfold nextRefresh.
  destruct (running w) eqn:Hrun; simpl; [|done].
  split; [|done]. split; [|done].
  destruct Hatt as (Hm & Hr & Hu & Hc & Hall & Href).
  unfold handlersAttached, listenersOf, running in *. simpl.
  rewrite !listenersIn_app, !listenersIn_singleton.
  decide_names.
  rewrite !app_nil_r. repeat (split; [done|]).
  apply Forall_app. split; [done|]. apply Forall_singleton. by eexists.
Qed.

Lemma start_consistent w :
  consistent w ->
  consistent (fst (start w))
  /\ (unstarted w -> sameKeys (fst (start w))).
Proof.
  intros Hc. unfold start. destruct (running w) eqn:Hrun.
  - simpl. split; [done|]. intros [Hno _]. congruence.
  - pose proof Hc as [(Hm & Hr & Hu & Hch & Hall & Href) Hcov].
    rewrite Hrun in Hm, Hr, Hu.
    set (w0 := {| abortController := Some tt;
                  filesystemMap := JsObject.empty;
                  listeners := ((listeners w ++ [("mount", OnMount)])
                                ++ [("rename", OnRename)])
                               ++ [("unmount", OnUnmount)];
                  deletionWatchers := deletionWatchers w;
                  heap := heap w; promises := promises w;
                  queues := queues w |}).
    change (consistent (fst (nextRefresh w0))
            /\ (unstarted w -> sameKeys (fst (nextRefresh w0)))).
    assert (consistent w0) as Hc0.
    { split.
      - unfold handlersAttached, listenersOf in *. simpl.
        rewrite !listenersIn_app, !listenersIn_singleton.
        decide_names.
        rewrite Hm, Hr, Hu, Hch, !app_nil_r. simpl.
        repeat (split; [done|]). done.
      - destruct Hcov as (_ & _ & _ & _). unfold registryCovers. simpl.
        repeat split; try constructor.
        + intros k v Hin. by apply elem_of_nil in Hin.
        + set_solver. }
    destruct (nextRefresh_consistent _ Hc0) as [Hc1 (_ & Hm1 & Hr1)].
    split; [done|]. intros [_ Hempty]. unfold sameKeys.
    rewrite Hm1, Hr1. simpl. by rewrite Hempty.
Qed.

Lemma stop_consistent w :
  consistent w -> consistent (stop w)
  /\ filesystemMap (stop w) = filesystemMap w
  /\ deletionWatchers (stop w) = deletionWatchers w
  /\ (running w = false -> stop w = w).
Proof.
  intros [Hatt Hcov]. unfold stop.
  destruct (running w) eqn:Hrun; simpl; [|done].
  split; [|done]. split; [|done].
  destruct Hatt as (Hm & Hr & Hu & Hc & Hall & Href).
  unfold handlersAttached, listenersOf, running in *. simpl.
  destruct (abortController w); [|done].
  split; [|split; [|split; [|split; [|split]]]].
  - rewrite !listenersIn_removeLast_ne by discriminate.
    by apply listenersIn_removeLast_only.
  - rewrite listenersIn_removeLast_ne by discriminate.
    apply listenersIn_removeLast_only.
    by rewrite listenersIn_removeLast_ne by discriminate.
  - apply listenersIn_removeLast_only.
    by rewrite !listenersIn_removeLast_ne by discriminate.
  - by do 3 apply listenersIn_removeLast_nil.
  - by do 3 apply listenersIn_removeLast_Forall.
  - by do 3 apply listenersIn_removeLast_Forall.
Qed.

Lemma watcherCallback_consistent path w :
  consistent w ->
  exists w', watcherCallback path w = Js.Ok w' /\ consistent w'
             /\ running w' = running w
             /\ (running w = false -> sameStore w w')
             /\ (sameKeys w -> sameKeys w').
Proof.
  intros Hc. pose proof Hc as [Hatt Hcov]. unfold watcherCallback.
  destruct (JsObject.get (filesystemMap w) path) as [fs|] eqn:Hg;
    [|by exists w].
  assert (exists w1, emit "unmount" (Some (Unmount fs)) w = Js.Ok w1
                     /\ consistent w1 /\ running w1 = running w
                     /\ (running w = false -> w1 = w)
                     /\ (sameKeys w -> sameKeys w1))
    as (w1 & -> & Hc1 & Hrun1 & Hstop1 & Heq1).
  { rewrite emit_unmount by done. destruct (running w) eqn:Hrun;
      [|by exists w].
    destruct (onUnmount_covers (Unmount fs) w Hcov)
      as (w1 & Hw1 & Hcov1 & Hab1 & Hls1 & Hr1 & Hm1).
    { destruct Hcov as (_ & Hkeyed & _ & Hsub). apply Hsub.
      unfold eventKey. simpl.
      rewrite (Hkeyed path fs) by (by apply get_Some_elem).
      apply get_is_Some_keySet. by eexists. }
    exists w1. split; [done|]. split; [split; [|done]|split].
    - by apply (handlersAttached_frame w).
    - unfold running in *. by rewrite Hab1.
    - split; [done|]. unfold sameKeys.
      intros Heq. rewrite Hr1, Hm1, !keySet_delete. by rewrite Heq. }
  simpl. destruct (emit_all (Unmount fs) w1) as (w2 & -> & Hsame & Hls2);
    [apply Hc1|]. simpl.
  assert (consistent w2) as Hc2.
  { destruct Hsame as (Hab & ? & ?). split.
    - apply (handlersAttached_frame w1); [done|done|apply Hc1].
    - apply (registryCovers_frame w1); [done|apply Hc1]. }
  rewrite emit_changed by apply Hc2. exists w2. split; [done|].
  split; [done|]. destruct Hsame as (Hab & Hm & Hr).
  split; [|split].
  - unfold running in *. by rewrite Hab.
  - intros Hno. rewrite (Hstop1 Hno) in *. done.
  - unfold sameKeys in *. intros Heq. rewrite Hm, Hr. by apply Heq1.
Qed.

Lemma watcherInput_consistent ref i w :
  consistent w ->
  exists w', watcherInput ref i w = Js.Ok w' /\ consistent w'
             /\ running w' = running w
             /\ (running w = false -> sameStore w w')
             /\ (sameKeys w -> sameKeys w').
Proof.
  intros Hc. unfold watcherInput.
  destruct (heap w !! ref) as [fdw|]; [|by exists w].
  match goal with |- context [watcherCallback ?p ?w0] =>
    assert (consistent w0) as Hc0 by
      (destruct Hc as [Hatt Hcov]; split;
       [by apply (handlersAttached_frame w)
       | by apply (registryCovers_frame w)]);
    destruct (watcherCallback_consistent p w0 Hc0)
      as (w' & Hcb & Hc' & Hrun' & Hstop' & Heq')
  end.
  destruct (_ <? _)%nat.
  - exists w'. split; [done|]. split; [done|].
    split; [done|]. split; [|done].
    intros Hno. destruct (Hstop' Hno) as (? & ? & ?). by repeat split.
  - eexists. split; [reflexivity|]. split; [exact Hc0|].
    split; [done|]. split; [by intros _|]. by intros Heq.
Qed.

Lemma act_consistent a w :
  consistent w -> wellFormedAction a ->
  exists w',
    act w a = Js.Ok w' /\ consistent w'
    /\ (isStart a = false -> sameKeys w -> sameKeys w')
    /\ (isStart a = false -> unstarted w -> unstarted w')
    /\ (isStart a = true -> unstarted w -> sameKeys w').
Proof.
  intros Hc Hwf. destruct a as [| | |disk newState completion|ref i]; simpl.
  - destruct (start_consistent w Hc) as [Hc' Heq].
    eexists. split; [reflexivity|]. split; [exact Hc'|].
    split; [done|]. split; [done|]. by intros _.
  - destruct (stop_consistent w Hc) as (Hc' & Hm & Hr & Hstop).
    eexists. split; [reflexivity|]. split; [done|].
    split; [|split; [|done]].
    + unfold sameKeys. by rewrite Hm, Hr.
    + intros _ [Hrun Hempty]. by rewrite (Hstop Hrun).
  - destruct (nextRefresh_consistent w Hc) as [Hc' (Hab & Hm & Hr)].
    eexists. split; [reflexivity|]. split; [done|].
    split; [|split; [|done]].
    + unfold sameKeys. by rewrite Hm, Hr.
    + intros _ [Hrun Hempty]. unfold unstarted, running in *.
      by rewrite Hab, Hr.
  - destruct Hwf as [Hperm Hnew].
    destruct (monitorCycle_consistent disk newState completion w Hc Hperm Hnew)
      as (w' & Hw' & Hc' & Hrun' & Hstop' & Heq').
    exists w'. split; [done|]. split; [done|].
    split; [done|]. split; [|done].
    intros _ [Hrun Hempty]. by rewrite (Hstop' Hrun).
  - destruct (watcherInput_consistent ref i w Hc)
      as (w' & Hw' & Hc' & Hrun' & Hstop' & Heq').
    exists w'. split; [done|]. split; [done|].
    split; [done|]. split; [|done].
    intros _ [Hrun Hempty]. destruct (Hstop' Hrun) as (Hab & Hm & Hr).
    unfold unstarted, running in *. by rewrite Hab, Hr.
Qed.

Lemma runActions_consistent (actions : list Action) w :
  consistent w -> Forall wellFormedAction actions ->
  exists w',
    runActions w actions = Js.Ok w' /\ consistent w'
    /\ (startsIn actions = 0%nat -> sameKeys w -> sameKeys w')
    /\ ((startsIn actions <= 1)%nat -> unstarted w -> sameKeys w ->
        sameKeys w').
Proof.
  revert w. induction actions as [|a actions IH]; intros w Hc Hwf.
  - exists w. split; [done|]. split; [exact Hc|]. split; auto.
  - apply Forall_cons in Hwf as [Hwfa Hwf].
    destruct (act_consistent a w Hc Hwfa)
      as (w1 & Hact & Hc1 & Hkeep & Hfresh & Hstart).
    destruct (IH w1 Hc1 Hwf) as (w' & Hrun & Hc' & Hzero & Hone).
    exists w'. unfold runActions in *. simpl. rewrite Hact. simpl.
    split; [done|]. split; [done|].
    unfold startsIn in *. simpl.
    destruct (isStart a) eqn:Ha; simpl; split.
    + intros Hcount. lia.
    + intros Hcount Hun Heq. apply Hzero; [lia|]. by apply Hstart.
    + intros Hcount Heq. apply Hzero; [done|]. by apply Hkeep.
    + intros Hcount Hun Heq. apply Hone; [done| |]; auto.
Qed.

Lemma filter_sublist {A} (f : A -> bool) (l1 l2 : list A) :
  l1 `sublist_of` l2 -> List.filter f l1 `sublist_of` List.filter f l2.
Proof.
  induction 1 as [|x l1 l2 _ IH|x l1 l2 _ IH]; simpl.
  - done.
  - destruct (f x); [by apply sublist_skip | done].
  - destruct (f x); [by apply sublist_cons | done].
Qed.

Lemma applicable_take (n : nat) (events : list FileSystemEvent) w :
  applicable events w -> applicable (take n events) w.
Proof.
  intros (Hnd & Hkeys & Hsort). unfold applicable. split; [|split].
  - eapply sublist_NoDup; [exact Hnd|].
    apply (fmap_sublist eventKey), filter_sublist, sublist_take.
  - intros e He. apply Hkeys.
    by apply (elem_of_sublist _ _ _ He), sublist_take.
  - by apply Forall_take.
Qed.

(** Inside a cycle: after the handlers of any number of its events. *)
Lemma cycle_prefix_covers disk newState completion w st (n : nat) :
  consistent w -> running w = true ->
  completion ≡ₚ newState -> Forall sortable newState ->
  state w = Js.Ok st ->
  exists w',
    reduce emitEvent
      (take n (mountPass disk (filesystemMap w) completion
               ++ unmountRenamePass newState st)) w = Js.Ok w'
    /\ JsObject.keySet (filesystemMap w')
         ⊆ JsObject.keySet (deletionWatchers w')
    /\ (sameKeys w -> sameKeys w').
Proof.
  intros Hc Hrun Hperm Hnew Hst. pose proof Hc as [_ Hcov].
  destruct (emitEvents_applicable
              (take n (mountPass disk (filesystemMap w) completion
                       ++ unmountRenamePass newState st)) w Hc Hrun)
    as (w' & Hw' & [_ (_ & _ & _ & Hsub)] & _ & Heq).
  { apply applicable_take. by apply diff_applicable. }
  by exists w'.
Qed.

(** C10, as the code has it: in every run of one monitor from its
    construction (start, stop, nextRefresh, poll cycles on snapshots as
    [getNewState] builds them, inputs to the deletion watchers), no
    handler fails: every unmount that reaches [#onUnmount] finds a
    registered watcher.  After every action, and inside a poll cycle after
    the handlers of each of its events, the mountpoint keys of the state
    map are keys of the registry, and the two key sets are equal as long
    as [start] has been called at most once; a later [start] empties the
    state map and leaves the registry as it is. *)
Theorem registry_covers_state (actions : list Action) :
  Forall wellFormedAction actions ->
  exists w,
    runActions initial actions = Js.Ok w
    /\ JsObject.keySet (filesystemMap w)
         ⊆ JsObject.keySet (deletionWatchers w)
    /\ ((startsIn actions <= 1)%nat ->
        JsObject.keySet (filesystemMap w)
        = JsObject.keySet (deletionWatchers w))
    /\ (forall disk newState completion st (n : nat),
          running w = true ->
          completion ≡ₚ newState -> Forall sortable newState ->
          state w = Js.Ok st ->
          exists w',
            reduce emitEvent
              (take n (mountPass disk (filesystemMap w) completion
                       ++ unmountRenamePass newState st)) w = Js.Ok w'
            /\ JsObject.keySet (filesystemMap w')
                 ⊆ JsObject.keySet (deletionWatchers w')
            /\ ((startsIn actions <= 1)%nat ->
                JsObject.keySet (filesystemMap w')
                = JsObject.keySet (deletionWatchers w'))).
Proof.
  intros Hwf.
  destruct (runActions_consistent actions initial consistent_initial Hwf)
    as (w & Hrun & Hc & _ & Hone).
  pose proof Hc as [_ (_ & _ & _ & Hsub)].
  assert ((startsIn actions <= 1)%nat -> sameKeys w) as Heq.
  { intros Hcount. by apply Hone. }
  exists w. split; [done|]. split; [done|]. split; [done|].
  intros disk newState completion st n Hgo Hperm Hnew Hst.
  destruct (cycle_prefix_covers disk newState completion w st n
              Hc Hgo Hperm Hnew Hst) as (w' & Hw' & Hsub' & Heq').
  exists w'. split; [done|]. split; [done|].
  intros Hcount. by apply Heq', Heq.
Qed.

End ActionFacts.

(** A run with one start. *)
Lemma registry_covers_state_witness :
  exists w,
    runActions (H := exampleHost) initial singleRun = Js.Ok w
    /\ JsObject.keySet (filesystemMap w)
         ⊆ JsObject.keySet (deletionWatchers w)
    /\ ((startsIn singleRun <= 1)%nat ->
        JsObject.keySet (filesystemMap w)
        = JsObject.keySet (deletionWatchers w))
    /\ (forall disk newState completion st (n : nat),
          running w = true ->
          completion ≡ₚ newState -> Forall sortable newState ->
          state (H := exampleHost) w = Js.Ok st ->
          exists w',
            reduce emitEvent
              (take n (mountPass disk (filesystemMap w) completion
                       ++ unmountRenamePass newState st)) w = Js.Ok w'
            /\ JsObject.keySet (filesystemMap w')
                 ⊆ JsObject.keySet (deletionWatchers w')
            /\ ((startsIn singleRun <= 1)%nat ->
                JsObject.keySet (filesystemMap w')
                = JsObject.keySet (deletionWatchers w'))).
Proof.
  apply (registry_covers_state (H := exampleHost) singleRun).
  unfold singleRun.
  repeat (apply Forall_cons; split); try apply Forall_nil;
    try exact I; simpl.
  - split; [apply Permutation_swap|]. repeat constructor; done.
  - split; [done|]. repeat constructor; done.
  - split; [done|]. repeat constructor; done.
Defined.

(** C10 as stated fails across a restart: [start] empties the state map
    and leaves the registry as it is, so after the mount handler of the
    first cycle of the second run the registry still has the key of the
    volume of the first run, which the state map has not. *)
Lemma registry_outlives_restart :
  exists w,
    runActions (H := exampleHost) initial restartRun = Js.Ok w
    /\ JsObject.keys (filesystemMap w) = ["/mnt/b"]
    /\ JsObject.keys (deletionWatchers w) = ["/mnt/a"; "/mnt/b"]
    /\ JsObject.keySet (filesystemMap w)
       <> JsObject.keySet (deletionWatchers w).
Proof.
  eexists. split; [vm_compute; reflexivity|].
  split; [reflexivity|]. split; [reflexivity|].
  intros Heq.
  match type of Heq with
  | _ = ?R =>
      assert ("/mnt/a" ∈ R) as Hin
        by (apply get_is_Some_keySet; by eexists)
  end.
  rewrite <- Heq in Hin. apply get_is_Some_keySet in Hin as [v Hv].
  discriminate Hv.
Qed.

(** ** [nextRefresh] *)

Section RefreshFacts.
Context `{Host}.
Implicit Types (w : World) (e : FileSystemEvent).

Lemma callAll_iterables_promises name (ls : list Listener) e w w' :
  Forall (fun l => exists q, l = EventIterable q) ls ->
  callAll name ls (Some e) w = Js.Ok w' -> promises w' = promises w.
Proof.
  revert w. induction ls as [|l ls IH]; intros w Hall; simpl.
  - by intros [= <-].
  - apply Forall_cons in Hall as [[q ->] Hall]. simpl.
    intros Hcall. by rewrite (IH _ Hall Hcall).
Qed.

Lemma onUnmount_frame e w w' :
  onUnmount e w = Js.Ok w' ->
  listeners w' = listeners w /\ promises w' = promises w
  /\ abortController w' = abortController w.
Proof.
  unfold onUnmount. destruct (JsObject.get _ _); [|done].
  by intros [= <-].
Qed.

Lemma onRename_frame e w w' :
  onRename e w = Js.Ok w' ->
  listeners w' = listeners w /\ promises w' = promises w
  /\ abortController w' = abortController w.
Proof.
  unfold onRename. destruct e as [|new old|]; [done| |done].
  destruct (mounted old).
  - destruct (onUnmount (Unmount old) w) as [w1|] eqn:Hw1; [|done].
    apply onUnmount_frame in Hw1 as (Hl & Hp & Ha). simpl.
    intros [= <-]. by destruct (mounted new).
  - simpl. intros [= <-]. by destruct (mounted new).
Qed.

Lemma emitEvent_frame e w w' :
  handlersAttached w -> emitEvent w e = Js.Ok w' ->
  listeners w' = listeners w /\ promises w' = promises w
  /\ abortController w' = abortController w.
Proof.
  intros Hatt. unfold emitEvent.
  destruct (emit (typeName e) (Some e) w) as [w1|] eqn:Hw1; [|done]. simpl.
  assert (listeners w1 = listeners w /\ promises w1 = promises w
          /\ abortController w1 = abortController w) as (Hl1 & Hp1 & Ha1).
  { destruct e; simpl in Hw1.
    - rewrite emit_mount in Hw1 by done. injection Hw1 as <-.
      by destruct (running w).
    - rewrite emit_rename in Hw1 by done.
      destruct (running w); [by apply onRename_frame in Hw1|].
      by injection Hw1 as <-.
    - rewrite emit_unmount in Hw1 by done.
      destruct (running w); [by apply onUnmount_frame in Hw1|].
      by injection Hw1 as <-. }
  intros Hall.
  assert (handlersAttached w1) as Hatt1
    by (by apply (handlersAttached_frame w)).
  destruct (emit_all e w1 Hatt1) as (w2 & Hw2 & (Ha2 & _ & _) & Hl2).
  rewrite Hall in Hw2. injection Hw2 as <-.
  apply callAll_iterables_promises in Hall; [|apply Hatt1].
  by rewrite Hl2, Hall, Ha2.
Qed.

Lemma emitEvents_frame (events : list FileSystemEvent) w w' :
  handlersAttached w -> reduce emitEvent events w = Js.Ok w' ->
  listeners w' = listeners w /\ promises w' = promises w
  /\ abortController w' = abortController w.
Proof.
  revert w. induction events as [|e events IH]; intros w Hatt; simpl.
  - by intros [= <-].
  - destruct (emitEvent w e) as [w1|] eqn:Hw1; [|done]. simpl.
    destruct (emitEvent_frame e w w1 Hatt Hw1) as (Hl & Hp & Ha).
    intros Hrest. apply IH in Hrest as (Hl' & Hp' & Ha').
    + by rewrite Hl', Hp', Ha'.
    + by apply (handlersAttached_frame w).
Qed.

(** A completed poll cycle resolves every promise whose resolver is
    registered on ["refresh"]. *)
Lemma monitorCycle_resolves disk newState completion w p :
  consistent w -> running w = true ->
  completion ≡ₚ newState -> Forall sortable newState ->
  OnceResolve p ∈ listenersOf "refresh" w ->
  (p < List.length (promises w))%nat ->
  exists w', monitorCycle disk newState completion w = Js.Ok w'
             /\ promises w' !! p = Some true.
Proof.
  intros Hc Hrun Hperm Hnew Hp Hlt. unfold monitorCycle. rewrite Hrun.
  pose proof Hc as [Hatt Hcov].
  destruct (stateOf_ok (filesystemMap w)) as [st Hst]; [apply Hcov|].
  rewrite (diff_ok _ _ _ _ _ Hst). simpl.
  destruct (emitEvents_applicable _ w Hc Hrun
              (diff_applicable disk w newState completion st
                 Hcov Hperm Hnew Hst))
    as (w1 & Hw1 & Hc1 & Hrun1 & _). rewrite Hw1. simpl.
  destruct (emitEvents_frame _ w w1 Hatt Hw1) as (Hl1 & Hp1 & _).
  rewrite emit_changed by apply Hc1. simpl.
  destruct Hc1 as [(_ & _ & _ & _ & _ & Href) _].
  destruct (callAll_resolvers (listenersOf "refresh" w1) w1 Href)
    as (w' & Hemit & _ & _ & _ & _ & _ & Hres).
  exists w'. split; [exact Hemit|]. apply Hres.
  - unfold listenersOf in *. by rewrite Hl1.
  - by rewrite Hp1.
Qed.

Lemma watcherCallback_frame path w w' :
  handlersAttached w -> watcherCallback path w = Js.Ok w' ->
  listeners w' = listeners w /\ promises w' = promises w
  /\ abortController w' = abortController w.
Proof.
  intros Hatt. unfold watcherCallback.
  destruct (JsObject.get (filesystemMap w) path) as [fs|];
    [|by intros [= <-]].
  destruct (emit "unmount" (Some (Unmount fs)) w) as [w1|] eqn:Hw1;
    [|done]. simpl.
  destruct (emit "all" (Some (Unmount fs)) w1) as [w2|] eqn:Hw2;
    [|done]. simpl.
  assert (emitEvent w (Unmount fs) = Js.Ok w2) as Hev.
  { unfold emitEvent. simpl. rewrite Hw1. simpl. exact Hw2. }
  destruct (emitEvent_frame _ _ _ Hatt Hev) as (Hl & Hp & Ha).
  rewrite emit_changed by (by apply (handlersAttached_frame w)).
  by intros [= <-].
Qed.

Lemma watcherInput_frame ref i w w' :
  handlersAttached w -> watcherInput ref i w = Js.Ok w' ->
  listeners w' = listeners w /\ promises w' = promises w
  /\ abortController w' = abortController w.
Proof.
  intros Hatt. unfold watcherInput.
  destruct (heap w !! ref) as [fdw|]; [|by intros [= <-]].
  destruct (_ <? _)%nat; [|by intros [= <-]].
  intros Hcb. apply watcherCallback_frame in Hcb; [done|].
  by apply (handlersAttached_frame w).
Qed.

(** A resolver registered on ["refresh"] stays registered, and the monitor
    stays running, through watcher inputs and further [nextRefresh]
    calls. *)
Lemma quiet_keeps_resolver (mid : list Action) w p :
  consistent w -> running w = true ->
  OnceResolve p ∈ listenersOf "refresh" w ->
  (p < List.length (promises w))%nat ->
  promises w !! p = Some false ->
  Forall quiet mid ->
  exists w', runActions w mid = Js.Ok w' /\ consistent w'
             /\ running w' = true
             /\ OnceResolve p ∈ listenersOf "refresh" w'
             /\ (p < List.length (promises w'))%nat
             /\ promises w' !! p = Some false.
Proof.
  revert w. induction mid as [|a mid IH]; intros w Hc Hrun Hp Hlt Hpend Hq.
  - exists w. by repeat (split; [done|]).
  - apply Forall_cons in Hq as [Hqa Hq].
    assert (wellFormedAction a) as Hwf by (by destruct a).
    destruct (act_consistent a w Hc Hwf) as (w1 & Hact & Hc1 & _).
    assert (running w1 = true
            /\ OnceResolve p ∈ listenersOf "refresh" w1
            /\ (p < List.length (promises w1))%nat
            /\ promises w1 !! p = Some false) as (Hrun1 & Hp1 & Hlt1 & Hpend1).
    { destruct a as [| | |disk newState completion|ref i]; try done;
        simpl in Hact.
      - injection Hact as <-. unfold nextRefresh. rewrite Hrun. simpl.
        unfold running, listenersOf in *. simpl.
        split; [done|]. split; [|split].
        + rewrite listenersIn_app. apply elem_of_app. by left.
        + rewrite length_app. lia.
        + by apply lookup_app_l_Some.
      - destruct (watcherInput_frame ref i w w1) as (Hl & Hpr & Ha);
          [apply Hc | done |].
        unfold running, listenersOf in *. by rewrite Hl, Hpr, Ha. }
    destruct (IH w1 Hc1 Hrun1 Hp1 Hlt1 Hpend1 Hq)
      as (w' & Hrest & Hc' & Hrun' & Hp' & Hlt' & Hpend').
    exists w'. unfold runActions in *. simpl. rewrite Hact. simpl.
    by repeat (split; [done|]).
Qed.

(** C9: in every state a monitor reaches, [nextRefresh] is rejected if
    and only if the monitor is stopped, and then with the message "Mountie
    is not running" and no change at all; while the monitor runs the
    returned promise is pending, the call changes neither the running flag
    nor the state map nor the registry, and the promise stays pending
    through watcher inputs and further [nextRefresh] calls and is resolved
    by the next poll cycle, when it emits its refresh signal. *)
Theorem nextRefresh_rejects_iff_stopped (actions : list Action) (w : World) :
  Forall wellFormedAction actions ->
  runActions initial actions = Js.Ok w ->
  ((exists err, snd (nextRefresh w) = Rejected err) <-> running w = false)
  /\ (running w = false ->
      nextRefresh w = (w, Rejected (Js.ErrorMsg "Mountie is not running")))
  /\ (running w = true ->
      exists p,
        snd (nextRefresh w) = Pending p
        /\ promises (fst (nextRefresh w)) !! p = Some false
        /\ sameStore w (fst (nextRefresh w))
        /\ state (fst (nextRefresh w)) = state w
        /\ forall mid disk newState completion,
             Forall quiet mid ->
             completion ≡ₚ newState -> Forall sortable newState ->
             exists w1 w2,
               runActions (fst (nextRefresh w)) mid = Js.Ok w1
               /\ promises w1 !! p = Some false
               /\ monitorCycle disk newState completion w1 = Js.Ok w2
               /\ promises w2 !! p = Some true).
Proof.
  intros Hwf Hrun.
  destruct (runActions_consistent actions initial consistent_initial Hwf)
    as (w0 & Hrun0 & Hc & _).
  rewrite Hrun in Hrun0. injection Hrun0 as <-.
  split; [|split].
  - unfold nextRefresh. destruct (running w); simpl.
    + split; [by intros [err ?] | done].
    + split; [done | intros _; by eexists].
  - intros Hstop. unfold nextRefresh. by rewrite Hstop.
  - intros Hgo.
    destruct (nextRefresh_consistent w Hc) as [Hc1 Hsame].
    exists (List.length (promises w)).
    assert (nextRefresh w
            = ({| abortController := abortController w;
                  filesystemMap := filesystemMap w;
                  listeners := listeners w
                    ++ [("refresh", OnceResolve (List.length (promises w)))];
                  deletionWatchers := deletionWatchers w;
                  heap := heap w;
                  promises := promises w ++ [false];
                  queues := queues w |},
               Pending (List.length (promises w)))) as Heq.
    { unfold nextRefresh. by rewrite Hgo. }
    rewrite Heq in *. simpl in *.
    assert ((promises w ++ [false]) !! List.length (promises w) = Some false)
      as Hpend by (by apply list_lookup_middle).
    split; [done|]. split; [done|]. split; [done|]. split; [done|].
    intros mid disk newState completion Hquiet Hperm Hnew.
    edestruct (quiet_keeps_resolver mid) as
      (w1 & Hmid & Hcm & Hrunm & Hpm & Hltm & Hpendm);
      [exact Hc1 | exact Hgo | | | exact Hpend | exact Hquiet |].
    + unfold listenersOf. simpl. rewrite listenersIn_app.
      apply elem_of_app. right. rewrite listenersIn_singleton.
      rewrite decide_True by done. left.
    + simpl. rewrite length_app. simpl. lia.
    + destruct (monitorCycle_resolves disk newState completion w1 _
                  Hcm Hrunm Hperm Hnew Hpm Hltm) as (w2 & Hcycle & Hres).
      by exists w1, w2.
Qed.

End RefreshFacts.

(** The running monitor that holds the volumes at [/a] and [/a/b]. *)
Lemma nextRefresh_rejects_iff_stopped_witness :
  ((exists err, snd (nextRefresh (worldAfter nestedRun)) = Rejected err)
   <-> running (worldAfter nestedRun) = false)
  /\ (running (worldAfter nestedRun) = false ->
      nextRefresh (worldAfter nestedRun)
      = (worldAfter nestedRun,
         Rejected (Js.ErrorMsg "Mountie is not running")))
  /\ (running (worldAfter nestedRun) = true ->
      exists p,
        snd (nextRefresh (worldAfter nestedRun)) = Pending p
        /\ promises (fst (nextRefresh (worldAfter nestedRun))) !! p
           = Some false
        /\ sameStore (worldAfter nestedRun)
                     (fst (nextRefresh (worldAfter nestedRun)))
        /\ state (H := exampleHost)
                 (fst (nextRefresh (worldAfter nestedRun)))
           = state (H := exampleHost) (worldAfter nestedRun)
        /\ forall mid disk newState completion,
             Forall quiet mid ->
             completion ≡ₚ newState -> Forall sortable newState ->
             exists w1 w2,
               runActions (H := exampleHost)
                 (fst (nextRefresh (worldAfter nestedRun))) mid = Js.Ok w1
               /\ promises w1 !! p = Some false
               /\ monitorCycle (H := exampleHost) disk newState completion w1
                  = Js.Ok w2
               /\ promises w2 !! p = Some true).
Proof.
  apply (nextRefresh_rejects_iff_stopped (H := exampleHost) nestedRun).
  - unfold nestedRun.
    repeat (apply Forall_cons; split); try apply Forall_nil;
      try exact I; simpl.
    split; [done|]. repeat constructor; done.
  - vm_compute. reflexivity.
Defined.

Example nextRefresh_while_running :
  exists w p,
    nextRefresh (worldAfter (firstn 5 singleRun)) = (w, Pending p)
    /\ promises w !! p = Some false
    /\ (promises <$> monitorCycle (H := exampleHost) allDirectories
                       [volB] [volB] w)
       = Js.Ok [true; true]
    /\ snd (nextRefresh (worldAfter singleRun))
       = Rejected (Js.ErrorMsg "Mountie is not running").
Proof.
  eexists _, _. split; [vm_compute; reflexivity|].
  split; [reflexivity|]. split; vm_compute; reflexivity.
Qed.

(** ** The asynchronous event stream *)

Section StreamFacts.
Context `{Host}.
Implicit Types (w : World) (it : AsyncIterator).

Lemma takeLive_running q w :
  running (fst (fst (takeLive q w))) = running w.
Proof.
  unfold takeLive. destruct (queues w !! q) as [[|e buf]|]; done.
Qed.

Lemma replay_running rest w :
  running (fst (fst (replay rest w))) = running w.
Proof.
  destruct rest as [|fs rest]; simpl; [|done].
  by rewrite takeLive_running.
Qed.

(** No call of [next()] starts the monitor. *)
Lemma next_keeps_running it w r :
  next it w = Js.Ok r -> running (fst (fst r)) = running w.
Proof.
  destruct it as [|rest|q]; simpl.
  - destruct (state w) as [st|]; simpl; [|done].
    intros [= <-]. apply replay_running.
  - intros [= <-]. apply replay_running.
  - intros [= <-]. apply takeLive_running.
Qed.

Lemma nexts_replaying (rest : list FileSystem) w :
  nexts (List.length rest) (Replaying rest) w
  = Js.Ok (w, Replaying [], map Mount rest).
Proof.
  induction rest as [|fs rest IH]; simpl; [done|].
  rewrite IH. reflexivity.
Qed.

(** The replay: the first yields of the stream are a Mount event for every
    entry of the state at first consumption, in the order of the state,
    and the state is left as it was; the event iterable is attached, and
    live events are yielded, only after them. *)
Lemma stream_replays_state w (st : list FileSystem) (fs : FileSystem) :
  state w = Js.Ok (fs :: st) ->
  nexts (List.length (fs :: st)) Fresh w
  = Js.Ok (w, Replaying [], map Mount (fs :: st)).
Proof.
  intros Hst. simpl. rewrite Hst. simpl.
  rewrite nexts_replaying. reflexivity.
Qed.

End StreamFacts.

(** C3.  The specification has the first consumption of the event stream
    start the monitor when it is not running, and then replay the state.
    The code replays the state and does not start the monitor: consuming
    the stream of a newly constructed monitor, as [example.js] does,
    replays the empty state, attaches the event iterable and waits; the
    monitor is still stopped, a poll cycle does nothing, and nothing is
    ever yielded. *)
Theorem stream_does_not_start_monitor :
  exists w,
    next (H := exampleHost) Fresh initial = Js.Ok (w, Live 0%nat, None)
    /\ running initial = false
    /\ running w = false
    /\ listenersOf "all" w = [EventIterable 0%nat]
    /\ (forall disk newState completion,
          monitorCycle (H := exampleHost) disk newState completion w
          = Js.Ok w).
Proof.
  eexists. split; [reflexivity|]. repeat split.
Qed.

(** ** The uuid of a device that reports none *)

Section UuidFacts.
Context `{Host}.

(** The entries of a retrieved snapshot are the images of raw entries
    under [toFileSystem]. *)
Lemma filterM_elem {A} (f : A -> Js.result bool) (l r : list A) (x : A) :
  filterM f l = Js.Ok r -> x ∈ r -> x ∈ l.
Proof.
  revert r. induction l as [|y l IH]; simpl; intros r.
  - intros [= <-] Hx. done.
  - destruct (f y) as [b|]; simpl; [|done].
    destruct (filterM f l) as [r'|]; simpl; [|done].
    intros [= <-] Hx. destruct b.
    + apply elem_of_cons in Hx as [->|Hx]; [left | right; by apply (IH r')].
    + right. by apply (IH r').
Qed.

Lemma mapM_elem {A B} (f : A -> Js.result B) (l : list A) (r : list B)
  (y : B) :
  mapM f l = Js.Ok r -> y ∈ r -> exists x, x ∈ l /\ f x = Js.Ok y.
Proof.
  revert r. induction l as [|x l IH]; simpl; intros r.
  - intros [= <-] Hy. by apply elem_of_nil in Hy.
  - destruct (f x) as [z|] eqn:Hz; simpl; [|done].
    destruct (mapM f l) as [r'|]; simpl; [|done].
    intros [= <-] Hy. apply elem_of_cons in Hy as [->|Hy].
    + exists x. split; [by left | exact Hz].
    + destruct (IH r' eq_refl Hy) as (x' & Hx' & Hfx').
      exists x'. split; [by right | exact Hfx'].
Qed.

Lemma getNewState_entries devices filesystems newState entry :
  getNewState devices filesystems = Js.Ok newState ->
  entry ∈ newState ->
  exists raw, raw ∈ filesystems
              /\ toFileSystem (deviceMapOf devices) raw = Js.Ok entry.
Proof.
  unfold getNewState, unsortedState, filteredFileSystems.
  destruct (filterM notIgnored filesystems) as [kept|] eqn:Hkept;
    simpl; [|done].
  destruct (mapM _ _) as [entries|] eqn:Hentries; simpl; [|done].
  intros Hsort Hin. apply sortFilesystems_perm in Hsort.
  rewrite Hsort in Hin.
  destruct (mapM_elem _ _ _ _ Hentries Hin) as (raw & Hraw & Hentry).
  exists raw. split; [|done].
  apply list_elem_of_In, filter_In in Hraw as [Hraw _].
  apply filter_In in Hraw as [Hraw _].
  apply (filterM_elem _ _ _ _ Hkept). by apply list_elem_of_In.
Qed.

(** Every entry of a retrieved snapshot is mounted at a mountpoint. *)
Lemma getNewState_sortable devices filesystems newState :
  getNewState devices filesystems = Js.Ok newState ->
  Forall sortable newState
  /\ Forall (fun entry => mounted entry = true
                          /\ is_Some (mountpoint entry)) newState.
Proof.
  intros Hnew.
  assert (forall entry, entry ∈ newState ->
            mounted entry = true /\ is_Some (mountpoint entry)) as Hall.
  { intros entry Hin.
    destruct (getNewState_entries _ _ _ _ Hnew Hin) as (raw & _ & Hentry).
    unfold toFileSystem in Hentry.
    destruct (JsObject.member _ _); [| discriminate |];
      injection Hentry as <-; simpl; split; [done | by eexists |
                                             done | by eexists]. }
  split; apply Forall_forall; intros entry Hin;
    destruct (Hall entry Hin) as [Hm [mp Hmp]].
  - intros _. by rewrite Hmp.
  - split; [done | by exists mp].
Qed.

(** C2.  The specification has the uuid of an entry be the lower-cased
    native uuid when one is reported and not empty, and the name-based
    uuid of the device identifier otherwise.  The code tests whether the
    device is listed, not whether its uuid is empty (line 258): for a
    listed device that reports the empty uuid the entry gets the empty
    string as its uuid, not the name-based one. *)
Theorem empty_native_uuid_is_kept
  (devices : list SystemInformation.BlockDevicesData)
  (raw : SystemInformation.FsSizeData)
  (dev : SystemInformation.BlockDevicesData) :
  toLowerCase EmptyString = EmptyString ->
  JsObject.get (deviceMapOf devices) (SystemInformation.fs raw) = Some dev ->
  SystemInformation.uuid dev = EmptyString ->
  uuid <$> toFileSystem (deviceMapOf devices) raw = Js.Ok EmptyString.
Proof.
  intros Hlower Hdev Hempty.
  rewrite toFileSystem_uuid, (member_own _ _ _ Hdev), Hempty.
  by rewrite Hlower.
Qed.

End UuidFacts.

(** A mapped network drive: listed, with an empty uuid. *)
Lemma empty_native_uuid_is_kept_witness :
  uuid <$> toFileSystem (H := exampleHost) (deviceMapOf [driveDevice])
                        driveFilesystem
  = Js.Ok EmptyString.
Proof.
  apply (empty_native_uuid_is_kept (H := exampleHost) [driveDevice]
           driveFilesystem driveDevice); reflexivity.
Defined.

Example getNewState_empty_uuid :
  (map uuid <$> getNewState (H := exampleHost) [driveDevice] [driveFilesystem])
  = Js.Ok [EmptyString]
  /\ v5 (Host := exampleHost) "Z:" UUID_NAMESPACE <> EmptyString.
Proof. split; [reflexivity | discriminate]. Qed.

(** ** Longest-prefix lookup in the states the monitor reaches *)

Section ReachableFacts.
Context `{Host}.

(** What the differ and the lookup rely on holds of the state map in
    every state a monitor reaches. *)
Lemma consistent_map_wellformed (w : World) :
  consistent w ->
  Forall sortable (JsObject.values (filesystemMap w))
  /\ NoDup (JsObject.values (filesystemMap w)).
Proof.
  intros [_ (Hnd & Hkeyed & Hsort & _)]. split; [done|].
  apply (NoDup_fmap_1 (fun v => Js.propKey (mountpoint v))).
  change (NoDup (map (fun v => Js.propKey (mountpoint v))
                     (JsObject.values (filesystemMap w)))).
  by rewrite keyed_keys.
Qed.

Lemma reachable_map_wellformed (actions : list Action) (w : World) :
  Forall wellFormedAction actions ->
  runActions initial actions = Js.Ok w ->
  Forall sortable (JsObject.values (filesystemMap w))
  /\ NoDup (JsObject.values (filesystemMap w)).
Proof.
  intros Hwf Hrun.
  destruct (runActions_consistent actions initial consistent_initial Hwf)
    as (w0 & Hrun0 & Hc & _).
  rewrite Hrun in Hrun0. injection Hrun0 as <-.
  by apply consistent_map_wellformed.
Qed.

(** C8: in every state a monitor reaches, [filesystem(path)] returns a
    mounted entry of the state whose mountpoint is a prefix of [path] and
    is at least as long as the mountpoint of every mounted entry that is a
    prefix of [path], and returns nothing when no mounted entry is a
    prefix; with the entries mounted at [/a] and [/a/b],
    [filesystem("/a/b/c")] is the [/a/b] entry. *)
Theorem filesystem_longest_prefix (actions : list Action) (w : World)
  (path : string) :
  Forall wellFormedAction actions ->
  runActions initial actions = Js.Ok w ->
  exists st r,
    state w = Js.Ok st
    /\ filesystemAt w path = Js.Ok r
    /\ longestPrefixMatch st path r
    /\ (forall A B,
          st ≡ₚ [A; B] -> mounted A = true -> mounted B = true ->
          mountpoint A = Some "/a" -> mountpoint B = Some "/a/b" ->
          path = "/a/b/c" -> r = Some B).
Proof.
  intros Hwf Hrun.
  destruct (reachable_map_wellformed actions w Hwf Hrun) as [Hsort _].
  destruct (stateOf_ok _ Hsort) as [st Hstate].
  assert (Forall sortable st) as Hst
    by (by rewrite (stateOf_perm _ _ Hstate)).
  destruct (filesystemIn_spec path st Hst) as (r & Hr & Hspec).
  exists st, r. split; [done|]. split; [|split; [done|]].
  - unfold filesystemAt, state. rewrite Hstate. exact Hr.
  - intros A B Hperm HmA HmB HA HB ->.
    destruct r as [fs|]; simpl in Hspec.
    + destruct Hspec as (Hin & s & (Hm & Hmp & Hp) & Hmax).
      rewrite Hperm in Hin.
      apply elem_of_cons in Hin as [->|Hin].
      * exfalso. assert (B ∈ st) as HBin by (rewrite Hperm; set_solver).
        specialize (Hmax B "/a/b" HBin (conj HmB (conj HB eq_refl))).
        rewrite HA in Hmp. injection Hmp as <-. simpl in Hmax. lia.
      * apply list_elem_of_singleton in Hin. by subst fs.
    + exfalso. apply (Hspec A "/a"); [rewrite Hperm; set_solver|].
      by split.
Qed.

End ReachableFacts.

(** The monitor that holds the volumes at [/a] and [/a/b]. *)
Lemma filesystem_longest_prefix_witness :
  exists st r,
    state (H := exampleHost) (worldAfter nestedRun) = Js.Ok st
    /\ filesystemAt (H := exampleHost) (worldAfter nestedRun) "/a/b/c"
       = Js.Ok r
    /\ longestPrefixMatch st "/a/b/c" r
    /\ (forall A B,
          st ≡ₚ [A; B] -> mounted A = true -> mounted B = true ->
          mountpoint A = Some "/a" -> mountpoint B = Some "/a/b" ->
          "/a/b/c" = "/a/b/c" -> r = Some B).
Proof.
  apply (filesystem_longest_prefix (H := exampleHost) nestedRun).
  - unfold nestedRun.
    repeat (apply Forall_cons; split); try apply Forall_nil;
      try exact I; simpl.
    split; [done|]. repeat constructor; done.
  - vm_compute. reflexivity.
Defined.

Example filesystem_nested_reached :
  filesystemAt (H := exampleHost) (worldAfter nestedRun) "/a/b/c"
  = Js.Ok (Some volNested)
  /\ filesystemAt (H := exampleHost) (worldAfter nestedRun) "/a/x"
     = Js.Ok (Some volRoot)
  /\ filesystemAt (H := exampleHost) (worldAfter nestedRun) "/b"
     = Js.Ok None.
Proof. repeat split; reflexivity. Qed.

(** * Further properties of the code *)

(** The actions of a concrete run are well formed. *)
Ltac run_wellformed :=
  repeat (apply Forall_cons; split); try apply Forall_nil; try exact I;
  simpl;
  try (split; [first [done | apply Permutation_swap]
              | repeat constructor; done]).

(** ** [sleep] over time *)

Section SleepRuns.

Import Functions.

Lemma sleepRun_resolved (sig : bool) (inputs : list Input) (s : Sleep) :
  0 <= waited s ->
  timeout s = negb (resolved s) ->
  listening s = sig && negb (resolved s) ->
  (resolved s = false -> waited s < timerDelay (ms s)) ->
  Forall forward inputs ->
  resolved (sleepRun s inputs)
  = resolved s || (sig && existsb isAbort inputs)
    || (timerDelay (ms s) <=? waited s + elapsed inputs)
  /\ (resolved (sleepRun s inputs) = true ->
      timeout (sleepRun s inputs) = false
      /\ listening (sleepRun s inputs) = false).
Proof.
  intros Hw Ht Hl Hr Hf. revert s Hw Ht Hl Hr.
  induction Hf as [|i inputs Hi Hf IH]; intros s Hw Ht Hl Hr.
  - simpl. rewrite Z.add_0_r, andb_false_r, orb_false_r.
    destruct (resolved s) eqn:Hres.
    + simpl in *. split; [reflexivity|]. intros _. rewrite Ht, Hl.
      by rewrite andb_false_r.
    + specialize (Hr eq_refl). split; [|discriminate].
      symmetry. apply Z.leb_gt. lia.
  - change (sleepRun s (i :: inputs)) with (sleepRun (step s i) inputs).
    destruct i as [dt|]; simpl in Hi.
    + assert (Hstep : 0 <= waited (step s (Elapse dt))
                      /\ timeout (step s (Elapse dt))
                         = negb (resolved (step s (Elapse dt)))
                      /\ listening (step s (Elapse dt))
                         = sig && negb (resolved (step s (Elapse dt)))
                      /\ (resolved (step s (Elapse dt)) = false ->
                          waited (step s (Elapse dt))
                          < timerDelay (ms (step s (Elapse dt))))
                      /\ ms (step s (Elapse dt)) = ms s
                      /\ waited (step s (Elapse dt)) = waited s + dt
                      /\ resolved (step s (Elapse dt))
                         = resolved s || (timerDelay (ms s) <=? waited s + dt)).
      { simpl. unfold elapse. rewrite Ht.
        destruct (resolved s) eqn:Hres; simpl.
        - rewrite Hl. simpl. rewrite andb_false_r.
          repeat split; try done; try lia.
        - specialize (Hr eq_refl).
          destruct (timerDelay (ms s) <=? waited s + dt) eqn:Hle; simpl.
          + rewrite andb_false_r. repeat split; try done; try lia.
          + apply Z.leb_gt in Hle. rewrite Hl. simpl.
            repeat split; try done; try lia. }
      destruct Hstep as (H1 & H2 & H3 & H4 & H5 & H6 & H7).
      destruct (IH _ H1 H2 H3 H4) as [IH1 IH2]. split; [|exact IH2].
      rewrite IH1, H5, H6, H7. simpl.
      destruct (resolved s); simpl; [reflexivity|].
      destruct (timerDelay (ms s) <=? waited s + dt) eqn:Hle; simpl.
      * apply Z.leb_le in Hle.
        assert (0 <= elapsed inputs).
        { clear -Hf. induction Hf as [|[?|] ? Hx ? IH']; simpl in *; lia. }
        assert (Hx : (timerDelay (ms s) <=? waited s + (dt + elapsed inputs)) = true)
          by (apply Z.leb_le; lia).
        rewrite Hx. by rewrite !orb_true_r.
      * by rewrite Z.add_assoc.
    + assert (Hstep : 0 <= waited (step s Abort)
                      /\ timeout (step s Abort)
                         = negb (resolved (step s Abort))
                      /\ listening (step s Abort)
                         = sig && negb (resolved (step s Abort))
                      /\ (resolved (step s Abort) = false ->
                          waited (step s Abort)
                          < timerDelay (ms (step s Abort)))
                      /\ ms (step s Abort) = ms s
                      /\ waited (step s Abort) = waited s
                      /\ resolved (step s Abort) = resolved s || sig).
      { simpl. unfold onAbort. rewrite Hl.
        destruct sig, (resolved s) eqn:Hres; simpl;
          repeat split; try done; try lia; auto. all: rewrite ?Hres; auto. }
      destruct Hstep as (H1 & H2 & H3 & H4 & H5 & H6 & H7).
      destruct (IH _ H1 H2 H3 H4) as [IH1 IH2]. split; [|exact IH2].
      rewrite IH1, H5, H6, H7. simpl.
      destruct (resolved s), sig; simpl; reflexivity.
Qed.

(** X1. The promise of [sleep(ms, signal)] is resolved exactly when its
    signal has been aborted (if it was given one) or the delay of its timer
    has passed, where the timer's delay is [ms], and 1 when [ms] is below 1
    or above 2147483647; once the promise is resolved the timer is cleared
    and the abort listener is removed. *)
Theorem sleep_resolved_iff (ms : Z) (signal : bool) (inputs : list Input) :
  Forall forward inputs ->
  resolved (sleepRun (sleep ms signal) inputs)
  = (signal && existsb isAbort inputs)
    || ((if (ms <? 1) || (2147483647 <? ms) then 1 else ms)
        <=? elapsed inputs)
  /\ (resolved (sleepRun (sleep ms signal) inputs) = true ->
      timeout (sleepRun (sleep ms signal) inputs) = false
      /\ listening (sleepRun (sleep ms signal) inputs) = false).
Proof.
  intros Hf.
  assert (0 < timerDelay ms) as Hpos.
  { unfold timerDelay. destruct (ms <? 1) eqn:Hlow; simpl; [lia|].
    destruct (2147483647 <? ms); [lia|]. apply Z.ltb_ge in Hlow. lia. }
  destruct (sleepRun_resolved signal inputs (sleep ms signal)) as [H1 H2];
    [ simpl; lia | reflexivity | simpl; by rewrite andb_true_r
    | simpl; intros _; exact Hpos | exact Hf | ].
  split; [|exact H2]. rewrite H1. reflexivity.
Qed.

End SleepRuns.

(** The sleep of the monitor, aborted after four seconds. *)
Lemma sleep_resolved_iff_witness :
  Functions.resolved
    (sleepRun (Functions.sleep 10000 true)
       [Functions.Elapse 4000; Functions.Abort; Functions.Elapse 7000])
  = (true && existsb isAbort
               [Functions.Elapse 4000; Functions.Abort; Functions.Elapse 7000])
    || ((if (10000 <? 1) || (2147483647 <? 10000) then 1 else 10000)
        <=? elapsed
              [Functions.Elapse 4000; Functions.Abort; Functions.Elapse 7000])
  /\ (Functions.resolved
        (sleepRun (Functions.sleep 10000 true)
           [Functions.Elapse 4000; Functions.Abort; Functions.Elapse 7000])
      = true ->
      Functions.timeout
        (sleepRun (Functions.sleep 10000 true)
           [Functions.Elapse 4000; Functions.Abort; Functions.Elapse 7000])
      = false
      /\ Functions.listening
           (sleepRun (Functions.sleep 10000 true)
              [Functions.Elapse 4000; Functions.Abort; Functions.Elapse 7000])
         = false).
Proof.
  apply (sleep_resolved_iff 10000 true
           [Functions.Elapse 4000; Functions.Abort; Functions.Elapse 7000]).
  repeat constructor; simpl; lia.
Defined.

(** A delay above the range of the timer: the promise is resolved after one
    millisecond. *)
Example sleep_beyond_timer_range :
  Functions.resolved
    (sleepRun (Functions.sleep 2147483648 false) [Functions.Elapse 1]) = true
  /\ Functions.resolved
       (sleepRun (Functions.sleep 2147483647 false) [Functions.Elapse 1000])
     = false.
Proof. split; reflexivity. Qed.

(** ** The life of a folder deletion watcher *)

Section WatcherLife.
Import FolderDeletionWatcher.

(** X2. [#startParent] sets up one watch per segment of the path: level [i]
    watches the directory made of the first [i] segments for the name of
    segment [i], from the root downwards. *)
Theorem chain_levels (p : Path.t) (s : bool) :
  chain p s = imap (fun i x => mkFSWatcher (take i p) x s false) p.
Proof.
  induction p as [|x p IH] using rev_ind; [reflexivity|].
  rewrite chain_snoc, IH, imap_app. simpl. f_equal.
  - apply imap_ext. intros i y Hi. f_equal.
    rewrite take_app_le; [reflexivity|].
    apply lookup_lt_Some in Hi. lia.
  - rewrite Nat.add_0_r, take_app_length. reflexivity.
Qed.

(** X3. A watcher whose directory check answers that the path is no
    directory stops itself: it sets up no watch, and whatever happens
    afterwards it stays as it is and never invokes its callback. *)
Theorem watcher_without_directory (p : option string) (inputs : list Input) :
  run (new p) (DirChecked false :: inputs) = neverStarted p.
Proof.
  change (run (new p) (DirChecked false :: inputs))
    with (run (neverStarted p) inputs).
  induction inputs as [|i inputs IH]; [reflexivity|].
  change (run (neverStarted p) (i :: inputs))
    with (run (step (neverStarted p) i) inputs).
  destruct i as [b|n|]; exact IH.
Qed.

Lemma stop_closes (w : t) :
  Forall (fun x => signal x = true \/ closed x = true) (watchers w) ->
  abortController w = true ->
  Forall (fun x => closed x = true) (watchers (stop w)).
Proof.
  intros Hall Hc. unfold stop. rewrite Hc. simpl.
  apply Forall_fmap. eapply Forall_impl; [exact Hall|].
  intros x [Hs|Hx]; simpl.
  - by rewrite Hs.
  - destruct (signal x); [reflexivity | exact Hx].
Qed.

Lemma stop_keeps_closed (w : t) :
  Forall (fun x => closed x = true) (watchers w) ->
  Forall (fun x => closed x = true) (watchers (stop w)).
Proof.
  intros Hall. unfold stop. destruct (abortController w); [|exact Hall].
  simpl. apply Forall_fmap. eapply Forall_impl; [exact Hall|].
  intros x Hx. simpl. destruct (signal x); [reflexivity | exact Hx].
Qed.

Lemma run_quiet (inputs : list Input) (w : t) :
  checking w = false ->
  Forall (fun x => closed x = true) (watchers w) ->
  callbackCalls (run w inputs) = callbackCalls w
  /\ Forall (fun x => closed x = true) (watchers (run w inputs)).
Proof.
  revert w. induction inputs as [|i inputs IH]; intros w Hc Hall; [done|].
  change (run w (i :: inputs)) with (run (step w i) inputs).
  destruct i as [b|n|]; simpl.
  - unfold dirChecked. rewrite Hc. by apply IH.
  - rewrite notify_all_closed by exact Hall. by apply IH.
  - destruct (IH (stop w)) as [IH1 IH2].
    + unfold stop. by destruct (abortController w).
    + by apply stop_keeps_closed.
    + split; [|exact IH2]. rewrite IH1. unfold stop.
      by destruct (abortController w).
Qed.

(** X4. [stop] on a watcher whose chain is up closes every watch, and from
    then on nothing makes the watcher invoke its callback: neither
    notifications, nor a late directory answer, nor further [stop]s. *)
Theorem stopped_watcher_never_fires (p : string) (inputs : list Input) :
  callbackCalls (run (started p) (Stop :: inputs)) = 0%nat
  /\ Forall (fun x => closed x = true)
            (watchers (run (started p) (Stop :: inputs))).
Proof.
  change (run (started p) (Stop :: inputs))
    with (run (stop (started p)) inputs).
  assert (checking (started p) = false) as Hchk.
  { unfold started. simpl. unfold dirChecked, startParent. simpl.
    by case_decide. }
  assert (abortController (started p) = true) as Hab.
  { unfold started. simpl. unfold dirChecked, startParent. simpl.
    by case_decide. }
  assert (Forall (fun x => signal x = true \/ closed x = true)
                 (watchers (started p))) as Hsig.
  { unfold started. simpl. unfold dirChecked, startParent. simpl.
    case_decide; simpl; [constructor|].
    apply Forall_forall. intros x Hx. apply chain_fresh in Hx. tauto. }
  destruct (run_quiet inputs (stop (started p))) as [H1 H2].
  - unfold stop. rewrite Hab. exact Hchk.
  - by apply stop_closes.
  - split; [|exact H2]. rewrite H1. unfold stop. rewrite Hab. simpl.
    apply started_calls.
Qed.

Lemma listenerResolves_signal (n : Notification) (P : Path.t) (s s' : bool) :
  existsb (listenerResolves n) (chain P s)
  = existsb (listenerResolves n) (chain P s').
Proof.
  induction P as [|x P IH] using rev_ind; [reflexivity|].
  rewrite !chain_snoc, !existsb_app, IH. reflexivity.
Qed.

Lemma stoppedEarly_state (p : string) :
  Path.parse p <> [] ->
  stoppedEarly p
  = {| path := Some p; abortController := false; checking := false;
       watchers := chain (Path.parse p) false; sharedContext := Some false;
       callbackCalls := 0%nat |}.
Proof.
  intros Hp. unfold stoppedEarly, run. simpl.
  unfold dirChecked. simpl. unfold startParent. simpl.
  case_decide as Hroot; [|reflexivity].
  exfalso. destruct (Path.parse p) as [|x P] using rev_ind; [done|].
  unfold Path.dirname in Hroot. rewrite removelast_last in Hroot.
  apply (f_equal List.length) in Hroot. rewrite length_app in Hroot.
  simpl in Hroot. lia.
Qed.

Lemma run_unsignalled (P : Path.t) (inputs : list Input) (w : t) :
  abortController w = false -> checking w = false ->
  watchers w = chain P false -> is_Some (sharedContext w) ->
  watchers (run w inputs) = chain P false.
Proof.
  revert w. induction inputs as [|i inputs IH]; intros w Ha Hc Hw Hs; [done|].
  change (run w (i :: inputs)) with (run (step w i) inputs).
  destruct i as [b|n|]; simpl.
  - unfold dirChecked. rewrite Hc. by apply IH.
  - unfold notify. destruct (existsb _ _); [|by apply IH].
    unfold resolve. destruct Hs as [c Hs]. rewrite Hs.
    destruct c; [apply IH; by rewrite ?Hs|].
    unfold stop. simpl. rewrite Ha. simpl. by apply IH.
  - unfold stop. rewrite Ha. by apply IH.
Qed.

Lemma run_unsignalled_calls (P : Path.t) (ns : list Notification) (w : t) :
  abortController w = false ->
  watchers w = chain P false ->
  callbackCalls (run w (map Notify ns))
  = match sharedContext w with
    | Some false =>
        (callbackCalls w
         + if existsb (fun n => existsb (listenerResolves n) (chain P true)) ns
           then 1 else 0)%nat
    | _ => callbackCalls w
    end.
Proof.
  revert w. induction ns as [|n ns IH]; intros w Ha Hw.
  - simpl. destruct (sharedContext w) as [[]|]; lia.
  - change (run w (map Notify (n :: ns)))
      with (run (notify n w) (map Notify ns)).
    unfold notify. rewrite Hw.
    rewrite (listenerResolves_signal n P false true). simpl.
    destruct (existsb (listenerResolves n) (chain P true)) eqn:Hn; simpl.
    + unfold resolve.
      destruct (sharedContext w) as [[]|] eqn:Hs.
      * rewrite IH by done. by rewrite Hs.
      * unfold stop. simpl. rewrite Ha. simpl.
        rewrite IH by done. simpl. lia.
      * rewrite IH by done. by rewrite Hs.
    + by rewrite IH.
Qed.


End WatcherLife.


Section RootWatcher.
Import FolderDeletionWatcher.

(** X6. A watcher for the root directory sets up no watch and never
    invokes its callback, whatever it is told: the root is its own parent,
    so [#startParent] returns before creating the shared promise. *)
Theorem root_watcher_never_fires (p : string) (inputs : list Input) :
  Path.parse p = [] ->
  callbackCalls (run (new (Some p)) inputs) = 0%nat
  /\ watchers (run (new (Some p)) inputs) = [].
Proof.
  intros Hp.
  assert (forall w, path w = Some p -> watchers w = [] ->
                    sharedContext w = None -> callbackCalls w = 0%nat ->
                    callbackCalls (run w inputs) = 0%nat
                    /\ watchers (run w inputs) = []) as Hinv.
  { induction inputs as [|i inputs IH]; intros w Hpath Hw Hs Hc; [done|].
    change (run w (i :: inputs)) with (run (step w i) inputs).
    destruct i as [b|n|]; simpl.
    - unfold dirChecked. destruct (checking w); [|by apply IH].
      rewrite Hpath. destruct b.
      + unfold startParent. rewrite Hp. simpl. by apply IH.
      + unfold stop. simpl. destruct (abortController w); apply IH; simpl;
          by rewrite ?Hw.
    - unfold notify. rewrite Hw. simpl. by apply IH.
    - unfold stop. destruct (abortController w); apply IH; simpl;
        by rewrite ?Hw. }
  by apply Hinv.
Qed.

End RootWatcher.

(** The watcher of [/]. *)
Lemma root_watcher_never_fires_witness :
  FolderDeletionWatcher.callbackCalls
    (FolderDeletionWatcher.run (FolderDeletionWatcher.new (Some "/"))
       [FolderDeletionWatcher.DirChecked true;
        FolderDeletionWatcher.Notify
          (FolderDeletionWatcher.mkNotification [] "rename" EmptyString)])
  = 0%nat
  /\ FolderDeletionWatcher.watchers
       (FolderDeletionWatcher.run (FolderDeletionWatcher.new (Some "/"))
          [FolderDeletionWatcher.DirChecked true;
           FolderDeletionWatcher.Notify
             (FolderDeletionWatcher.mkNotification [] "rename" EmptyString)])
     = [].
Proof.
  apply (root_watcher_never_fires "/"). reflexivity.
Defined.

(** ** The snapshot *)

Section SnapshotFacts.
Context `{Host}.

Lemma filterM_pure {A} (p : A -> Js.result bool) (f : A -> bool)
  (l : list A) :
  (forall x, x ∈ l -> p x = Js.Ok (f x)) ->
  filterM p l = Js.Ok (List.filter f l).
Proof.
  induction l as [|x l IH]; intros Hp; [reflexivity|].
  simpl. rewrite (Hp x) by left. simpl.
  rewrite IH by (intros y Hy; apply Hp; by right). simpl.
  by destruct (f x).
Qed.

Lemma filter_both {A} (f g : A -> bool) (l : list A) :
  List.filter g (List.filter f l) = List.filter (fun x => f x && g x) l.
Proof.
  induction l as [|x l IH]; [reflexivity|]. simpl.
  destruct (f x); simpl; [|exact IH]. destruct (g x); by rewrite IH.
Qed.

(** A number never prints as the empty string. *)
Lemma String_number (n : Z) : String_ (Js.Number n) <> EmptyString.
Proof.
  unfold String_. destruct (Z.to_int n) as [d|d]; [|discriminate].
  destruct d; simpl; discriminate.
Qed.

Lemma hasSize_spec (fs : SystemInformation.FsSizeData) :
  hasSize fs
  = negb (bool_decide (SystemInformation.size fs = Js.Str EmptyString)).
Proof.
  unfold hasSize. f_equal. apply bool_decide_ext.
  destruct (SystemInformation.size fs) as [n|s]; simpl.
  - split; [by intros ?%String_number | discriminate].
  - split; [by intros -> | by intros [= ->]].
Qed.

(** The device map holds, under a name, the last listed device of that
    name. *)
Lemma deviceMap_fold (devices : list SystemInformation.BlockDevicesData)
  (acc : JsObject.t SystemInformation.BlockDevicesData) (k : string) :
  JsObject.get
    (fold_left (fun R dev => JsObject.set R (SystemInformation.name dev) dev)
               devices acc) k
  = match last (List.filter
                  (fun dev => bool_decide (SystemInformation.name dev = k))
                  devices) with
    | Some dev => Some dev
    | None => JsObject.get acc k
    end.
Proof.
  revert acc. induction devices as [|x l IH]; intros acc; [reflexivity|].
  simpl. rewrite IH. case_bool_decide as Hk.
  - rewrite last_cons.
    destruct (last (List.filter _ l)); [reflexivity|].
    rewrite <- Hk. apply get_set_eq.
  - destruct (last (List.filter _ l)); [reflexivity|].
    by apply get_set_ne.
Qed.

Lemma deviceMap_get (devices : list SystemInformation.BlockDevicesData)
  (k : string) :
  JsObject.get (deviceMapOf devices) k
  = last (List.filter
            (fun dev => bool_decide (SystemInformation.name dev = k))
            devices).
Proof.
  unfold deviceMapOf. rewrite deviceMap_fold.
  by destruct (last (List.filter _ devices)).
Qed.

Lemma deviceMap_unlisted (devices : list SystemInformation.BlockDevicesData)
  (k : string) :
  JsObject.get (deviceMapOf devices) k = None
  <-> existsb (fun dev => bool_decide (SystemInformation.name dev = k))
              devices = false.
Proof.
  rewrite deviceMap_get, last_None. split.
  - intros Hnil. apply not_true_is_false. intros Hex.
    apply existsb_exists in Hex as (dev & Hin & Hname).
    assert (In dev (List.filter
                      (fun dev => bool_decide (SystemInformation.name dev = k))
                      devices)) as Hdev by (by apply filter_In).
    rewrite Hnil in Hdev. destruct Hdev.
  - intros Hex. apply filter_none, Forall_forall. intros dev Hdev.
    apply not_true_is_false. intros Hname.
    assert (existsb (fun dev => bool_decide (SystemInformation.name dev = k))
                    devices = true) as Hyes
      by (apply existsb_exists; exists dev; split;
          [by apply list_elem_of_In | exact Hname]).
    by rewrite Hex in Hyes.
Qed.

Lemma notDiskImage_spec devices (fs : SystemInformation.FsSizeData) :
  notDiskImage (deviceMapOf devices) fs
  = match last (List.filter
                  (fun dev => bool_decide (SystemInformation.name dev
                                           = SystemInformation.fs fs))
                  devices) with
    | Some dev =>
        negb (bool_decide (SystemInformation.protocol dev = "Disk Image"))
    | None => true
    end.
Proof.
  unfold notDiskImage, JsObject.member. rewrite deviceMap_get.
  destruct (last _); [reflexivity|]. by case_bool_decide.
Qed.

Lemma filteredFileSystems_spec regExs devices filesystems :
  IGNORED_MOUNT_POINTS_REGEX platform = Some regExs ->
  filteredFileSystems devices filesystems
  = Js.Ok (List.filter (passesFilters regExs devices) filesystems).
Proof.
  intros Ht. unfold filteredFileSystems.
  rewrite (filterM_pure notIgnored
             (fun fs => forallb (fun regEx : RegExp =>
                  negb (regEx (SystemInformation.mount fs))) regExs)).
  - simpl. rewrite !filter_both. unfold mret, Js.result_ret. f_equal.
    apply List.filter_ext. intros x. unfold passesFilters.
    by rewrite hasSize_spec, notDiskImage_spec, andb_assoc.
  - intros x _. unfold notIgnored. rewrite Ht. reflexivity.
Qed.

Lemma inheritsDevice_member devices (fs : SystemInformation.FsSizeData) :
  inheritsDevice devices fs = true
  <-> JsObject.member (deviceMapOf devices) (SystemInformation.fs fs)
      = JsObject.Inherited.
Proof.
  unfold inheritsDevice, JsObject.member.
  rewrite andb_true_iff, negb_true_iff, <- deviceMap_unlisted.
  destruct (JsObject.get (deviceMapOf devices) (SystemInformation.fs fs)).
  - split; [by intros [_ ?] | discriminate].
  - case_bool_decide; split; try done. by intros [? _].
Qed.

Lemma toFileSystem_entry devices raw entry :
  toFileSystem (deviceMapOf devices) raw = Js.Ok entry -> entryFor raw entry.
Proof.
  unfold toFileSystem.
  destruct (JsObject.member _ _); [| discriminate |];
    intros [= <-]; by repeat split.
Qed.

Lemma mapM_entries devices (kept : list SystemInformation.FsSizeData) :
  existsb (inheritsDevice devices) kept = false ->
  exists entries,
    mapM (toFileSystem (deviceMapOf devices)) kept = Js.Ok entries
    /\ Forall2 entryFor kept entries.
Proof.
  induction kept as [|raw kept IH]; simpl; intros Hno.
  - exists []. by split.
  - apply orb_false_iff in Hno as [Hraw Hno].
    destruct (IH Hno) as (entries & Hentries & Hall).
    destruct (toFileSystem (deviceMapOf devices) raw) as [entry|e] eqn:He.
    + exists (entry :: entries). rewrite Hentries. split; [reflexivity|].
      constructor; [by apply (toFileSystem_entry devices) | exact Hall].
    + exfalso. unfold toFileSystem in He.
      destruct (JsObject.member (deviceMapOf devices)
                  (SystemInformation.fs raw)) eqn:Hm; try discriminate.
      apply inheritsDevice_member in Hm. by rewrite Hm in Hraw.
Qed.

Lemma toFileSystem_throws devices raw :
  (exists e, toFileSystem (deviceMapOf devices) raw = Js.Throw e)
  <-> inheritsDevice devices raw = true.
Proof.
  rewrite inheritsDevice_member. unfold toFileSystem.
  destruct (JsObject.member _ _); split; try done;
    try (by intros [e He]). intros _. by eexists.
Qed.

Lemma mapM_throws devices (kept : list SystemInformation.FsSizeData) :
  existsb (inheritsDevice devices) kept = true ->
  mapM (toFileSystem (deviceMapOf devices)) kept = Js.Throw Js.TypeError.
Proof.
  induction kept as [|raw kept IH]; simpl; [discriminate|].
  intros Hex.
  destruct (toFileSystem (deviceMapOf devices) raw) as [entry|e] eqn:He.
  - simpl. rewrite IH; [reflexivity|].
    destruct (inheritsDevice devices raw) eqn:Hraw; [|exact Hex].
    apply toFileSystem_throws in Hraw as [e He']. congruence.
  - simpl. unfold toFileSystem in He.
    destruct (JsObject.member _ _); try discriminate. by injection He as <-.
Qed.

(** X8. On a platform that the table of ignored mountpoints lists (darwin,
    linux, win32), [getNewState] looks at the filesystems that pass the
    three filters: no ignored-mountpoint expression matches the mountpoint,
    the size is not the empty string, and the device is not listed as a
    disk image.  When one of them has a device that [blockDevices()] does
    not list and whose name every object inherits, [getNewState] throws a
    [TypeError]; otherwise it returns, sorted, exactly one entry for each
    of them, mounted at its mountpoint. *)
Theorem getNewState_supported regExs devices filesystems :
  IGNORED_MOUNT_POINTS_REGEX platform = Some regExs ->
  (existsb (inheritsDevice devices)
           (List.filter (passesFilters regExs devices) filesystems) = true ->
   getNewState devices filesystems = Js.Throw Js.TypeError)
  /\ (existsb (inheritsDevice devices)
              (List.filter (passesFilters regExs devices) filesystems)
      = false ->
      exists entries newState,
        Forall2 entryFor
          (List.filter (passesFilters regExs devices) filesystems) entries
        /\ getNewState devices filesystems = Js.Ok newState
        /\ newState ≡ₚ entries).
Proof.
  intros Ht. unfold getNewState, unsortedState.
  rewrite (filteredFileSystems_spec regExs) by exact Ht. simpl.
  split; intros Hex.
  - by rewrite mapM_throws.
  - destruct (mapM_entries devices _ Hex) as (entries & Hentries & Hall).
    rewrite Hentries. simpl.
    destruct (sortFilesystems_ok entries) as [st Hst].
    { apply Forall_forall. intros entry Hin.
      destruct (mapM_elem _ _ _ _ Hentries Hin) as (raw & _ & Hraw).
      apply toFileSystem_entry in Hraw as (_ & Hmp & _).
      intros _. by rewrite Hmp. }
    exists entries, st. split; [exact Hall|]. split; [exact Hst|].
    by apply sortFilesystems_perm.
Qed.

(** X9. On any other platform the first filter callback throws a
    [TypeError] (the table has no entry for the platform), so [getNewState]
    fails as soon as [fsSize()] reports a filesystem, and returns the empty
    snapshot when it reports none. *)
Theorem getNewState_unlisted_platform devices filesystems :
  platform = otherPlatform ->
  getNewState devices filesystems
  = match filesystems with
    | [] => Js.Ok []
    | _ :: _ => Js.Throw Js.TypeError
    end.
Proof.
  intros Hp. unfold getNewState, unsortedState, filteredFileSystems.
  destruct filesystems as [|x l]; [reflexivity|].
  simpl. unfold notIgnored. rewrite Hp. reflexivity.
Qed.

Lemma getNewState_raw devices filesystems newState entry :
  getNewState devices filesystems = Js.Ok newState ->
  entry ∈ newState ->
  exists regExs raw,
    IGNORED_MOUNT_POINTS_REGEX platform = Some regExs
    /\ passesFilters regExs devices raw = true
    /\ toFileSystem (deviceMapOf devices) raw = Js.Ok entry.
Proof.
  intros Hns Hin. unfold getNewState, unsortedState in Hns.
  destruct (IGNORED_MOUNT_POINTS_REGEX platform) as [regExs|] eqn:Ht.
  - rewrite (filteredFileSystems_spec regExs) in Hns by exact Ht.
    simpl in Hns.
    destruct (mapM _ _) as [entries|] eqn:Hentries; [|done].
    simpl in Hns. apply sortFilesystems_perm in Hns. rewrite Hns in Hin.
    destruct (mapM_elem _ _ _ _ Hentries Hin) as (raw & Hraw & Hentry).
    apply list_elem_of_In, filter_In in Hraw as [_ Hpass].
    by exists regExs, raw.
  - exfalso. unfold filteredFileSystems in Hns.
    destruct filesystems as [|x l].
    + simpl in Hns. injection Hns as <-. by apply elem_of_nil in Hin.
    + simpl in Hns. unfold notIgnored in Hns. by rewrite Ht in Hns.
Qed.

(** X10. No entry of a snapshot has the protocol [Disk Image], and on
    darwin none is mounted at the empty path, under [/private/], at
    [/Volumes/Recovery] or under [/System/]. *)
Theorem getNewState_exclusions devices filesystems newState entry :
  getNewState devices filesystems = Js.Ok newState ->
  entry ∈ newState ->
  protocol entry <> "Disk Image"
  /\ (platform = darwin ->
      exists s, mountpoint entry = Some s
                /\ s <> EmptyString
                /\ String.prefix "/private/" s = false
                /\ s <> "/Volumes/Recovery"
                /\ String.prefix "/System/" s = false).
Proof.
  intros Hns Hin.
  destruct (getNewState_raw devices filesystems newState entry Hns Hin)
    as (regExs & raw & Ht & Hpass & Hentry).
  unfold passesFilters in Hpass.
  apply andb_true_iff in Hpass as [Hpass Himg].
  apply andb_true_iff in Hpass as [Hign _]. split.
  - rewrite <- notDiskImage_spec in Himg.
    unfold notDiskImage in Himg. unfold toFileSystem in Hentry.
    destruct (JsObject.member (deviceMapOf devices)
                (SystemInformation.fs raw)) as [dev| |];
      [| discriminate |]; injection Hentry as <-; simpl; [|discriminate].
    apply negb_true_iff, bool_decide_eq_false in Himg. exact Himg.
  - intros Hd. rewrite Hd in Ht. simpl in Ht. injection Ht as <-.
    apply toFileSystem_entry in Hentry as (_ & Hmp & _).
    exists (SystemInformation.mount raw). split; [exact Hmp|].
    simpl in Hign. rewrite !andb_true_iff, !negb_true_iff in Hign.
    destruct Hign as (H1 & H2 & H3 & H4 & _).
    apply bool_decide_eq_false in H1, H3. done.
Qed.

End SnapshotFacts.

(** A disk image, the system volume and a network share on darwin: the
    share is kept. *)
Lemma getNewState_supported_witness :
  (existsb (inheritsDevice [imageDevice])
           (List.filter (passesFilters darwinIgnored [imageDevice])
              [imageFilesystem; systemFilesystem; shareFilesystem]) = true ->
   getNewState (H := darwinHost) [imageDevice]
     [imageFilesystem; systemFilesystem; shareFilesystem]
   = Js.Throw Js.TypeError)
  /\ (existsb (inheritsDevice [imageDevice])
              (List.filter (passesFilters darwinIgnored [imageDevice])
                 [imageFilesystem; systemFilesystem; shareFilesystem])
      = false ->
      exists entries newState,
        Forall2 entryFor
          (List.filter (passesFilters darwinIgnored [imageDevice])
             [imageFilesystem; systemFilesystem; shareFilesystem]) entries
        /\ getNewState (H := darwinHost) [imageDevice]
             [imageFilesystem; systemFilesystem; shareFilesystem]
           = Js.Ok newState
        /\ newState ≡ₚ entries).
Proof.
  apply (getNewState_supported (H := darwinHost) darwinIgnored [imageDevice]
           [imageFilesystem; systemFilesystem; shareFilesystem]).
  reflexivity.
Defined.

(** A filesystem without a size is dropped, and a filesystem on an
    unlisted device named [constructor] makes [getNewState] throw. *)
Example getNewState_size_and_inherited_name :
  getNewState (H := exampleHost) [driveDevice]
    [ driveFilesystem; unsizedFilesystem ]
  = getNewState (H := exampleHost) [driveDevice] [driveFilesystem]
  /\ getNewState (H := exampleHost) [driveDevice]
       [ driveFilesystem; constructorFilesystem ]
     = Js.Throw Js.TypeError.
Proof. split; reflexivity. Qed.

(** A platform without a table entry. *)
Lemma getNewState_unlisted_platform_witness :
  getNewState (H := unlistedHost) [driveDevice] [driveFilesystem]
  = Js.Throw Js.TypeError.
Proof.
  apply (getNewState_unlisted_platform (H := unlistedHost)
           [driveDevice] [driveFilesystem]).
  reflexivity.
Defined.

(** Of the three filesystems only the network share is kept. *)
Lemma getNewState_exclusions_witness :
  protocol shareEntry <> "Disk Image"
  /\ (platform (Host := darwinHost) = darwin ->
      exists s,
        mountpoint shareEntry = Some s
        /\ s <> EmptyString
        /\ String.prefix "/private/" s = false
        /\ s <> "/Volumes/Recovery"
        /\ String.prefix "/System/" s = false).
Proof.
  apply (getNewState_exclusions (H := darwinHost) [imageDevice]
           [imageFilesystem; systemFilesystem; shareFilesystem]
           [shareEntry]).
  - vm_compute. reflexivity.
  - apply list_elem_of_singleton. reflexivity.
Defined.

Section UnlistedDevice.
Context `{Host}.

Lemma split_nonempty (sep : ascii) (s : string) : split sep s <> [].
Proof.
  destruct s as [|c s]; simpl; [done|].
  case_decide; [done|]. by destruct (split sep s).
Qed.

Lemma split_app (sep : ascii) (a b : string) :
  split sep (a +:+ String sep b) = split sep a ++ split sep b.
Proof.
  induction a as [|c a IH]; simpl.
  - by rewrite decide_True.
  - case_decide; [by rewrite IH|]. rewrite IH.
    pose proof (split_nonempty sep a) as Hne.
    by destruct (split sep a).
Qed.

Lemma split_whole (sep : ascii) (s : string) :
  occurs sep s = false -> split sep s = [s].
Proof.
  induction s as [|c s IH]; simpl; [done|].
  intros Hocc. apply orb_false_iff in Hocc as [Hc Hocc].
  apply bool_decide_eq_false in Hc. rewrite decide_False by done.
  by rewrite IH.
Qed.

Lemma pop_app (l1 l2 : list string) :
  l2 <> [] -> pop (l1 ++ l2) = pop l2.
Proof.
  unfold pop. intros Hne. induction l1 as [|x l1 IH]; [done|].
  simpl. destruct (l1 ++ l2) eqn:Happ; [|exact IH].
  apply app_eq_nil in Happ as [_ ?]. done.
Qed.

(** X11. A filesystem whose device [blockDevices()] does not list: when
    the name of the device is one that every object inherits from
    [Object.prototype], building the entry throws a [TypeError]; otherwise
    the filesystem is entered as a network share, with filesystem type and
    protocol [SMB], no serial, the name-based uuid of the device
    identifier, and as label the part of the identifier after its last path
    separator (the whole identifier when it has none). *)
Theorem unlisted_device_entry
  (devices : list SystemInformation.BlockDevicesData)
  (raw : SystemInformation.FsSizeData) :
  (forall dev, dev ∈ devices ->
               SystemInformation.name dev <> SystemInformation.fs raw) ->
  (SystemInformation.fs raw ∈ JsObject.objectPrototypeNames ->
   toFileSystem (deviceMapOf devices) raw = Js.Throw Js.TypeError)
  /\ (SystemInformation.fs raw ∉ JsObject.objectPrototypeNames ->
      exists entry,
        toFileSystem (deviceMapOf devices) raw = Js.Ok entry
        /\ entryFor raw entry
        /\ filesystem entry = "SMB"
        /\ protocol entry = "SMB"
        /\ serial entry = None
        /\ uuid entry = v5 (SystemInformation.fs raw) UUID_NAMESPACE
        /\ (forall a b,
              SystemInformation.fs raw
              = a +:+ String (Path_sep platform) b ->
              occurs (Path_sep platform) b = false ->
              label entry = b)
        /\ (occurs (Path_sep platform) (SystemInformation.fs raw) = false ->
            label entry = SystemInformation.fs raw)).
Proof.
  intros Hunlisted.
  assert (JsObject.get (deviceMapOf devices) (SystemInformation.fs raw)
          = None) as Hg.
  { apply deviceMap_unlisted, not_true_is_false. intros Hex.
    apply existsb_exists in Hex as (dev & Hin & Hname).
    apply bool_decide_eq_true in Hname.
    by apply (Hunlisted dev); [apply list_elem_of_In|]. }
  unfold toFileSystem, JsObject.member. rewrite Hg.
  split; intros Hname.
  { by rewrite bool_decide_eq_true_2. }
  rewrite bool_decide_eq_false_2 by exact Hname.
  eexists. split; [reflexivity|]. simpl.
  split; [by repeat split|]. repeat split.
  - intros a b -> Hocc.
    rewrite split_app, pop_app by apply split_nonempty.
    by rewrite split_whole.
  - intros Hocc. by rewrite split_whole.
Qed.

End UnlistedDevice.

(** The network share [//nas/media]. *)
Lemma unlisted_device_entry_witness :
  (SystemInformation.fs shareFilesystem ∈ JsObject.objectPrototypeNames ->
   toFileSystem (H := exampleHost) (deviceMapOf [imageDevice])
     shareFilesystem = Js.Throw Js.TypeError)
  /\ (SystemInformation.fs shareFilesystem ∉ JsObject.objectPrototypeNames ->
      exists entry,
        toFileSystem (H := exampleHost) (deviceMapOf [imageDevice])
          shareFilesystem = Js.Ok entry
        /\ entryFor shareFilesystem entry
        /\ filesystem entry = "SMB"
        /\ protocol entry = "SMB"
        /\ serial entry = None
        /\ uuid entry
           = v5 (Host := exampleHost) (SystemInformation.fs shareFilesystem)
                UUID_NAMESPACE
        /\ (forall a b,
              SystemInformation.fs shareFilesystem
              = a +:+ String (Path_sep (platform (Host := exampleHost))) b ->
              occurs (Path_sep (platform (Host := exampleHost))) b = false ->
              label entry = b)
        /\ (occurs (Path_sep (platform (Host := exampleHost)))
                   (SystemInformation.fs shareFilesystem) = false ->
            label entry = SystemInformation.fs shareFilesystem)).
Proof.
  apply (unlisted_device_entry (H := exampleHost) [imageDevice]
           shareFilesystem).
  intros dev Hdev. apply list_elem_of_singleton in Hdev. subst dev.
  discriminate.
Defined.

(** A filesystem on an unlisted device named [constructor]. *)
Example unlisted_device_inherited_name :
  toFileSystem (H := exampleHost) (deviceMapOf [imageDevice])
    constructorFilesystem = Js.Throw Js.TypeError
  /\ (label <$> toFileSystem (H := exampleHost) (deviceMapOf [imageDevice])
                  shareFilesystem) = Js.Ok "media".
Proof. split; reflexivity. Qed.

Section SortedFacts.
Context {A : Type} (cmp : A -> A -> Js.result Z).
Context (P : A -> Prop) (le : A -> A -> Prop).
Hypothesis cmp_le :
  forall x y c, P x -> P y -> cmp x y = Js.Ok c -> c <= 0 -> le x y.
Hypothesis cmp_gt :
  forall x y c, P x -> P y -> cmp x y = Js.Ok c -> 0 < c -> le y x.
Hypothesis le_trans :
  forall x y z, P x -> P y -> P z -> le x y -> le y z -> le x z.

Lemma insertSorted_sorted x l l' :
  P x -> Forall P l -> StronglySorted le l ->
  insertSorted cmp x l = Js.Ok l' -> StronglySorted le l'.
Proof.
  intros Hx. revert l'. induction l as [|y l IH]; intros l' HP Hs; simpl.
  - intros [= <-]. by repeat constructor.
  - apply Forall_cons in HP as [Hy HP].
    apply StronglySorted_inv in Hs as [Hs Hy_le].
    destruct (cmp x y) as [c|] eqn:Hc; [|done]. simpl.
    destruct (c <=? 0) eqn:Hle.
    + intros [= <-]. apply Z.leb_le in Hle.
      pose proof (cmp_le x y c Hx Hy Hc Hle) as Hxy.
      constructor; [by constructor|]. constructor; [exact Hxy|].
      rewrite List.Forall_forall in Hy_le, HP. apply List.Forall_forall.
      intros z Hz. apply (le_trans x y z); auto.
    + apply Z.leb_gt in Hle.
      destruct (insertSorted cmp x l) as [l''|] eqn:Hins; [|done].
      simpl. intros [= <-]. constructor; [by apply IH|].
      pose proof (insertSorted_perm cmp x l l'' Hins) as Hperm.
      apply List.Forall_forall. intros z Hz.
      apply list_elem_of_In in Hz. rewrite Hperm in Hz.
      apply elem_of_cons in Hz as [->|Hz].
      * by apply (cmp_gt x y c).
      * rewrite List.Forall_forall in Hy_le. apply Hy_le.
        by apply list_elem_of_In.
Qed.

Lemma sortWith_sorted l l' :
  Forall P l -> sortWith cmp l = Js.Ok l' -> StronglySorted le l'.
Proof.
  revert l'. induction l as [|x l IH]; intros l' HP; simpl.
  - intros [= <-]. constructor.
  - apply Forall_cons in HP as [Hx HP].
    destruct (sortWith cmp l) as [s|] eqn:Hs; [|done]. simpl.
    apply insertSorted_sorted; [done| |by apply IH].
    by rewrite (sortWith_perm cmp l s Hs).
Qed.

End SortedFacts.

Section SortedState.
Context `{Host}.

Lemma compareFilesystems_keys (a b : FileSystem) (c : Z) :
  compareFilesystems a b = Js.Ok c ->
  exists ka kb,
    sortKey a = Some ka /\ sortKey b = Some kb /\ c = localeCompare ka kb.
Proof.
  unfold compareFilesystems, sortKey.
  destruct platform;
    try (intros [= <-]; by eexists _, _);
    (destruct (if mounted a then mountpoint a else Some (device a)) as [sa|];
       [|done];
     destruct (if mounted b then mountpoint b else Some (device b)) as [sb|];
       [|done];
     simpl; intros [= <-]; by eexists _, _).
Qed.

(** X12. When the collation of the host is a total preorder,
    [sortFilesystems] returns its input sorted by the comparison key of the
    platform: every entry stands before all later ones, by upper-cased
    label on darwin and by upper-cased mountpoint (the device of an entry
    that is not mounted) elsewhere. *)
Theorem sortFilesystems_sorted (l : list FileSystem) :
  (forall a b, 0 < localeCompare a b -> localeCompare b a <= 0) ->
  (forall a b c, localeCompare a b <= 0 -> localeCompare b c <= 0 ->
                 localeCompare a c <= 0) ->
  Forall sortable l ->
  exists st,
    sortFilesystems l = Js.Ok st /\ st ≡ₚ l /\ StronglySorted inOrder st.
Proof.
  intros Htotal Htrans Hl.
  destruct (sortFilesystems_ok l Hl) as [st Hst].
  exists st. split; [exact Hst|]. split; [by apply sortFilesystems_perm|].
  unfold sortFilesystems in Hst. simpl in Hst.
  apply (sortWith_sorted compareFilesystems sortable inOrder) with (l := l);
    [| | |exact Hl|exact Hst].
  - intros x y c _ _ Hc Hle.
    apply compareFilesystems_keys in Hc as (ka & kb & Ha & Hb & ->).
    by exists ka, kb.
  - intros x y c _ _ Hc Hgt.
    apply compareFilesystems_keys in Hc as (ka & kb & Ha & Hb & ->).
    exists kb, ka. auto.
  - intros x y z _ _ _ (ka & kb & Ha & Hb & Hab) (kb' & kc & Hb' & Hc & Hbc).
    rewrite Hb in Hb'. injection Hb' as <-.
    exists ka, kc. eauto.
Qed.

End SortedState.

(** A host that collates by length. *)
Lemma sortFilesystems_sorted_witness :
  exists st,
    sortFilesystems (H := lengthHost) [volNested; volRoot] = Js.Ok st
    /\ st ≡ₚ [volNested; volRoot]
    /\ StronglySorted (inOrder (H := lengthHost)) st.
Proof.
  apply (sortFilesystems_sorted (H := lengthHost) [volNested; volRoot]).
  - simpl. lia.
  - simpl. lia.
  - repeat constructor; intros _; discriminate.
Defined.

(** ** Edge cases of the differ *)

Section DifferEdges.
Context `{Host}.

Lemma uuidMap_fold (newState : list FileSystem)
  (acc : JsObject.t FileSystem) (u : string) :
  JsObject.get
    (fold_left (fun R x => JsObject.set R (uuid x) x) newState acc) u
  = match last (withUuid u newState) with
    | Some fs => Some fs
    | None => JsObject.get acc u
    end.
Proof.
  revert acc. induction newState as [|x l IH]; intros acc; [reflexivity|].
  simpl. rewrite IH. unfold withUuid. simpl.
  case_bool_decide as Hu.
  - rewrite last_cons. fold (withUuid u l).
    destruct (last (withUuid u l)); [reflexivity|].
    rewrite <- Hu. apply get_set_eq.
  - fold (withUuid u l). destruct (last (withUuid u l)); [reflexivity|].
    by apply get_set_ne.
Qed.

Lemma uuidMap_get (newState : list FileSystem) (u : string) :
  JsObject.get (uuidFilesystemMapOf newState) u = last (withUuid u newState).
Proof.
  unfold uuidFilesystemMapOf. rewrite uuidMap_fold.
  by destruct (last (withUuid u newState)).
Qed.

(** X13. When several entries of a snapshot carry the same uuid, the uuid
    index of the cycle holds the last of them: the old state is compared
    with the entry of a uuid after which the snapshot has no other entry of
    that uuid. *)
Theorem uuidMap_last_wins (before after : list FileSystem)
  (fs : FileSystem) :
  (forall x, x ∈ after -> uuid x <> uuid fs) ->
  JsObject.get (uuidFilesystemMapOf (before ++ fs :: after)) (uuid fs)
  = Some fs.
Proof.
  intros Hafter. rewrite uuidMap_get. unfold withUuid.
  rewrite List.filter_app. simpl.
  rewrite bool_decide_eq_true_2 by reflexivity.
  rewrite (filter_none _ after).
  - by rewrite last_snoc.
  - apply Forall_forall. intros x Hx. apply bool_decide_eq_false.
    by apply Hafter.
Qed.

Lemma uuidMap_absent (newState : list FileSystem) (u : string) :
  JsObject.get (uuidFilesystemMapOf newState) u = None
  <-> forall fs, fs ∈ newState -> uuid fs <> u.
Proof.
  unfold uuidFilesystemMapOf. rewrite uuidMap_fold. split.
  - intros Hg fs Hin Hu.
    destruct (last (withUuid u newState)) eqn:Hl; [discriminate|].
    apply last_None in Hl.
    assert (In fs (withUuid u newState)) as Hfs.
    { apply filter_In. split; [by apply list_elem_of_In|].
      by apply bool_decide_eq_true. }
    rewrite Hl in Hfs. destruct Hfs.
  - intros Hall.
    destruct (last (withUuid u newState)) as [fs|] eqn:Hl; [|reflexivity].
    apply last_Some_elem_of, list_elem_of_In, filter_In in Hl as [Hin Hu].
    apply bool_decide_eq_true in Hu. apply list_elem_of_In in Hin.
    by destruct (Hall fs Hin).
Qed.

(** X14. A poll cycle emits an unmount event for an entry exactly when the
    entry is in the state and no entry of the new snapshot carries its
    uuid. *)
Theorem unmount_iff_uuid_absent (disk : string -> bool)
  (m : JsObject.t FileSystem) (newState completion : list FileSystem) :
  Forall sortable (JsObject.values m) ->
  exists events,
    diff disk m newState completion = Js.Ok events
    /\ forall old,
         Unmount old ∈ events
         <-> old ∈ JsObject.values m
             /\ forall fs, fs ∈ newState -> uuid fs <> uuid old.
Proof.
  intros Hs. destruct (stateOf_ok m Hs) as [st Hst].
  exists (mountPass disk m completion ++ unmountRenamePass newState st).
  split; [by apply diff_ok|]. intros old.
  rewrite elem_of_app, mountPass_elem, unmountRenamePass_elem. split.
  - intros [(fs & _ & Hfs & _)|(old' & Hin & He)]; [discriminate|].
    apply unmountRenameStep_elem in He
      as [[Hg He]|(fs & _ & _ & He)]; [|discriminate].
    injection He as <-. split.
    + by rewrite <- (stateOf_perm m st Hst).
    + by apply uuidMap_absent.
  - intros [Hin Hall]. right. exists old. split.
    + by rewrite (stateOf_perm m st Hst).
    + apply unmountRenameStep_elem. left. split; [|reflexivity].
      by apply uuidMap_absent.
Qed.

Lemma flat_map_nil {A B} (f : A -> list B) (l : list A) :
  (forall x, x ∈ l -> f x = []) -> flat_map f l = [].
Proof.
  induction l as [|x l IH]; intros Hf; [reflexivity|].
  simpl. rewrite (Hf x) by left. apply IH. intros y Hy. apply Hf. by right.
Qed.

Lemma withUuid_own (l : list FileSystem) (x : FileSystem) :
  NoDup (map uuid l) -> x ∈ l -> withUuid (uuid x) l = [x].
Proof.
  unfold withUuid. induction l as [|y l IH]; intros Hnd Hin.
  - by apply elem_of_nil in Hin.
  - simpl in Hnd. apply NoDup_cons in Hnd as [Hy Hnd]. simpl.
    apply elem_of_cons in Hin as [->|Hin].
    + rewrite bool_decide_eq_true_2 by reflexivity. f_equal.
      apply filter_none. apply Forall_forall. intros z Hz.
      apply bool_decide_eq_false. intros Hu. apply Hy. rewrite <- Hu.
      apply list_elem_of_fmap. by exists z.
    + rewrite bool_decide_eq_false_2; [by apply IH|].
      intros Hu. apply Hy. rewrite Hu. apply list_elem_of_fmap. by exists x.
Qed.

(** X15. A snapshot that equals the state changes nothing: when every entry
    of the state is recorded under its own mountpoint and the entries have
    distinct uuids, diffing the state against itself yields no event,
    whatever the disk and the order of the directory checks. *)
Theorem diff_against_itself (m : JsObject.t FileSystem) :
  keyed m ->
  Forall sortable (JsObject.values m) ->
  NoDup (map uuid (JsObject.values m)) ->
  exists st,
    stateOf m = Js.Ok st
    /\ forall disk completion,
         completion ≡ₚ st -> diff disk m st completion = Js.Ok [].
Proof.
  intros Hk Hs Hnd. destruct (stateOf_ok m Hs) as [st Hst].
  exists st. split; [exact Hst|]. intros disk completion Hperm.
  pose proof (stateOf_perm m st Hst) as Hst'.
  rewrite (diff_ok disk m st completion st Hst).
  assert (mountPass disk m completion = []) as ->.
  { apply flat_map_nil. intros fs Hfs. unfold mountCallback.
    rewrite Hperm, Hst' in Hfs. apply values_elem in Hfs as [k Hkv].
    rewrite (Hk k fs Hkv).
    destruct (elem_get_first m k fs Hkv) as [v Hv]. rewrite Hv.
    rewrite bool_decide_eq_false_2 by discriminate.
    by rewrite andb_false_r. }
  assert (unmountRenamePass st st = []) as ->; [|reflexivity].
  apply flat_map_nil. intros old Hold. unfold unmountRenameStep.
  rewrite uuidMap_get, withUuid_own; [|by rewrite Hst'|done].
  simpl. by rewrite decide_True.
Qed.

Lemma mountPass_empty_map (disk : string -> bool) (l : list FileSystem) :
  mountPass disk JsObject.empty l
  = map Mount (List.filter (directoryExists disk) l).
Proof.
  unfold mountPass. induction l as [|x l IH]; [reflexivity|].
  simpl. rewrite IH. unfold mountCallback, directoryExists. simpl.
  rewrite andb_true_r. by destruct (isDirectory disk (mountpoint x)).
Qed.

(** X16. On an empty state (as after [start]) the cycle mounts the entries
    of the snapshot whose mount directory exists, one event each, in the
    order in which their directory checks complete, and emits nothing
    else. *)
Theorem diff_empty_state (disk : string -> bool)
  (newState completion : list FileSystem) :
  diff disk JsObject.empty newState completion
  = Js.Ok (map Mount (List.filter (directoryExists disk) completion)).
Proof.
  rewrite (diff_ok disk JsObject.empty newState completion []) by reflexivity.
  unfold unmountRenamePass. simpl.
  by rewrite app_nil_r, mountPass_empty_map.
Qed.

End DifferEdges.

(** [volA] and [volB] in the state, [volB] and [volC] in the snapshot. *)
Lemma unmount_iff_uuid_absent_witness :
  exists events,
    diff (H := exampleHost) allDirectories (mountedMap [volA; volB])
         [volB; volC] [volC; volB] = Js.Ok events
    /\ forall old,
         Unmount old ∈ events
         <-> old ∈ JsObject.values (mountedMap [volA; volB])
             /\ forall fs, fs ∈ [volB; volC] -> uuid fs <> uuid old.
Proof.
  apply (unmount_iff_uuid_absent (H := exampleHost) allDirectories
           (mountedMap [volA; volB]) [volB; volC] [volC; volB]).
  repeat constructor; intros _; discriminate.
Defined.

(** The state that holds [volA] and [volB]. *)
Lemma diff_against_itself_witness :
  exists st,
    stateOf (H := exampleHost) (mountedMap [volB; volA]) = Js.Ok st
    /\ forall disk completion,
         completion ≡ₚ st ->
         diff (H := exampleHost) disk (mountedMap [volB; volA]) st completion
         = Js.Ok [].
Proof.
  apply (diff_against_itself (H := exampleHost) (mountedMap [volB; volA])).
  - intros k v Hkv. vm_compute in Hkv.
    apply elem_of_cons in Hkv as [Hkv|Hkv];
      [|apply list_elem_of_singleton in Hkv];
      injection Hkv as -> ->; reflexivity.
  - repeat constructor; intros _; discriminate.
  - vm_compute. repeat constructor; rewrite ?elem_of_cons, ?elem_of_nil;
      intros Hx; decompose [or] Hx; try discriminate; contradiction.
Defined.

(** Two entries with the uuid of [volA]. *)
Lemma uuidMap_last_wins_witness :
  JsObject.get (uuidFilesystemMapOf ([volA] ++ volA_renamed :: [volB]))
               (uuid volA_renamed)
  = Some volA_renamed.
Proof.
  apply (uuidMap_last_wins [volA] [volB] volA_renamed).
  intros x Hx. apply list_elem_of_singleton in Hx. subst x. discriminate.
Defined.

(** ** The states a monitor reaches *)

Section ReachableStates.
Context `{Host}.

Lemma reachable_consistent (w : World) : reachable w -> consistent w.
Proof.
  intros (actions & Hwf & Hrun).
  destruct (runActions_consistent actions initial consistent_initial Hwf)
    as (w0 & Hrun0 & Hc & _).
  rewrite Hrun in Hrun0. by injection Hrun0 as <-.
Qed.

Lemma consistent_state (w : World) :
  consistent w ->
  exists st,
    state w = Js.Ok st
    /\ st ≡ₚ JsObject.values (filesystemMap w)
    /\ NoDup (map mountKey st)
    /\ forall fs, fs ∈ st ->
         JsObject.get (filesystemMap w) (mountKey fs) = Some fs.
Proof.
  intros [_ (Hnd & Hkeyed & Hsort & _)].
  destruct (stateOf_ok _ Hsort) as [st Hst].
  pose proof (stateOf_perm _ _ Hst) as Hperm.
  exists st. split; [exact Hst|]. split; [exact Hperm|]. split.
  - assert (map mountKey st
            ≡ₚ map mountKey (JsObject.values (filesystemMap w))) as ->
      by (by apply Permutation_map).
    unfold mountKey. by rewrite keyed_keys.
  - intros fs Hfs. rewrite Hperm in Hfs.
    apply values_elem in Hfs as [k Hkv].
    unfold mountKey. rewrite (Hkeyed k fs Hkv).
    by apply get_NoDup_elem.
Qed.

(** X17. In every state a monitor reaches, [state] does not throw, lists
    the entries of the state map, holds no two entries with the same
    mountpoint, and the map holds each entry under its mountpoint. *)
Theorem state_distinct_mountpoints (w : World) :
  reachable w ->
  exists st,
    state w = Js.Ok st
    /\ st ≡ₚ JsObject.values (filesystemMap w)
    /\ NoDup (map mountKey st)
    /\ forall fs, fs ∈ st ->
         JsObject.get (filesystemMap w) (mountKey fs) = Some fs.
Proof. intros Hr. by apply consistent_state, reachable_consistent. Qed.

(** X18. In every state a monitor reaches, [isMounted(path)] is true
    exactly when the state map has an entry under [path] (for a path other
    than the string that the key of a missing mountpoint is coerced to). *)
Theorem isMounted_iff_recorded (w : World) (path : string) :
  reachable w ->
  path <> "undefined" ->
  exists b,
    isMounted w path = Js.Ok b
    /\ (b = true <-> is_Some (JsObject.get (filesystemMap w) path)).
Proof.
  intros Hr Hpath. pose proof (reachable_consistent w Hr) as Hc.
  destruct (consistent_state w Hc) as (st & Hst & Hperm & _ & Hget).
  destruct Hc as [_ (Hnd & Hkeyed & _)].
  unfold isMounted. rewrite Hst. simpl. eexists. split; [reflexivity|].
  rewrite existsb_exists. split.
  - intros (drive & Hin & Hmp). apply bool_decide_eq_true in Hmp.
    apply list_elem_of_In in Hin. exists drive.
    rewrite <- (Hget drive Hin). unfold mountKey. by rewrite Hmp.
  - intros [v Hv]. exists v. apply get_Some_elem in Hv.
    pose proof (Hkeyed path v Hv) as Hk. split.
    + apply list_elem_of_In. rewrite Hperm. apply values_elem. by exists path.
    + apply bool_decide_eq_true.
      destruct (mountpoint v) as [s|]; simpl in Hk; by subst.
Qed.

Lemma string_prefix_refl (s : string) : String.prefix s s = true.
Proof.
  induction s as [|c s IH]; [reflexivity|]. simpl.
  by destruct (ascii_dec c c).
Qed.

Lemma string_prefix_longer (s p : string) :
  String.prefix s p = true -> (String.length p <= String.length s)%nat ->
  s = p.
Proof.
  revert p. induction s as [|c s IH]; intros [|d p] Hp Hl; simpl in *;
    try done; try lia.
  destruct (ascii_dec c d) as [->|]; [|discriminate].
  f_equal. apply IH; [done | lia].
Qed.

(** X19. In every state a monitor reaches, [filesystem(path)] for the
    mountpoint of a mounted entry of the state returns that entry. *)
Theorem filesystem_at_mountpoint (w : World) (path : string)
  (fs : FileSystem) :
  reachable w ->
  JsObject.get (filesystemMap w) path = Some fs ->
  mounted fs = true ->
  filesystemAt w path = Js.Ok (Some fs).
Proof.
  intros Hr Hget Hm. pose proof (reachable_consistent w Hr) as Hc.
  destruct (consistent_state w Hc) as (st & Hst & Hperm & _ & Hown).
  destruct Hc as [_ (Hnd & Hkeyed & Hsort & _)].
  assert (Forall sortable st) as Hsst by (by rewrite Hperm).
  destruct (filesystemIn_spec path st Hsst) as (r & Hr' & Hspec).
  unfold filesystemAt. rewrite Hst. simpl. rewrite Hr'. f_equal.
  pose proof (get_Some_elem _ _ _ Hget) as Hin.
  assert (fs ∈ st) as Hfs
    by (rewrite Hperm; apply values_elem; by exists path).
  assert (mountpoint fs = Some path) as Hmp.
  { pose proof (Hkeyed path fs Hin) as Hk.
    rewrite Forall_forall in Hsort.
    assert (sortable fs) as Hs
      by (apply Hsort, values_elem; by exists path).
    specialize (Hs Hm). destruct (mountpoint fs); [|done].
    simpl in Hk. by subst. }
  destruct r as [fs'|]; simpl in Hspec.
  - destruct Hspec as (Hin' & s & (Hm' & Hmp' & Hp) & Hmax).
    specialize (Hmax fs path Hfs (conj Hm (conj Hmp (string_prefix_refl path)))).
    apply string_prefix_longer in Hp; [|exact Hmax]. subst s.
    pose proof (Hown fs' Hin') as Hg. unfold mountKey in Hg.
    rewrite Hmp' in Hg. simpl in Hg. congruence.
  - exfalso. apply (Hspec fs path Hfs).
    split; [done|]. split; [done|]. apply string_prefix_refl.
Qed.

Lemma act_stopped (a : Action) (w : World) :
  consistent w -> running w = false -> wellFormedAction a ->
  isStart a = false ->
  exists w', act w a = Js.Ok w' /\ consistent w' /\ sameStore w w'.
Proof.
  intros Hc Hrun Hwf Ha. destruct a as [| | |disk ns c|ref i]; simpl.
  - discriminate.
  - destruct (stop_consistent w Hc) as (_ & _ & _ & Hsame).
    rewrite (Hsame Hrun). by exists w.
  - destruct (nextRefresh_consistent w Hc) as [Hc' Hs]. by eexists.
  - destruct Hwf as [Hperm Hs].
    destruct (monitorCycle_consistent disk ns c w Hc Hperm Hs)
      as (w' & Hcyc & _ & _ & Hsame & _).
    rewrite (Hsame Hrun) in Hcyc. by exists w.
  - destruct (watcherInput_consistent ref i w Hc)
      as (w' & Hin & Hc' & _ & Hsame & _).
    exists w'. auto.
Qed.

(** An uninterrupted turn is the end of a turn on the map it started
    with. *)
Lemma monitorCycle_uninterrupted disk newState completion w :
  monitorCycle disk newState completion w
  = if running w
    then cycleFinish disk (filesystemMap w) newState completion w
    else Js.Ok w.
Proof.
  unfold monitorCycle, cycleFinish, diff, state.
  destruct (running w); [|reflexivity].
  by destruct (stateOf (filesystemMap w)).
Qed.

Lemma emitEvents_stopped (events : list FileSystemEvent) (w : World) :
  handlersAttached w -> running w = false ->
  exists w',
    reduce emitEvent events w = Js.Ok w' /\ sameStore w w'
    /\ listeners w' = listeners w.
Proof.
  revert w. induction events as [|e events IH]; intros w Hatt Hrun.
  - by exists w.
  - assert (emit (typeName e) (Some e) w = Js.Ok w) as Hown.
    { destruct e; simpl.
      - by rewrite emit_mount, Hrun.
      - by rewrite emit_rename, Hrun.
      - by rewrite emit_unmount, Hrun. }
    destruct (emit_all e w Hatt) as (w1 & Hw1 & (Ha1 & Hm1 & Hd1) & Hl1).
    destruct (IH w1) as (w' & Hw' & (Ha' & Hm' & Hd') & Hl').
    + by apply (handlersAttached_frame w).
    + unfold running. by rewrite Ha1.
    + assert (emitEvent w e = Js.Ok w1) as Hev
        by (unfold emitEvent; rewrite Hown; exact Hw1).
      exists w'. simpl. rewrite Hev. simpl. split; [exact Hw'|].
      repeat split; congruence.
Qed.

(** The end of a turn in flight on a stopped monitor: the handlers are
    detached, and nothing changes the state map or the registry. *)
Lemma cycleFinish_stopped disk seen newState completion (w : World) :
  consistent w -> running w = false ->
  exists w',
    cycleFinish disk seen newState completion w = Js.Ok w'
    /\ consistent w' /\ sameStore w w'.
Proof.
  intros Hc Hrun. pose proof Hc as [Hatt Hcov].
  destruct (consistent_state w Hc) as (st & Hst & _).
  unfold cycleFinish. rewrite Hst. simpl.
  destruct (emitEvents_stopped
              (mountPass disk seen completion
               ++ unmountRenamePass newState st) w Hatt Hrun)
    as (w1 & Hw1 & Hs1 & Hl1).
  rewrite Hw1. simpl.
  assert (consistent w1) as Hc1.
  { split; [|by apply (registryCovers_frame w)].
    apply (handlersAttached_frame w); [apply Hs1 | exact Hl1 | exact Hatt]. }
  rewrite emit_changed by apply Hc1. simpl.
  destruct (emit_refresh_consistent w1 Hc1) as (w' & Hw' & Hc' & Hs').
  exists w'. split; [exact Hw'|]. split; [exact Hc'|].
  destruct Hs1 as (? & ? & ?), Hs' as (? & ? & ?).
  repeat split; congruence.
Qed.

Lemma runStopped (inputs : list StoppedInput) (w : World) :
  consistent w -> running w = false ->
  Forall wellFormedStopped inputs ->
  exists w', reduce actStopped inputs w = Js.Ok w' /\ sameStore w w'.
Proof.
  revert w. induction inputs as [|i inputs IH]; intros w Hc Hrun Hwf.
  - by exists w.
  - apply Forall_cons in Hwf as [Hwfi Hwf].
    assert (exists w1, actStopped w i = Js.Ok w1 /\ consistent w1
                       /\ sameStore w w1) as (w1 & Hact & Hc1 & Hs1).
    { destruct i as [a|disk seen ns c]; simpl.
      - destruct Hwfi as [Hwfa Hnsa]. by apply act_stopped.
      - by apply cycleFinish_stopped. }
    destruct (IH w1 Hc1) as (w' & Hrun' & Hs'); [|done|].
    { unfold running. destruct Hs1 as (-> & _). exact Hrun. }
    exists w'. simpl. rewrite Hact. simpl.
    split; [exact Hrun'|].
    destruct Hs1 as (? & ? & ?), Hs' as (? & ? & ?).
    repeat split; congruence.
Qed.

(** X20. [stop] freezes the state: from a state a monitor reaches, after
    [stop] and until the next [start], nothing changes the state map or the
    registry, so [state] keeps answering what it answered when the monitor
    was stopped: not the end of a turn of the polling loop that was waiting
    for its directory answers when [stop] was called (it still emits its
    events, ["changed"] and ["refresh"], to listeners that are no longer
    the handlers), not a turn that was waiting for its snapshot, no watcher
    input, no [nextRefresh] and no further [stop]. *)
Theorem stop_freezes_state (w : World) (inputs : list StoppedInput) :
  reachable w ->
  Forall wellFormedStopped inputs ->
  exists w',
    reduce actStopped inputs (stop w) = Js.Ok w'
    /\ running w' = false
    /\ filesystemMap w' = filesystemMap w
    /\ deletionWatchers w' = deletionWatchers w
    /\ state w' = state w.
Proof.
  intros Hr Hwf. pose proof (reachable_consistent w Hr) as Hc.
  destruct (stop_consistent w Hc) as (Hc' & Hmap & Hreg & Hsame).
  assert (running (stop w) = false) as Hrun.
  { unfold stop. destruct (running w) eqn:Hrw; [reflexivity | exact Hrw]. }
  destruct (runStopped inputs (stop w) Hc' Hrun Hwf)
    as (w' & Hrun' & Ha & Hm & Hd).
  exists w'. split; [exact Hrun'|]. split; [|split; [|split]].
  - unfold running in *. by rewrite Ha.
  - congruence.
  - congruence.
  - unfold state. congruence.
Qed.

End ReachableStates.

(** The running monitor that holds [volA] and [volB]. *)
Lemma state_distinct_mountpoints_witness :
  exists st,
    state (H := exampleHost) twoMounted = Js.Ok st
    /\ st ≡ₚ JsObject.values (filesystemMap twoMounted)
    /\ NoDup (map mountKey st)
    /\ forall fs, fs ∈ st ->
         JsObject.get (filesystemMap twoMounted) (mountKey fs) = Some fs.
Proof.
  apply (state_distinct_mountpoints (H := exampleHost) twoMounted).
  exists (firstn 3 singleRun). split; [|vm_compute; reflexivity].
  simpl. run_wellformed.
Defined.

(** The mountpoint of [volA]. *)
Lemma isMounted_iff_recorded_witness :
  exists b,
    isMounted (H := exampleHost) twoMounted "/mnt/a" = Js.Ok b
    /\ (b = true
        <-> is_Some (JsObject.get (filesystemMap twoMounted) "/mnt/a")).
Proof.
  apply (isMounted_iff_recorded (H := exampleHost) twoMounted "/mnt/a").
  - exists (firstn 3 singleRun). split; [|vm_compute; reflexivity].
    simpl. run_wellformed.
  - discriminate.
Defined.

(** The mountpoint of [volA]. *)
Lemma filesystem_at_mountpoint_witness :
  filesystemAt (H := exampleHost) twoMounted "/mnt/a" = Js.Ok (Some volA).
Proof.
  apply (filesystem_at_mountpoint (H := exampleHost) twoMounted "/mnt/a" volA).
  - exists (firstn 3 singleRun). split; [|vm_compute; reflexivity].
    simpl. run_wellformed.
  - vm_compute. reflexivity.
  - reflexivity.
Defined.

(** After the monitor was stopped: a turn that was waiting for its
    snapshot, the end of a turn that was waiting for its directory answers
    and had found [/mnt/c] unrecorded, a deletion notice, [nextRefresh] and
    a second [stop]. *)
Lemma stop_freezes_state_witness :
  exists w',
    reduce (actStopped (H := exampleHost))
      [ Plain (Cycle allDirectories [] []);
        InFlight allDirectories (filesystemMap twoMounted)
                 [volB; volC] [volC; volB];
        Plain (Watcher 1 (FolderDeletionWatcher.Notify
                            (FolderDeletionWatcher.mkNotification
                               ["mnt"] "rename" "a")));
        Plain NextRefresh; Plain StopMonitor ] (stop twoMounted) = Js.Ok w'
    /\ running w' = false
    /\ filesystemMap w' = filesystemMap twoMounted
    /\ deletionWatchers w' = deletionWatchers twoMounted
    /\ state (H := exampleHost) w' = state (H := exampleHost) twoMounted.
Proof.
  apply (stop_freezes_state (H := exampleHost) twoMounted).
  - exists (firstn 3 singleRun). split; [|vm_compute; reflexivity].
    simpl. run_wellformed.
  - repeat (apply Forall_cons; split); try apply Forall_nil; try exact I;
      simpl; (split; [|reflexivity]); try exact I.
    split; [done | constructor].
Defined.

(** A turn in flight across [stop]: a subscriber of the stopped monitor is
    still handed the mount event of [volC] and the unmount event of [volA],
    and a promise of [nextRefresh] is still resolved, while the state stays
    as it was. *)
Example cycle_in_flight_across_stop :
  let w := stop (fst (nextRefresh (fst (attachIterable twoMounted)))) in
  let r := cycleFinish (H := exampleHost) allDirectories
             (filesystemMap twoMounted) [volB; volC] [volC; volB] w in
  running w = false
  /\ (queues <$> r) = Js.Ok [[Mount volC; Unmount volA]]
  /\ promises w = [true; false]
  /\ (promises <$> r) = Js.Ok [true; true]
  /\ (filesystemMap <$> r) = Js.Ok (filesystemMap twoMounted).
Proof. repeat split; vm_compute; reflexivity. Qed.

(** ** The first cycle after [start], and [waitForSetup] *)

Section FirstCycle.
Context `{Host}.

Lemma emitEvent_mount (fs : FileSystem) (w : World) :
  handlersAttached w -> running w = true ->
  exists w',
    emitEvent w (Mount fs) = Js.Ok w'
    /\ filesystemMap w' = JsObject.set (filesystemMap w) (mountKey fs) fs
    /\ listeners w' = listeners w /\ promises w' = promises w
    /\ abortController w' = abortController w.
Proof.
  intros Hatt Hrun. unfold emitEvent. simpl.
  rewrite emit_mount, Hrun by done. simpl.
  assert (handlersAttached (onMount (Mount fs) w)) as Hatt1
    by (by apply (handlersAttached_frame w)).
  destruct (emit_all (Mount fs) _ Hatt1) as (w' & Hw' & (Ha & Hm & _) & Hl).
  exists w'. split; [exact Hw'|].
  apply callAll_iterables_promises in Hw'; [|apply Hatt1].
  rewrite Hm, Hl, Hw', Ha. done.
Qed.

Lemma emitEvents_mount (l : list FileSystem) (w : World) :
  handlersAttached w -> running w = true ->
  exists w',
    reduce emitEvent (map Mount l) w = Js.Ok w'
    /\ filesystemMap w'
       = fold_left (fun R fs => JsObject.set R (Js.propKey (mountpoint fs)) fs)
                   l (filesystemMap w)
    /\ listeners w' = listeners w /\ promises w' = promises w
    /\ abortController w' = abortController w.
Proof.
  revert w. induction l as [|fs l IH]; intros w Hatt Hrun.
  - by exists w.
  - destruct (emitEvent_mount fs w Hatt Hrun)
      as (w1 & Hw1 & Hm1 & Hl1 & Hp1 & Ha1).
    destruct (IH w1) as (w' & Hw' & Hm' & Hl' & Hp' & Ha').
    + by apply (handlersAttached_frame w).
    + unfold running. by rewrite Ha1.
    + exists w'. simpl. rewrite Hw1. simpl. split; [exact Hw'|].
      rewrite Hm', Hm1, Hl', Hp', Ha'. done.
Qed.

Lemma cycle_on_empty_map (disk : string -> bool)
  (newState completion : list FileSystem) (w : World) :
  handlersAttached w -> running w = true ->
  filesystemMap w = JsObject.empty ->
  exists w',
    monitorCycle disk newState completion w = Js.Ok w'
    /\ filesystemMap w'
       = mountedMap (List.filter (directoryExists disk) completion)
    /\ abortController w' = abortController w
    /\ forall p, OnceResolve p ∈ listenersOf "refresh" w ->
                 (p < List.length (promises w))%nat ->
                 promises w' !! p = Some true.
Proof.
  intros Hatt Hrun Hempty. unfold monitorCycle. rewrite Hrun, Hempty.
  rewrite (diff_ok disk JsObject.empty newState completion [])
    by reflexivity.
  simpl. rewrite app_nil_r, mountPass_empty_map.
  destruct (emitEvents_mount
              (List.filter (directoryExists disk) completion) w Hatt Hrun)
    as (w1 & Hw1 & Hm1 & Hl1 & Hp1 & Ha1).
  rewrite Hw1. simpl.
  assert (handlersAttached w1) as Hatt1
    by (by apply (handlersAttached_frame w)).
  rewrite emit_changed by exact Hatt1. simpl.
  pose proof Hatt1 as (_ & _ & _ & _ & _ & Href).
  destruct (callAll_resolvers (listenersOf "refresh" w1) w1 Href)
    as (w' & Hemit & (Ha' & Hm' & _) & _ & _ & _ & _ & Hres).
  exists w'. split; [exact Hemit|]. split; [|split].
  - rewrite Hm', Hm1, Hempty. reflexivity.
  - by rewrite Ha', Ha1.
  - intros p Hp Hlt. apply Hres.
    + unfold listenersOf in *. by rewrite Hl1.
    + by rewrite Hp1.
Qed.


Lemma mountedMap_values (l : list FileSystem) (acc : JsObject.t FileSystem)
  (v : FileSystem) :
  v ∈ JsObject.values
        (fold_left (fun R fs => JsObject.set R (Js.propKey (mountpoint fs)) fs)
                   l acc) ->
  v ∈ l \/ v ∈ JsObject.values acc.
Proof.
  revert acc. induction l as [|x l IH]; intros acc Hv; [by right|].
  simpl in Hv. apply IH in Hv as [Hv|Hv]; [left; by right|].
  apply values_elem in Hv as [k Hkv]. apply set_elem in Hkv as [Heq|Hin].
  - injection Heq as _ ->. left. by left.
  - right. apply values_elem. by exists k.
Qed.

Lemma mountedMap_nonempty (l : list FileSystem) (acc : JsObject.t FileSystem) :
  l <> [] \/ acc <> [] ->
  fold_left (fun R fs => JsObject.set R (Js.propKey (mountpoint fs)) fs) l acc
  <> [].
Proof.
  revert acc. induction l as [|x l IH]; intros acc Hne; simpl.
  - by destruct Hne.
  - apply IH. right. destruct acc as [|[k v] acc]; simpl; [done|].
    by case_decide.
Qed.

(** X22. [waitForSetup] returns at once when the state holds an entry,
    whether the monitor runs or not; with an empty state it is rejected with
    the error of [nextRefresh] on a stopped monitor, and on a running one it
    waits for the next refresh and returns after the first cycle that mounts
    an entry. *)
Theorem waitForSetup_outcome (w : World) :
  reachable w ->
  (filesystemMap w <> [] -> waitForSetup w = Js.Ok (w, Fulfilled))
  /\ (filesystemMap w = [] -> running w = false ->
      waitForSetup w
      = Js.Ok (w, Rejected (Js.ErrorMsg "Mountie is not running")))
  /\ (filesystemMap w = [] -> running w = true ->
      exists w1 p,
        waitForSetup w = Js.Ok (w1, Pending p)
        /\ promises w1 !! p = Some false
        /\ forall disk newState completion fs,
             fs ∈ completion -> directoryExists disk fs = true ->
             exists w2,
               monitorCycle disk newState completion w1 = Js.Ok w2
               /\ promises w2 !! p = Some true
               /\ waitForSetup w2 = Js.Ok (w2, Fulfilled)).
Proof.
  intros Hr. pose proof (reachable_consistent w Hr) as Hc.
  destruct (consistent_state w Hc) as (st & Hst & Hperm & _).
  unfold waitForSetup at 1 2 3. rewrite Hst. simpl.
  rewrite (Permutation_length Hperm). unfold JsObject.values.
  rewrite length_map. split; [|split].
  - intros Hne. destruct (filesystemMap w); [done|reflexivity].
  - intros -> Hrun. simpl. unfold nextRefresh. by rewrite Hrun.
  - intros Hempty Hrun. rewrite Hempty. simpl.
    destruct (nextRefresh_consistent w Hc) as [[Hatt1 _] (Ha1 & Hm1 & _)].
    unfold nextRefresh in *. rewrite Hrun in *. simpl in *.
    eexists _, _. split; [reflexivity|]. simpl. split.
    { by rewrite lookup_app_r, Nat.sub_diag. }
    intros disk newState completion fs Hfs Hdir.
    match goal with |- context [monitorCycle _ _ _ ?w1] =>
      destruct (cycle_on_empty_map disk newState completion w1 Hatt1)
        as (w2 & Hcyc & Hm2 & Ha2 & Hres); [exact Hrun | exact Hempty |]
    end.
    exists w2. split; [exact Hcyc|]. split.
    { apply Hres; simpl.
      - unfold listenersOf. simpl. apply listenersIn_elem.
        apply elem_of_app. right. by apply list_elem_of_singleton.
      - rewrite length_app. simpl. lia. }
    unfold waitForSetup, state.
    destruct (stateOf_ok (filesystemMap w2)) as [st2 Hst2].
    { rewrite Hm2. apply Forall_forall. intros v Hv.
      apply mountedMap_values in Hv as [Hv|Hv];
        [|by apply elem_of_nil in Hv].
      apply list_elem_of_In, filter_In in Hv as [_ Hv].
      intros _. unfold directoryExists in Hv.
      by destruct (mountpoint v). }
    rewrite Hst2. simpl.
    rewrite (Permutation_length (stateOf_perm _ _ Hst2)).
    unfold JsObject.values. rewrite length_map.
    destruct (filesystemMap w2) eqn:Hmap2; [|reflexivity].
    exfalso. symmetry in Hm2. revert Hm2. apply mountedMap_nonempty. left.
    intros Hnil.
    assert (In fs (List.filter (directoryExists disk) completion)) as Hin
      by (apply filter_In; split; [by apply list_elem_of_In | exact Hdir]).
    rewrite Hnil in Hin. destruct Hin.
Qed.

End FirstCycle.


(** A monitor that was just started. *)
Lemma waitForSetup_outcome_witness :
  (filesystemMap (worldAfter [Start]) <> [] ->
   waitForSetup (H := exampleHost) (worldAfter [Start])
   = Js.Ok (worldAfter [Start], Fulfilled))
  /\ (filesystemMap (worldAfter [Start]) = [] ->
      running (worldAfter [Start]) = false ->
      waitForSetup (H := exampleHost) (worldAfter [Start])
      = Js.Ok (worldAfter [Start],
               Rejected (Js.ErrorMsg "Mountie is not running")))
  /\ (filesystemMap (worldAfter [Start]) = [] ->
      running (worldAfter [Start]) = true ->
      exists w1 p,
        waitForSetup (H := exampleHost) (worldAfter [Start])
        = Js.Ok (w1, Pending p)
        /\ promises w1 !! p = Some false
        /\ forall disk newState completion fs,
             fs ∈ completion -> directoryExists disk fs = true ->
             exists w2,
               monitorCycle (H := exampleHost) disk newState completion w1
               = Js.Ok w2
               /\ promises w2 !! p = Some true
               /\ waitForSetup (H := exampleHost) w2 = Js.Ok (w2, Fulfilled)).
Proof.
  apply (waitForSetup_outcome (H := exampleHost) (worldAfter [Start])).
  exists [Start]. split; [|vm_compute; reflexivity].
  run_wellformed.
Defined.

(** ** The handlers, and the unmount that a watcher reports *)

Section HandlerRoundTrip.

Lemma delete_set_fresh {V} (o : JsObject.t V) (k : string) (v : V) :
  JsObject.get o k = None -> JsObject.delete (JsObject.set o k v) k = o.
Proof.
  induction o as [|[k' v'] o IH]; simpl.
  - intros _. by rewrite decide_True.
  - case_decide as Hk; [discriminate|]. intros Hg. simpl.
    rewrite decide_False by done. f_equal. by apply IH.
Qed.

(** X23. The unmount handler undoes the mount handler: handling a mount of
    an entry whose mountpoint is neither in the state map nor in the
    registry, and then an unmount of the same entry, gives back the state
    map and the registry as they were and leaves behind one watcher, which
    has been stopped. *)
Theorem unmount_undoes_mount (fs : FileSystem) (w : World) :
  JsObject.get (filesystemMap w) (mountKey fs) = None ->
  JsObject.get (deletionWatchers w) (mountKey fs) = None ->
  onUnmount (Unmount fs) (onMount (Mount fs) w)
  = Js.Ok {| abortController := abortController w;
             filesystemMap := filesystemMap w;
             listeners := listeners w;
             deletionWatchers := deletionWatchers w;
             heap := heap w
                     ++ [FolderDeletionWatcher.stop
                           (FolderDeletionWatcher.new (mountpoint fs))];
             promises := promises w;
             queues := queues w |}.
Proof.
  unfold mountKey. intros Hm Hd. unfold onUnmount, onMount. simpl.
  rewrite get_set_eq. rewrite !delete_set_fresh by done.
  unfold mret, Js.result_ret. do 2 f_equal.
  rewrite <- (Nat.add_0_r (List.length (heap w))).
  by rewrite alter_app_r.
Qed.

End HandlerRoundTrip.

(** [volA] on a new monitor. *)
Lemma unmount_undoes_mount_witness :
  onUnmount (Unmount volA) (onMount (Mount volA) initial)
  = Js.Ok {| abortController := None;
             filesystemMap := JsObject.empty;
             listeners := [];
             deletionWatchers := JsObject.empty;
             heap := [FolderDeletionWatcher.stop
                        (FolderDeletionWatcher.new (Some "/mnt/a"))];
             promises := [];
             queues := [] |}.
Proof.
  apply (unmount_undoes_mount volA initial); reflexivity.
Defined.

Section WatcherUnmount.
Context `{Host}.

(** X24. When a watcher whose chain is up for the path [p] is notified that
    a level of [p] was renamed or removed, and the state map has an entry
    under [p]: on a running monitor the entry leaves the state map and the
    path leaves the registry at once, without waiting for the next poll
    cycle; on a stopped monitor the state map and the registry stay as they
    are. *)
Theorem watcher_deletion_unmounts (w : World) (ref : nat)
  (fdw : FolderDeletionWatcher.t) (p : string)
  (n : FolderDeletionWatcher.Notification) (fs : FileSystem) :
  reachable w ->
  heap w !! ref = Some fdw ->
  FolderDeletionWatcher.path fdw = Some p ->
  armed (Path.parse p) fdw ->
  FolderDeletionWatcher.reports p n = true ->
  JsObject.get (filesystemMap w) p = Some fs ->
  exists w',
    watcherInput ref (FolderDeletionWatcher.Notify n) w = Js.Ok w'
    /\ running w' = running w
    /\ filesystemMap w'
       = (if running w then JsObject.delete (filesystemMap w) p
          else filesystemMap w)
    /\ deletionWatchers w'
       = (if running w then JsObject.delete (deletionWatchers w) p
          else deletionWatchers w).
Proof.
  intros Hr Href Hpath Harmed Hrep Hget.
  pose proof (reachable_consistent w Hr) as [Hatt Hcov].
  unfold watcherInput. rewrite Href. simpl.
  assert (FolderDeletionWatcher.notify n fdw
          = FolderDeletionWatcher.resolve fdw) as Hnot.
  { unfold FolderDeletionWatcher.notify.
    destruct Harmed as (_ & -> & _).
    unfold FolderDeletionWatcher.reports in Hrep. by rewrite Hrep. }
  rewrite Hnot.
  destruct (resolve_armed _ _ Harmed) as (Hcalls & _).
  rewrite Hcalls.
  rewrite (proj2 (Nat.ltb_lt _ _)) by lia.
  rewrite Hpath. simpl.
  set (w0 := {| abortController := abortController w;
                filesystemMap := filesystemMap w;
                listeners := listeners w;
                deletionWatchers := deletionWatchers w;
                heap := <[ref := FolderDeletionWatcher.resolve fdw]> (heap w);
                promises := promises w; queues := queues w |}).
  assert (handlersAttached w0) as Hatt0
    by (by apply (handlersAttached_frame w)).
  assert (registryCovers w0) as Hcov0
    by (by apply (registryCovers_frame w)).
  unfold watcherCallback.
  change (filesystemMap w0) with (filesystemMap w). rewrite Hget.
  rewrite emit_unmount by exact Hatt0.
  change (running w0) with (running w).
  assert (Js.propKey (mountpoint fs) = p) as Hkey.
  { destruct Hcov as (_ & Hkeyed & _). apply Hkeyed.
    by apply get_Some_elem. }
  destruct (running w) eqn:Hrun.
  - destruct (onUnmount_covers (Unmount fs) w0 Hcov0)
      as (w1 & Hw1 & _ & Ha1 & Hl1 & Hd1 & Hm1).
    { unfold eventKey. simpl. rewrite Hkey.
      destruct Hcov as (_ & _ & _ & Hsub). apply Hsub.
      apply get_is_Some_keySet. by exists fs. }
    rewrite Hw1. simpl.
    assert (handlersAttached w1) as Hatt1
      by (by apply (handlersAttached_frame w0)).
    destruct (emit_all (Unmount fs) w1 Hatt1)
      as (w2 & Hw2 & (Ha2 & Hm2 & Hd2) & Hl2).
    rewrite Hw2. simpl.
    rewrite emit_changed by (by apply (handlersAttached_frame w1)).
    exists w2. split; [reflexivity|]. simpl in Hd1, Hm1.
    rewrite Hkey in Hd1, Hm1.
    split; [|split]; [|congruence|congruence].
    unfold running in *. rewrite Ha2, Ha1. exact Hrun.
  - simpl.
    destruct (emit_all (Unmount fs) w0 Hatt0)
      as (w2 & Hw2 & (Ha2 & Hm2 & Hd2) & Hl2).
    rewrite Hw2. simpl.
    rewrite emit_changed by (by apply (handlersAttached_frame w0)).
    exists w2. split; [reflexivity|].
    split; [|split]; [|exact Hm2|exact Hd2].
    unfold running in *. rewrite Ha2. exact Hrun.
Qed.

End WatcherUnmount.

(** The mount directory of [volA] is removed. *)
Lemma watcher_deletion_unmounts_witness :
  exists w',
    watcherInput 1
      (FolderDeletionWatcher.Notify
         (FolderDeletionWatcher.mkNotification ["mnt"] "rename" "a"))
      twoMounted = Js.Ok w'
    /\ running w' = running twoMounted
    /\ filesystemMap w'
       = (if running twoMounted
          then JsObject.delete (filesystemMap twoMounted) "/mnt/a"
          else filesystemMap twoMounted)
    /\ deletionWatchers w'
       = (if running twoMounted
          then JsObject.delete (deletionWatchers twoMounted) "/mnt/a"
          else deletionWatchers twoMounted).
Proof.
  apply (watcher_deletion_unmounts (H := exampleHost) twoMounted 1%nat
           (FolderDeletionWatcher.started "/mnt/a") "/mnt/a"
           (FolderDeletionWatcher.mkNotification ["mnt"] "rename" "a") volA).
  - exists (firstn 3 singleRun). split; [|vm_compute; reflexivity].
    simpl. run_wellformed.
  - vm_compute. reflexivity.
  - reflexivity.
  - repeat split; vm_compute; reflexivity.
  - vm_compute. reflexivity.
  - vm_compute. reflexivity.
Defined.

(** ** The live part of the event stream *)

Section LiveStream.
Context `{Host}.

Lemma runActions_invariant (P : World -> Prop) :
  (forall w a w', consistent w -> wellFormedAction a -> P w ->
                  act w a = Js.Ok w' -> P w') ->
  forall actions w w',
    consistent w -> P w -> Forall wellFormedAction actions ->
    runActions w actions = Js.Ok w' -> P w'.
Proof.
  intros Hstep. induction actions as [|a actions IH]; intros w w' Hc HP Hwf.
  - by intros [= <-].
  - apply Forall_cons in Hwf as [Hwfa Hwf].
    destruct (act_consistent a w Hc Hwfa) as (w1 & Hact & Hc1 & _).
    unfold runActions in *. simpl. rewrite Hact. simpl.
    apply (IH w1); [done| |done]. by apply (Hstep w a).
Qed.

Lemma act_subscribers (w : World) (a : Action) (w' : World) :
  consistent w -> wellFormedAction a -> act w a = Js.Ok w' ->
  listenersOf "all" w' = listenersOf "all" w.
Proof.
  intros [Hatt Hcov] Hwf. destruct a as [| | |disk ns c|ref i]; simpl.
  - intros [= <-]. unfold start. destruct (running w); [reflexivity|].
    unfold nextRefresh. simpl. unfold listenersOf. simpl.
    rewrite !listenersIn_app, !listenersIn_singleton. decide_names.
    by rewrite !app_nil_r.
  - intros [= <-]. unfold stop. destruct (running w); [|reflexivity].
    unfold listenersOf. simpl.
    by rewrite !listenersIn_removeLast_ne by discriminate.
  - intros [= <-]. unfold nextRefresh. destruct (running w); [|reflexivity].
    unfold listenersOf. simpl.
    rewrite listenersIn_app, listenersIn_singleton. decide_names.
    by rewrite app_nil_r.
  - unfold monitorCycle. destruct (running w); [|by intros [= <-]].
    destruct (diff disk (filesystemMap w) ns c) as [events|]; [|done].
    simpl.
    destruct (reduce emitEvent events w) as [w1|] eqn:Hw1; [|done]. simpl.
    destruct (emitEvents_frame events w w1 Hatt Hw1) as (Hl1 & _ & Ha1).
    assert (handlersAttached w1) as Hatt1
      by (by apply (handlersAttached_frame w)).
    rewrite emit_changed by exact Hatt1. simpl.
    pose proof Hatt1 as (_ & _ & _ & _ & _ & Href).
    destruct (callAll_resolvers (listenersOf "refresh" w1) w1 Href)
      as (w2 & Hemit & _ & Hother & _).
    unfold emit. rewrite Hemit. intros [= <-].
    rewrite Hother by discriminate. unfold listenersOf. by rewrite Hl1.
  - intros Hin. apply watcherInput_frame in Hin as (Hl & _); [|exact Hatt].
    unfold listenersOf. by rewrite Hl.
Qed.

Lemma reachable_no_subscriber (w : World) :
  reachable w -> listenersOf "all" w = [].
Proof.
  intros (actions & Hwf & Hrun).
  apply (runActions_invariant (fun w => listenersOf "all" w = [])
           (fun w a w' Hc Hwfa HP Hact =>
              eq_trans (act_subscribers w a w' Hc Hwfa Hact) HP)
           actions initial w consistent_initial eq_refl Hwf Hrun).
Qed.

Lemma onUnmount_queues e w w' :
  onUnmount e w = Js.Ok w' -> queues w' = queues w.
Proof.
  unfold onUnmount. destruct (JsObject.get _ _); [|done]. by intros [= <-].
Qed.

Lemma onRename_queues e w w' :
  onRename e w = Js.Ok w' -> queues w' = queues w.
Proof.
  unfold onRename. destruct e as [|new old|]; try done.
  destruct (mounted old).
  - destruct (onUnmount (Unmount old) w) as [w1|] eqn:Hw1; [|done]. simpl.
    apply onUnmount_queues in Hw1. intros [= <-].
    by destruct (mounted new).
  - simpl. intros [= <-]. by destruct (mounted new).
Qed.

Lemma emitEvent_queue e w w' (q : nat) :
  handlersAttached w -> listenersOf "all" w = [EventIterable q] ->
  emitEvent w e = Js.Ok w' ->
  queues w' = alter (fun buf => buf ++ [e]) q (queues w).
Proof.
  intros Hatt Hall. unfold emitEvent.
  destruct (emit (typeName e) (Some e) w) as [w1|] eqn:Hw1; [|done]. simpl.
  assert (listeners w1 = listeners w /\ queues w1 = queues w) as [Hl1 Hq1].
  { destruct e; simpl in Hw1.
    - rewrite emit_mount in Hw1 by done. injection Hw1 as <-.
      by destruct (running w).
    - rewrite emit_rename in Hw1 by done.
      destruct (running w); [|by injection Hw1 as <-].
      split; [apply (onRename_frame _ _ _ Hw1)
             | apply (onRename_queues _ _ _ Hw1)].
    - rewrite emit_unmount in Hw1 by done.
      destruct (running w); [|by injection Hw1 as <-].
      split; [apply (onUnmount_frame _ _ _ Hw1)
             | apply (onUnmount_queues _ _ _ Hw1)]. }
  unfold emit, listenersOf. rewrite Hl1. fold (listenersOf "all" w).
  rewrite Hall. simpl. intros [= <-]. simpl. by rewrite Hq1.
Qed.

Lemma emitEvents_queue (events : list FileSystemEvent) w w' (q : nat) :
  handlersAttached w -> listenersOf "all" w = [EventIterable q] ->
  reduce emitEvent events w = Js.Ok w' ->
  queues w' !! q = (fun buf => buf ++ events) <$> queues w !! q.
Proof.
  revert w. induction events as [|e events IH]; intros w Hatt Hall; simpl.
  - intros [= <-]. destruct (queues w !! q); simpl; [|done].
    by rewrite app_nil_r.
  - destruct (emitEvent w e) as [w1|] eqn:Hw1; [|done]. simpl.
    destruct (emitEvent_frame e w w1 Hatt Hw1) as (Hl & _ & Ha).
    intros Hrest. apply IH in Hrest.
    + rewrite Hrest, (emitEvent_queue e w w1 q Hatt Hall Hw1).
      rewrite list_lookup_alter, decide_True by done.
      destruct (queues w !! q); simpl; [|done].
      by rewrite <- app_assoc.
    + by apply (handlersAttached_frame w).
    + unfold listenersOf in *. by rewrite Hl.
Qed.

Lemma callAll_resolvers_queues (ls : list Listener) w w' :
  Forall (fun l => exists p, l = OnceResolve p) ls ->
  callAll "refresh" ls None w = Js.Ok w' -> queues w' = queues w.
Proof.
  intros Hls. revert w. induction Hls as [|l ls [p ->] _ IH]; intros w.
  - by intros [= <-].
  - simpl. intros Hrest. by apply IH in Hrest.
Qed.

Lemma nexts_live (es : list FileSystemEvent) (q : nat) (w : World) :
  queues w !! q = Some es ->
  exists w',
    nexts (List.length es) (Live q) w = Js.Ok (w', Live q, es)
    /\ queues w' !! q = Some [].
Proof.
  revert w. induction es as [|e es IH]; intros w Hq.
  - by exists w.
  - simpl. unfold takeLive. rewrite Hq.
    match goal with |- context [nexts _ _ ?w1] =>
      destruct (IH w1) as (w' & Hw' & Hq') end.
    { simpl. rewrite list_lookup_insert_eq; [done|].
      by apply lookup_lt_Some in Hq. }
    exists w'. rewrite Hw'. done.
Qed.

Lemma nexts_replay_attach (rest : list FileSystem) (w : World) :
  nexts (S (List.length rest)) (Replaying rest) w
  = Js.Ok (fst (attachIterable w), Live (List.length (queues w)),
           map Mount rest).
Proof.
  induction rest as [|fs rest IH].
  - simpl. unfold takeLive. simpl.
    by rewrite lookup_app_r, Nat.sub_diag.
  - change (nexts (S (List.length (fs :: rest))) (Replaying (fs :: rest)) w)
      with (r' ← nexts (S (List.length rest)) (Replaying rest) w;
            let '(w2, it2, es) := r' in
            mret (w2, it2, Mount fs :: es)).
    by rewrite IH.
Qed.


End LiveStream.


(** With [volA] and [volB] mounted: the replay, then the events of a
    cycle in which [volC] appears and [volA] is gone. *)
Example stream_after_two_mounts :
  exists w1 w2 w3,
    nexts (H := exampleHost) 3 Fresh twoMounted
    = Js.Ok (w1, Live 0%nat, [Mount volA; Mount volB])
    /\ monitorCycle (H := exampleHost) allDirectories [volB; volC]
         [volC; volB] w1 = Js.Ok w2
    /\ nexts (H := exampleHost) 2 (Live 0%nat) w2
       = Js.Ok (w3, Live 0%nat, [Mount volC; Unmount volA]).
Proof. eexists _, _, _. repeat split; vm_compute; reflexivity. Qed.

(** ** The promises of [start] and [nextRefresh] *)

Section Promises.
Context `{Host}.

Lemma listenersIn_removeLast_perm name l ls :
  (name, l) ∈ ls ->
  listenersIn name ls ≡ₚ l :: listenersIn name (removeLast name l ls).
Proof.
  intros Hin. destruct (removeLast_split name l ls Hin)
    as (ls1 & ls2 & -> & ->).
  rewrite !listenersIn_app.
  change ((name, l) :: ls2) with ([(name, l)] ++ ls2).
  rewrite listenersIn_app, listenersIn_singleton, decide_True by done.
  simpl. by rewrite Permutation_middle.
Qed.

Lemma callAll_resolvers_drain (ls : list Listener) (w : World) :
  Forall (fun l => exists p, l = OnceResolve p) ls ->
  listenersOf "refresh" w ≡ₚ ls ->
  forall w', callAll "refresh" ls None w = Js.Ok w' ->
             listenersOf "refresh" w' = [].
Proof.
  intros Hls. revert w. induction Hls as [|l ls [p ->] _ IH]; intros w Hperm w'.
  - intros [= <-]. by apply Permutation_nil_r.
  - simpl. apply IH. unfold listenersOf in *. simpl.
    apply (Permutation_cons_inv (a := OnceResolve p)).
    rewrite <- Hperm. symmetry. apply listenersIn_removeLast_perm.
    apply listenersIn_elem. rewrite Hperm. by left.
Qed.

Lemma cycle_settles (disk : string -> bool)
  (newState completion : list FileSystem) (w w' : World) :
  consistent w -> resolversRegistered w -> running w = true ->
  monitorCycle disk newState completion w = Js.Ok w' ->
  Forall (fun b => b = true) (promises w')
  /\ listenersOf "refresh" w' = []
  /\ List.length (promises w') = List.length (promises w).
Proof.
  intros [Hatt Hcov] Hreg Hrun. unfold monitorCycle. rewrite Hrun.
  destruct (diff disk (filesystemMap w) newState completion)
    as [events|]; [|done]. simpl.
  destruct (reduce emitEvent events w) as [w1|] eqn:Hw1; [|done]. simpl.
  destruct (emitEvents_frame events w w1 Hatt Hw1) as (Hl1 & Hp1 & Ha1).
  assert (handlersAttached w1) as Hatt1
    by (by apply (handlersAttached_frame w)).
  rewrite emit_changed by exact Hatt1. simpl.
  pose proof Hatt1 as (_ & _ & _ & _ & _ & Href).
  destruct (callAll_resolvers (listenersOf "refresh" w1) w1 Href)
    as (w2 & Hemit & _ & _ & _ & Hlen & Hkeep & Hres).
  unfold emit. intros Hcyc.
  pose proof (callAll_resolvers_drain _ w1 Href (reflexivity _) w' Hcyc)
    as Hdrain.
  rewrite Hemit in Hcyc. injection Hcyc as <-.
  split; [|split; [exact Hdrain | by rewrite Hlen, Hp1]].
  apply Forall_lookup. intros p b Hb.
  assert (p < List.length (promises w1))%nat as Hlt
    by (rewrite <- Hlen; by apply lookup_lt_Some in Hb).
  destruct (lookup_lt_is_Some_2 _ _ Hlt) as [[] Hb1].
  - rewrite (Hkeep p Hb1) in Hb. by injection Hb as <-.
  - rewrite Hres in Hb; [by injection Hb as <-| |exact Hlt].
    unfold listenersOf in *. rewrite Hl1. apply Hreg. by rewrite <- Hp1.
Qed.

Lemma act_resolversRegistered (w : World) (a : Action) (w' : World) :
  consistent w -> wellFormedAction a -> resolversRegistered w ->
  act w a = Js.Ok w' -> resolversRegistered w'.
Proof.
  intros Hc Hwf Hreg. pose proof Hc as [Hatt Hcov].
  assert (forall w0 : World,
            listenersOf "refresh" w0
            = listenersOf "refresh" w
              ++ [OnceResolve (List.length (promises w))] ->
            promises w0 = promises w ++ [false] ->
            resolversRegistered w0) as Hadd.
  { intros w0 Hl Hp p Hlook. rewrite Hl, Hp in *. apply elem_of_app.
    destruct (decide (p < List.length (promises w))%nat) as [Hlt|Hge].
    - left. apply Hreg. by rewrite lookup_app_l in Hlook.
    - right. apply list_elem_of_singleton.
      rewrite lookup_app_r in Hlook by lia.
      apply lookup_lt_Some in Hlook as Hlen. simpl in Hlen.
      f_equal. lia. }
  destruct a as [| | |disk ns c|ref i]; simpl.
  - intros [= <-]. unfold start. destruct (running w); [exact Hreg|].
    unfold nextRefresh. simpl. apply Hadd; simpl; [|reflexivity].
    unfold listenersOf. simpl.
    rewrite !listenersIn_app, !listenersIn_singleton. decide_names.
    by rewrite !app_nil_r.
  - intros [= <-]. unfold stop. destruct (running w); [|exact Hreg].
    intros p. unfold listenersOf. simpl.
    rewrite !listenersIn_removeLast_ne by discriminate. apply Hreg.
  - intros [= <-]. unfold nextRefresh. destruct (running w); [|exact Hreg].
    simpl. apply Hadd; simpl; [|reflexivity].
    unfold listenersOf. simpl.
    by rewrite listenersIn_app, listenersIn_singleton, decide_True.
  - destruct (running w) eqn:Hrun.
    + intros Hcyc. destruct (cycle_settles disk ns c w w' Hc Hreg Hrun Hcyc)
        as (Hall & _).
      intros p Hp. rewrite Forall_lookup in Hall.
      by specialize (Hall p false Hp).
    + unfold monitorCycle. rewrite Hrun. by intros [= <-].
  - intros Hin. apply watcherInput_frame in Hin as (Hl & Hp & _); [|done].
    intros p. unfold listenersOf. rewrite Hl, Hp. apply Hreg.
Qed.

Lemma reachable_resolversRegistered (w : World) :
  reachable w -> resolversRegistered w.
Proof.
  intros (actions & Hwf & Hrun).
  apply (runActions_invariant resolversRegistered act_resolversRegistered
           actions initial w consistent_initial); [|done|done].
  intros p Hp. simpl in Hp. discriminate.
Qed.

(** X26. A completed poll cycle of a running monitor settles every promise
    that [start] or [nextRefresh] has handed out so far, including those
    obtained before an earlier [stop], and leaves no resolver registered on
    the refresh event. *)
Theorem cycle_settles_all_promises (w : World) (disk : string -> bool)
  (newState completion : list FileSystem) :
  reachable w -> running w = true ->
  completion ≡ₚ newState -> Forall sortable newState ->
  exists w',
    monitorCycle disk newState completion w = Js.Ok w'
    /\ List.length (promises w') = List.length (promises w)
    /\ Forall (fun b => b = true) (promises w')
    /\ listenersOf "refresh" w' = [].
Proof.
  intros Hr Hrun Hperm Hsort.
  pose proof (reachable_consistent w Hr) as Hc.
  pose proof (reachable_resolversRegistered w Hr) as Hreg.
  destruct (monitorCycle_consistent disk newState completion w Hc Hperm Hsort)
    as (w' & Hcyc & _).
  destruct (cycle_settles disk newState completion w w' Hc Hreg Hrun Hcyc)
    as (Hall & Hnone & Hlen).
  by exists w'.
Qed.

End Promises.

(** A promise of the first run, and the promise of the restart. *)
Lemma cycle_settles_all_promises_witness :
  exists w',
    monitorCycle (H := exampleHost) allDirectories [volB; volC] [volC; volB]
      (worldAfter [Start; NextRefresh; StopMonitor; Start]) = Js.Ok w'
    /\ List.length (promises w')
       = List.length
           (promises (worldAfter [Start; NextRefresh; StopMonitor; Start]))
    /\ Forall (fun b => b = true) (promises w')
    /\ listenersOf "refresh" w' = [].
Proof.
  apply (cycle_settles_all_promises (H := exampleHost)
           (worldAfter [Start; NextRefresh; StopMonitor; Start])).
  - exists [Start; NextRefresh; StopMonitor; Start].
    split; [|vm_compute; reflexivity]. run_wellformed.
  - vm_compute. reflexivity.
  - apply Permutation_swap.
  - repeat constructor; intros _; discriminate.
Defined.

(** ** A snapshot without filesystems *)

Section EmptySnapshot.
Context `{Host}.

Lemma emitEvents_unmount (l : list FileSystem) (w : World) :
  consistent w -> running w = true ->
  NoDup (map mountKey l) ->
  (forall fs, fs ∈ l -> mountKey fs ∈ JsObject.keySet (filesystemMap w)) ->
  exists w',
    reduce emitEvent (map Unmount l) w = Js.Ok w'
    /\ consistent w' /\ running w' = true
    /\ JsObject.keySet (filesystemMap w')
       = JsObject.keySet (filesystemMap w) ∖ list_to_set (map mountKey l).
Proof.
  revert w. induction l as [|fs l IH]; intros w Hc Hrun Hnd Hin.
  - exists w. split; [reflexivity|]. split; [exact Hc|].
    split; [exact Hrun|]. simpl. by rewrite difference_empty_L.
  - simpl in Hnd. apply NoDup_cons in Hnd as [Hfs Hnd].
    pose proof Hc as [Hatt Hcov].
    destruct (onUnmount_covers (Unmount fs) w Hcov)
      as (w1 & Hw1 & Hcov1 & Ha1 & Hl1 & Hd1 & Hm1).
    { unfold eventKey. simpl. destruct Hcov as (_ & _ & _ & Hsub).
      apply Hsub. apply (Hin fs). by left. }
    assert (handlersAttached w1) as Hatt1
      by (by apply (handlersAttached_frame w)).
    destruct (emit_all (Unmount fs) w1 Hatt1)
      as (w2 & Hw2 & Hsame & Hl2).
    assert (emitEvent w (Unmount fs) = Js.Ok w2) as Hev.
    { unfold emitEvent. simpl. rewrite emit_unmount, Hrun by done.
      rewrite Hw1. exact Hw2. }
    assert (consistent w2) as Hc2.
    { split; [|by apply (registryCovers_frame w1)].
      apply (handlersAttached_frame w1); [apply Hsame|done|done]. }
    assert (JsObject.keySet (filesystemMap w2)
            = JsObject.keySet (filesystemMap w) ∖ {[mountKey fs]}) as Hk2.
    { destruct Hsame as (_ & -> & _). rewrite Hm1. simpl.
      apply keySet_delete. }
    destruct (IH w2 Hc2) as (w' & Hw' & Hc' & Hrun' & Hk'); [|exact Hnd| |].
    + unfold running in *. destruct Hsame as (-> & _). by rewrite Ha1.
    + intros fs' Hfs'. rewrite Hk2. apply elem_of_difference. split.
      * apply Hin. by right.
      * intros Heq%elem_of_singleton. apply Hfs. rewrite <- Heq.
        apply list_elem_of_fmap. by exists fs'.
    + exists w'. simpl. rewrite Hev. simpl. split; [exact Hw'|].
      split; [exact Hc'|]. split; [exact Hrun'|].
      rewrite Hk', Hk2. simpl. by rewrite difference_difference_l_L.
Qed.

(** X27. When the provider reports no filesystem at all, a poll cycle of a
    running monitor emits an unmount event for every entry of the state,
    in the order of the state, and leaves the state empty. *)
Theorem empty_snapshot_clears_state (w : World) (disk : string -> bool) :
  reachable w -> running w = true ->
  exists st w',
    state w = Js.Ok st
    /\ diff disk (filesystemMap w) [] [] = Js.Ok (map Unmount st)
    /\ monitorCycle disk [] [] w = Js.Ok w'
    /\ running w' = true
    /\ state w' = Js.Ok [].
Proof.
  intros Hr Hrun. pose proof (reachable_consistent w Hr) as Hc.
  destruct (consistent_state w Hc) as (st & Hst & Hperm & Hnd & Hown).
  assert (diff disk (filesystemMap w) [] [] = Js.Ok (map Unmount st)) as Hdiff.
  { rewrite (diff_ok disk _ [] [] st Hst). simpl. f_equal. }
  destruct (emitEvents_unmount st w Hc Hrun Hnd)
    as (w1 & Hw1 & Hc1 & Hrun1 & Hk1).
  { intros fs Hfs. apply get_is_Some_keySet. rewrite (Hown fs Hfs).
    by exists fs. }
  destruct (emit_refresh_consistent w1 Hc1) as (w' & Hw' & _ & Hsame).
  exists st, w'. split; [exact Hst|]. split; [exact Hdiff|].
  assert (filesystemMap w' = []) as Hempty.
  { destruct Hsame as (_ & -> & _).
    assert (JsObject.keySet (filesystemMap w1) = ∅) as Hnone.
    { rewrite Hk1. apply set_eq. intros k. split; [|set_solver].
      intros [Hk Hnot]%elem_of_difference. exfalso. apply Hnot.
      apply get_is_Some_keySet in Hk as [v Hv].
      apply elem_of_list_to_set, list_elem_of_fmap. exists v.
      apply get_Some_elem in Hv as Hin.
      destruct Hc as [_ (_ & Hkeyed & _)]. split.
      - unfold mountKey. by rewrite (Hkeyed k v Hin).
      - rewrite Hperm. apply values_elem. by exists k. }
    destruct (filesystemMap w1) as [|[k v] m]; [reflexivity|].
    exfalso. assert (k ∈ JsObject.keySet ((k, v) :: m)) as Hk
      by (apply get_is_Some_keySet; exists v; simpl; by rewrite decide_True).
    rewrite Hnone in Hk. set_solver. }
  split; [|split].
  - unfold monitorCycle. rewrite Hrun, Hdiff. simpl. rewrite Hw1. simpl.
    rewrite emit_changed by apply Hc1. exact Hw'.
  - unfold running in *. destruct Hsame as (-> & _). exact Hrun1.
  - unfold state. rewrite Hempty. apply stateOf_empty.
Qed.

End EmptySnapshot.

(** The running monitor that holds [volA] and [volB]. *)
Lemma empty_snapshot_clears_state_witness :
  exists st w',
    state (H := exampleHost) twoMounted = Js.Ok st
    /\ diff (H := exampleHost) allDirectories (filesystemMap twoMounted) [] []
       = Js.Ok (map Unmount st)
    /\ monitorCycle (H := exampleHost) allDirectories [] [] twoMounted
       = Js.Ok w'
    /\ running w' = true
    /\ state (H := exampleHost) w' = Js.Ok [].
Proof.
  apply (empty_snapshot_clears_state (H := exampleHost) twoMounted).
  - exists (firstn 3 singleRun). split; [|vm_compute; reflexivity].
    simpl.
    repeat (apply Forall_cons; split); try apply Forall_nil; try exact I;
      simpl.
    split; [apply Permutation_swap|]. repeat constructor; done.
  - vm_compute. reflexivity.
Defined.

(** ** The rename handler, and a second mount at a mountpoint *)

Section HandlerEdges.

(** X28. The rename handler, for a mounted old entry and a mounted new one:
    when the registry has a watcher for the old mountpoint, that watcher is
    stopped, the new entry takes the place of the old one in the state map
    (under its own mountpoint, the old key being freed when the mountpoints
    differ), a new watcher is registered for it, and every other key of the
    map is left alone; when the registry has no watcher for the old
    mountpoint the handler throws a [TypeError]. *)
Theorem rename_handler (new old : FileSystem) (w : World) :
  mounted old = true -> mounted new = true ->
  match JsObject.get (deletionWatchers w) (mountKey old) with
  | None => onRename (Rename new old) w = Js.Throw Js.TypeError
  | Some ref =>
      exists w',
        onRename (Rename new old) w = Js.Ok w'
        /\ JsObject.get (filesystemMap w') (mountKey new) = Some new
        /\ (mountKey old <> mountKey new ->
            JsObject.get (filesystemMap w') (mountKey old) = None)
        /\ (forall k, k <> mountKey old -> k <> mountKey new ->
              JsObject.get (filesystemMap w') k
              = JsObject.get (filesystemMap w) k)
        /\ JsObject.get (deletionWatchers w') (mountKey new)
           = Some (List.length (heap w))
        /\ heap w'
           = alter FolderDeletionWatcher.stop ref (heap w)
             ++ [FolderDeletionWatcher.new (mountpoint new)]
  end.
Proof.
  intros Hold Hnew. unfold onRename. rewrite Hold, Hnew.
  unfold onUnmount, mountKey. simpl.
  destruct (JsObject.get (deletionWatchers w) (Js.propKey (mountpoint old)))
    as [ref|]; [|reflexivity].
  simpl. eexists. split; [reflexivity|]. simpl.
  split; [apply get_set_eq|]. split; [|split; [|split]].
  - intros Hne. rewrite get_set_ne by done. apply get_delete_eq.
  - intros k Hk1 Hk2. rewrite get_set_ne by done. by rewrite get_delete_ne.
  - rewrite length_alter. apply get_set_eq.
  - reflexivity.
Qed.

(** X29. The mount handler on a mountpoint that already has a watcher
    replaces the registry entry without stopping the watcher it held: after
    two mounts at the same mountpoint and one unmount, the registry and the
    state map have no entry for the mountpoint, the second watcher is
    stopped, and the first one is still as it was constructed. *)
Theorem remount_leaves_first_watcher (fs1 fs2 : FileSystem) (w : World) :
  mountKey fs1 = mountKey fs2 ->
  exists w',
    onUnmount (Unmount fs2) (onMount (Mount fs2) (onMount (Mount fs1) w))
    = Js.Ok w'
    /\ JsObject.get (deletionWatchers w') (mountKey fs2) = None
    /\ JsObject.get (filesystemMap w') (mountKey fs2) = None
    /\ heap w'
       = heap w
         ++ [FolderDeletionWatcher.new (mountpoint fs1);
             FolderDeletionWatcher.stop
               (FolderDeletionWatcher.new (mountpoint fs2))].
Proof.
  unfold mountKey. intros Hkey. unfold onUnmount, onMount. simpl.
  rewrite Hkey, get_set_eq. simpl. eexists. split; [reflexivity|]. simpl.
  split; [apply get_delete_eq|]. split; [apply get_delete_eq|].
  rewrite length_app. simpl. rewrite <- app_assoc. simpl.
  rewrite (alter_app_r _ (heap w) _ 1). reflexivity.
Qed.

End HandlerEdges.

(** [volA], and [volB_at_a] in its place. *)
Lemma rename_handler_witness :
  match JsObject.get (deletionWatchers twoMounted) (mountKey volA) with
  | None => onRename (Rename volB_at_a volA) twoMounted = Js.Throw Js.TypeError
  | Some ref =>
      exists w',
        onRename (Rename volB_at_a volA) twoMounted = Js.Ok w'
        /\ JsObject.get (filesystemMap w') (mountKey volB_at_a)
           = Some volB_at_a
        /\ (mountKey volA <> mountKey volB_at_a ->
            JsObject.get (filesystemMap w') (mountKey volA) = None)
        /\ (forall k, k <> mountKey volA -> k <> mountKey volB_at_a ->
              JsObject.get (filesystemMap w') k
              = JsObject.get (filesystemMap twoMounted) k)
        /\ JsObject.get (deletionWatchers w') (mountKey volB_at_a)
           = Some (List.length (heap twoMounted))
        /\ heap w'
           = alter FolderDeletionWatcher.stop ref (heap twoMounted)
             ++ [FolderDeletionWatcher.new (mountpoint volB_at_a)]
  end.
Proof.
  apply (rename_handler volB_at_a volA twoMounted); reflexivity.
Defined.

(** Two volumes mounted at [/mnt/a] on a new monitor. *)
Lemma remount_leaves_first_watcher_witness :
  exists w',
    onUnmount (Unmount volB_at_a)
      (onMount (Mount volB_at_a) (onMount (Mount volA) initial))
    = Js.Ok w'
    /\ JsObject.get (deletionWatchers w') (mountKey volB_at_a) = None
    /\ JsObject.get (filesystemMap w') (mountKey volB_at_a) = None
    /\ heap w'
       = heap initial
         ++ [FolderDeletionWatcher.new (mountpoint volA);
             FolderDeletionWatcher.stop
               (FolderDeletionWatcher.new (mountpoint volB_at_a))].
Proof.
  apply (remount_leaves_first_watcher volA volB_at_a initial). reflexivity.
Defined.
